(** * Span geometry and similarity-aware loss terms ([span_utils.py])

    A shallow embedding of the two snapshots of [span_utils.py]
    ([results/loss1/...] and [results/loss2/...]) and the properties of
    the span converters, temporal IoU / GIoU, the span-to-clip-index
    mapping and the loss aggregator [new_loss].

    Numbers.  Tensor entries given by the caller (spans, similarity
    scores) are rationals [Q]: finite arithmetic is exact, the rounding of
    32-bit floats and overflow are not modelled.  Results of a division
    live in [tval], which adds the IEEE special values the code can
    produce by dividing by zero ([nan], [+inf], [-inf]); signed zeros are
    not modelled.

    Failures.  A Python exception ([assert], an index out of range, a
    shape mismatch in a tensor operation) is a [Raise] in the [result]
    monad. *)

From Stdlib Require Import QArith Qround Qabs Qminmax Lqa ZArith Lia List.
From stdpp Require Import base option list gmap.

Local Open Scope Q_scope.

(** ** Tensor entries with the IEEE special values *)

Inductive tval : Type :=
| Fin (q : Q)
| PInf
| NInf
| NaN.

(** [+inf], [-inf] or [nan] by the sign of a finite numerator over zero
    (and of a finite factor of an infinity). *)
Definition signed_inf (c : comparison) : tval :=
  match c with
  | Gt => PInf
  | Lt => NInf
  | Eq => NaN
  end.

Definition tneg (x : tval) : tval :=
  match x with
  | Fin q => Fin (- q)
  | PInf => NInf
  | NInf => PInf
  | NaN => NaN
  end.

Definition tadd (x y : tval) : tval :=
  match x, y with
  | NaN, _ | _, NaN => NaN
  | Fin a, Fin b => Fin (a + b)
  | PInf, NInf | NInf, PInf => NaN
  | PInf, _ | _, PInf => PInf
  | NInf, _ | _, NInf => NInf
  end.

Definition tsub (x y : tval) : tval := tadd x (tneg y).

Definition tmul (x y : tval) : tval :=
  match x, y with
  | NaN, _ | _, NaN => NaN
  | Fin a, Fin b => Fin (a * b)
  | Fin a, PInf | PInf, Fin a => signed_inf (Qcompare a 0)
  | Fin a, NInf | NInf, Fin a => signed_inf (Qcompare 0 a)
  | PInf, PInf | NInf, NInf => PInf
  | PInf, NInf | NInf, PInf => NInf
  end.

Definition tdiv (x y : tval) : tval :=
  match x, y with
  | NaN, _ | _, NaN => NaN
  | Fin a, Fin b => if Qeq_bool b 0 then signed_inf (Qcompare a 0) else Fin (a / b)
  | Fin _, (PInf | NInf) => Fin 0
  | PInf, Fin b => match Qcompare b 0 with Lt => NInf | _ => PInf end
  | NInf, Fin b => match Qcompare b 0 with Lt => PInf | _ => NInf end
  | (PInf | NInf), (PInf | NInf) => NaN
  end.

Definition tabs (x : tval) : tval :=
  match x with
  | Fin q => Fin (Qabs q)
  | PInf | NInf => PInf
  | NaN => NaN
  end.

(** [x <= y] as the tensor comparison evaluates it: false as soon as one
    side is [nan]. *)
Definition tle (x y : tval) : bool :=
  match x, y with
  | NaN, _ | _, NaN => false
  | Fin a, Fin b => Qle_bool a b
  | NInf, _ | _, PInf => true
  | _, _ => false
  end.

(** Division of two finite entries, [a / b] on tensors. *)
Definition qdiv (a b : Q) : tval := tdiv (Fin a) (Fin b).

(** ** Exceptions *)

Inductive error : Type :=
| AssertionError
| IndexError
| RuntimeError.

Inductive result (A : Type) : Type :=
| Ok (a : A)
| Raise (e : error).
Arguments Ok {A} a.
Arguments Raise {A} e.

#[global] Instance result_ret : MRet result := @Ok.
#[global] Instance result_bind : MBind result :=
  λ A B f m, match m with Ok a => f a | Raise e => Raise e end.
#[global] Instance result_fmap : FMap result :=
  λ A B f m, match m with Ok a => Ok (f a) | Raise e => Raise e end.

(** [assert b] *)
Definition py_assert (b : bool) : result unit :=
  if b then Ok tt else Raise AssertionError.

(** [l[i]] for an index that is not negative. *)
Definition index {A} (l : list A) (i : nat) : result A :=
  match l !! i with
  | Some x => Ok x
  | None => Raise IndexError
  end.

(** [for b, i in enumerate(idx): st = body(b, i, st)], starting at row [b]. *)
Fixpoint for_enumerate {St} (body : nat → nat → St → result St)
    (b : nat) (idx : list nat) (st : St) : result St :=
  match idx with
  | [] => Ok st
  | i :: idx' => st' ← body b i st; for_enumerate body (S b) idx' st'
  end.

(** ** Tensor helpers *)

(** A span [(st, ed)] or [(center, width)]: one row of a [(N, 2)] tensor. *)
Abbreviation span := (Q * Q)%type.
(** A span of clip indices, after [.int()]. *)
Abbreviation ispan := (Z * Z)%type.

(** A [(B, L)] tensor: its rows and the size [L] of dimension 1, which an
    empty batch still has. *)
Record tensor2 : Type := Tensor2 { t_cols : nat; t_rows : list (list Q) }.
(** A [(B, L, L')] tensor: its matrices and the size [L] of dimension 1. *)
Record tensor3 : Type := Tensor3 { v_len : nat; v_mats : list (list (list Q)) }.

(** [f(xs[:, None], ys)]: broadcasting a column against a row. *)
Definition outer {A B C} (f : A → B → C) (xs : list A) (ys : list B) : list (list C) :=
  (λ x, f x <$> ys) <$> xs.

(** An elementwise operation on two matrices of one shape. *)
Definition mat_zip {A B C} (f : A → B → C) (m1 : list (list A)) (m2 : list (list B))
    : list (list C) :=
  zip_with (zip_with f) m1 m2.

Definition mat_map {A B} (f : A → B) (m : list (list A)) : list (list B) :=
  (λ r : list A, f <$> r) <$> m.

(** The entry [m[n, k]]. *)
Definition entry {A} (m : list (list A)) (n k : nat) : option A :=
  m !! n ≫= (.!! k).

(** [x.clamp(min=lo)] *)
Definition clamp_min (lo x : Q) : Q := Qmax x lo.

(** [torch.clamp(x, min=lo, max=hi)]: the upper bound wins when [lo > hi]. *)
Definition clamp (lo hi x : Q) : Q := Qmin (Qmax x lo) hi.

(** [torch.diag] of a matrix: the entries [m[i, i]]. *)
Fixpoint diag_from {A} (i : nat) (m : list (list A)) : list A :=
  match m with
  | [] => []
  | r :: m' =>
      match r !! i with
      | Some x => x :: diag_from (S i) m'
      | None => []
      end
  end.
Definition diag {A} (m : list (list A)) : list A := diag_from 0 m.

(** [torch.round]: to the nearest integer, halves to the even one. *)
Definition round_half_even (q : Q) : Z :=
  let f := Qfloor q in
  match Qcompare (q - inject_Z f) (1 # 2) with
  | Lt => f
  | Gt => (f + 1)%Z
  | Eq => if Z.even f then f else (f + 1)%Z
  end.

(** [.int()]: truncation towards zero. *)
Definition Qtrunc (q : Q) : Z := Z.quot (Qnum q) (Z.pos (Qden q)).

(** The bound of a Python slice on a sequence of length [n]: a negative
    bound counts from the end, and both are cut to [0 .. n]. *)
Definition slice_bound (n : nat) (i : Z) : nat :=
  Z.to_nat (if (i <? 0)%Z then Z.max (i + Z.of_nat n) 0 else Z.min i (Z.of_nat n)).

(** [l[a:b]] *)
Definition py_slice {A} (l : list A) (a b : Z) : list A :=
  let lo := slice_bound (length l) a in
  let hi := slice_bound (length l) b in
  take (hi - lo) (drop lo l).

Definition Qsum (xs : list Q) : Q := foldr Qplus 0 xs.

(** [xs.mean()]: [nan] on an empty tensor. *)
Definition mean (xs : list Q) : tval := qdiv (Qsum xs) (inject_Z (Z.of_nat (length xs))).

(** [torch.stack(xs, dim=0)] of scalars: refuses an empty list. *)
Definition stack {A} (xs : list A) : result (list A) :=
  match xs with
  | [] => Raise RuntimeError
  | _ => Ok xs
  end.

(** An elementwise operation on two 1-D tensors, with broadcasting: equal
    lengths, or one of them of length 1. *)
Definition broadcast {A} (f : A → A → A) (xs ys : list A) : result (list A) :=
  if decide (length xs = length ys) then Ok (zip_with f xs ys)
  else match xs, ys with
       | [x], _ => Ok (f x <$> ys)
       | _, [y] => Ok ((λ x, f x y) <$> xs)
       | _, _ => Raise RuntimeError
       end.

(** [acc += term] on 1-D tensors: [term] is broadcast to the shape of
    [acc], which does not change. *)
Definition iadd (acc term : list tval) : result (list tval) :=
  if decide (length term = length acc) then Ok (zip_with tadd acc term)
  else match term with
       | [y] => Ok ((λ x, tadd x y) <$> acc)
       | _ => Raise RuntimeError
       end.

(** ** Span converters and temporal IoU (the same in both snapshots) *)

(** [span_xx_to_cxw] on one row [(st, ed)] of the last dimension. *)
Definition span_xx_to_cxw_row (s : span) : span :=
  let center := (s.1 + s.2) * (1 # 2) in
  let width := s.2 - s.1 in
  (center, width).

Definition span_xx_to_cxw (xx_spans : list span) : list span :=
  span_xx_to_cxw_row <$> xx_spans.

(** [span_cxw_to_xx] on one row [(center, width)]. *)
Definition span_cxw_to_xx_row (s : span) : span :=
  let x1 := s.1 - (1 # 2) * s.2 in
  let x2 := s.1 + (1 # 2) * s.2 in
  (x1, x2).

Definition span_cxw_to_xx (cxw_spans : list span) : list span :=
  span_cxw_to_xx_row <$> cxw_spans.

(** The two converters with the rounding of each floating-point operation
    made explicit: [rnd] is applied to the result of every addition,
    subtraction and multiplication. *)
Definition span_xx_to_cxw_rnd (rnd : Q → Q) (s : span) : span :=
  let center := rnd (rnd (s.1 + s.2) * (1 # 2)) in
  let width := rnd (s.2 - s.1) in
  (center, width).

Definition span_cxw_to_xx_rnd (rnd : Q → Q) (s : span) : span :=
  let x1 := rnd (s.1 - rnd ((1 # 2) * s.2)) in
  let x2 := rnd (s.1 + rnd ((1 # 2) * s.2)) in
  (x1, x2).

(** The matrix [inter] of [temporal_iou]: [(right - left).clamp(min=0)]. *)
Definition temporal_inter (spans1 spans2 : list span) : list (list Q) :=
  let left := outer Qmax (fst <$> spans1) (fst <$> spans2) in
  let right := outer Qmin (snd <$> spans1) (snd <$> spans2) in
  mat_map (clamp_min 0) (mat_zip Qminus right left).

Definition temporal_iou (spans1 spans2 : list span)
    : list (list tval) * list (list Q) :=
  let areas1 := (λ s : span, s.2 - s.1) <$> spans1 in
  let areas2 := (λ s : span, s.2 - s.1) <$> spans2 in
  let inter := temporal_inter spans1 spans2 in
  let union := mat_zip Qminus (outer Qplus areas1 areas2) inter in
  let iou := mat_zip qdiv inter union in
  (iou, union).

(** [(spans[:, 1] >= spans[:, 0]).all()] *)
Definition spans_valid (spans : list span) : bool :=
  forallb (λ s : span, Qle_bool s.1 s.2) spans.

(** [spans.float()] changes nothing on the rationals of this model. *)
Definition generalized_temporal_iou (spans1 spans2 : list span)
    : result (list (list tval)) :=
  _ ← py_assert (spans_valid spans1);
  _ ← py_assert (spans_valid spans2);
  let '(iou, union) := temporal_iou spans1 spans2 in
  let left := outer Qmin (fst <$> spans1) (fst <$> spans2) in
  let right := outer Qmax (snd <$> spans1) (snd <$> spans2) in
  let enclosing_area := mat_map (clamp_min 0) (mat_zip Qminus right left) in
  Ok (mat_zip tsub iou
        (mat_zip qdiv (mat_zip Qminus enclosing_area union) enclosing_area)).

(** [inter / (pred_spans[:, 1] - pred_spans[:, 0])]: the row of the lengths
    of the second batch is broadcast against every row of [inter]. *)
Definition temporal_intersection_over_pred (gt_spans pred_spans : list span)
    : list (list tval) :=
  let inter := temporal_inter gt_spans pred_spans in
  (λ r : list Q, zip_with qdiv r ((λ s : span, s.2 - s.1) <$> pred_spans)) <$> inter.

(** [distance_term].  [spans1[:, None, 0] + spans1[:, None, 1]] is a matrix
    of one column, of which [torch.diag] keeps the entry of row 0 alone. *)
Definition distance_term (spans1 spans2 : list span) : result (list tval) :=
  let left := outer Qmin (fst <$> spans1) (fst <$> spans2) in
  let right := outer Qmax (snd <$> spans1) (snd <$> spans2) in
  let enclosing_area := diag (mat_map (clamp_min 0) (mat_zip Qminus right left)) in
  let center1 := diag ((λ s : span, [(s.1 + s.2) / 2]) <$> spans1) in
  let center2 := (λ s : span, (s.1 + s.2) / 2) <$> spans2 in
  center_dist ← broadcast (λ c2 c1, Qabs (c2 - c1)) center2 center1;
  broadcast tdiv (Fin <$> center_dist) ((λ e, Fin (e * e)) <$> enclosing_area).

(** ** The loops shared by the similarity terms *)

(** [st, end = min(max(st, 0), vid_len - 1), min(end, vid_len - 1)], the
    bounds applied to a predicted span. *)
Definition clamp_src (vid_len : Z) (s : ispan) : ispan :=
  (Z.min (Z.max s.1 0) (vid_len - 1), Z.min s.2 (vid_len - 1))%Z.

(** [st, end = min(st, vid_len - 1), min(end, vid_len - 1)], the bounds
    applied to a ground-truth span. *)
Definition clamp_tgt (vid_len : Z) (s : ispan) : ispan :=
  (Z.min s.1 (vid_len - 1), Z.min s.2 (vid_len - 1))%Z.

(** [logit[st:end + 1].mean()] *)
Definition range_mean (logit : list Q) (s : ispan) : tval :=
  mean (py_slice logit s.1 (s.2 + 1)%Z).

(** [v2v_sim[st:end + 1, :][:, st':end' + 1].flatten().mean()] *)
Definition block_mean (v2v_sim : list (list Q)) (rows cols : ispan) : tval :=
  mean (concat ((λ r : list Q, py_slice r cols.1 (cols.2 + 1)%Z)
                  <$> py_slice v2v_sim rows.1 (rows.2 + 1)%Z)).

(** [enumerate(l)] *)
Definition enumerate {A} (l : list A) : list (nat * A) := imap pair l.

(** [[f(x) for x in l]], stopping at the first exception. *)
Definition for_each {A B} (l : list A) (f : A → result B) : result (list B) :=
  mapM f l.

(** [for i in range(bsz): for j in range(len(src_spans[i])): out.append(...)]
    where the body reads [rows[i]], [src_spans[i][j]] and [tgt_spans[i][j]]. *)
Definition video_loop {T A} (rows : list T) (src_spans tgt_spans : list (list ispan))
    (body : T → ispan → ispan → A) : result (list A) :=
  groups ← for_each (enumerate rows) (λ ir,
    src_i ← index src_spans ir.1;
    for_each (enumerate src_i) (λ js,
      tgt_i ← index tgt_spans ir.1;
      t ← index tgt_i js.1;
      Ok (body ir.2 js.2 t)));
  Ok (concat groups).

(** The same loops over the predicted spans alone. *)
Definition video_loop1 {T A} (rows : list T) (src_spans : list (list ispan))
    (body : T → ispan → A) : result (list A) :=
  groups ← for_each (enumerate rows) (λ ir,
    src_i ← index src_spans ir.1;
    Ok (body ir.2 <$> (src_i : list ispan)));
  Ok (concat groups).

(** [groups[i].append(x)] *)
Definition append_at {A} (i : nat) (x : A) (groups : list (list A))
    : result (list (list A)) :=
  g ← index groups i; Ok (<[i := g ++ [x]]> groups).

(** [1 - iou] *)
Definition one_minus (xs : list tval) : list tval := tsub (Fin 1) <$> xs.

(** The set of enabled loss terms. *)
Abbreviation loss_types := (gset Z).

(** ** First snapshot: one clip length for the whole batch *)

Module Loss1.

(** [spans[b].int()] *)
Definition span_int (s : span) : ispan := (Qtrunc s.1, Qtrunc s.2).

(** The grouping loop of [S_Diff] and [S_GT_P]:
    [src_spans[i].append(spans1[b].int()); tgt_spans[i].append(spans2[b].int())]. *)
Definition group_pairs (bsz : nat) (spans1 spans2 : list span) (idx : list nat)
    : result (list (list ispan) * list (list ispan)) :=
  for_enumerate (λ b i st,
      s ← index spans1 b;
      src ← append_at i (span_int s) st.1;
      t ← index spans2 b;
      tgt ← append_at i (span_int t) st.2;
      Ok (src, tgt))
    0%nat idx (replicate bsz [], replicate bsz []).

(** The grouping loop of [S_Q_P]. *)
Definition group_spans (bsz : nat) (spans : list span) (idx : list nat)
    : result (list (list ispan)) :=
  for_enumerate (λ b i st, s ← index spans b; append_at i (span_int s) st)
    0%nat idx (replicate bsz []).

(** The body of the loops of [S_Diff]: [torch.abs(src_sim - tgt_sim)].  The
    two [isnan] tests only print, and are left out. *)
Definition sim_diff (vid_len : Z) (logit : list Q) (src tgt : ispan) : tval :=
  let src_sim := range_mean logit (clamp_src vid_len src) in
  let tgt_sim := range_mean logit (clamp_tgt vid_len tgt) in
  tabs (tsub src_sim tgt_sim).

Definition S_Diff (iou : list tval) (spans1 spans2 : list span) (logits : tensor2)
    (idx : list nat) : result (list tval) :=
  let bsz := length (t_rows logits) in
  let vid_len := Z.of_nat (t_cols logits) in
  '(src_spans, tgt_spans) ← group_pairs bsz spans1 spans2 idx;
  sim_diffs ← video_loop (t_rows logits) src_spans tgt_spans (sim_diff vid_len);
  sim_diffs ← stack sim_diffs;
  broadcast tmul (one_minus iou) sim_diffs.

(** The body of the loops of [S_GT_P]: rows of the predicted span, columns
    of the ground-truth span. *)
Definition i2i_sim (vid_len : Z) (v2v_sim : list (list Q)) (src tgt : ispan) : tval :=
  block_mean v2v_sim (clamp_src vid_len src) (clamp_tgt vid_len tgt).

Definition S_GT_P (iou : list tval) (spans1 spans2 : list span) (v2v_sims : tensor3)
    (idx : list nat) : result (list tval) :=
  let bsz := length (v_mats v2v_sims) in
  let vid_len := Z.of_nat (v_len v2v_sims) in
  '(src_spans, tgt_spans) ← group_pairs bsz spans1 spans2 idx;
  i2i_sims ← video_loop (v_mats v2v_sims) src_spans tgt_spans (i2i_sim vid_len);
  i2i_sims ← stack i2i_sims;
  broadcast tmul (one_minus iou) (one_minus i2i_sims).

(** The body of the loops of [S_Q_P]. *)
Definition src_sim (vid_len : Z) (logit : list Q) (src : ispan) : tval :=
  range_mean logit (clamp_src vid_len src).

Definition S_Q_P (iou : list tval) (spans : list span) (logits : tensor2)
    (idx : list nat) : result (list tval) :=
  let bsz := length (t_rows logits) in
  let vid_len := Z.of_nat (t_cols logits) in
  src_spans ← group_spans bsz spans idx;
  t2i_sims ← video_loop1 (t_rows logits) src_spans (src_sim vid_len);
  t2i_sims ← stack t2i_sims;
  broadcast tmul (one_minus iou) (one_minus t2i_sims).

(** [torch.round(spans * vid_clip_len)] *)
Definition round_spans (vid_clip_len : nat) (spans : list span) : list span :=
  (λ s : span,
     (inject_Z (round_half_even (s.1 * inject_Z (Z.of_nat vid_clip_len))),
      inject_Z (round_half_even (s.2 * inject_Z (Z.of_nat vid_clip_len))))) <$> spans.

(** [sims] is the pair [(logits, vid_feat)]: [sims[0]] is the [(B, L)]
    query-to-clip similarity, [sims[1]] the [(B, L, L)] clip-to-clip one.
    The three ways the code takes the pair apart ([sims[0]],
    [sims, vid_feat = sims], [sims[1]]) read these two components. *)
Definition new_loss (iou_loss_types : loss_types) (spans1 spans2 : list span)
    (sims : tensor2 * tensor3) (idx : list nat) : result (list tval * list tval) :=
  let iou := diag (temporal_iou spans1 spans2).1 in
  let logits := sims.1 in
  let vid_feat := sims.2 in
  let vid_clip_len :=
    if decide (2%Z ∉ iou_loss_types) then t_cols logits else v_len vid_feat in
  let spans1 := round_spans vid_clip_len spans1 in
  let spans2 := round_spans vid_clip_len spans2 in
  _ ← py_assert (spans_valid spans1);
  _ ← py_assert (spans_valid spans2);
  let new_loss := one_minus iou in
  new_loss ←
    (if decide (1%Z ∈ iou_loss_types)
     then S_Diff iou spans1 spans2 logits idx ≫= iadd new_loss
     else Ok new_loss);
  new_loss ←
    (if decide (2%Z ∈ iou_loss_types)
     then S_GT_P iou spans1 spans2 vid_feat idx ≫= iadd new_loss
     else Ok new_loss);
  new_loss ←
    (if decide (3%Z ∈ iou_loss_types)
     then S_Q_P iou spans1 logits idx ≫= iadd new_loss
     else Ok new_loss);
  Ok (new_loss, iou).

(** [x.max(dim=1)[0]] on one row: there is no maximum of no entries. *)
Definition row_max (r : list Q) : result Q :=
  match r with
  | [] => Raise IndexError
  | x :: r' => Ok (foldl Qmax x r')
  end.

(** The size of dimension 1 of [v2v_sim[a:b, :][:, st:end + 1]], which the
    block has even when no row is selected; an [(L, L)] matrix without
    rows has no columns either. *)
Definition block_width (v2v_sim : list (list Q)) (cols : ispan) : nat :=
  match v2v_sim with
  | r :: _ => length (py_slice r cols.1 (cols.2 + 1)%Z)
  | [] => 0%nat
  end.

(** [v2v_sim[st:end + 1, :][:, st':end' + 1].max(dim=1)[0].mean()]:
    [max] refuses a dimension of size 0. *)
Definition block_max_mean (v2v_sim : list (list Q)) (rows cols : ispan) : result tval :=
  let block := (λ r : list Q, py_slice r cols.1 (cols.2 + 1)%Z)
                 <$> py_slice v2v_sim rows.1 (rows.2 + 1)%Z in
  if decide (block_width v2v_sim cols = 0%nat) then Raise IndexError
  else maxima ← for_each block row_max; Ok (mean maxima).

(** The two nested loops of the similarity terms, with a body that can
    fail. *)
Definition video_loop_try {T A} (rows : list T) (src_spans tgt_spans : list (list ispan))
    (body : T → ispan → ispan → result A) : result (list A) :=
  groups ← for_each (enumerate rows) (λ ir,
    src_i ← index src_spans ir.1;
    for_each (enumerate src_i) (λ js,
      tgt_i ← index tgt_spans ir.1;
      t ← index tgt_i js.1;
      body ir.2 js.2 t));
  Ok (concat groups).

(** The body of the loops of [S_GT_P_2]: rows of the predicted span,
    columns of the ground-truth span, the largest similarity of each row. *)
Definition i2i_sim_2 (vid_len : Z) (v2v_sim : list (list Q)) (src tgt : ispan)
    : result tval :=
  block_max_mean v2v_sim (clamp_src vid_len src) (clamp_tgt vid_len tgt).

Definition S_GT_P_2 (iou : list tval) (spans1 spans2 : list span) (v2v_sims : tensor3)
    (idx : list nat) : result (list tval) :=
  let bsz := length (v_mats v2v_sims) in
  let vid_len := Z.of_nat (v_len v2v_sims) in
  '(src_spans, tgt_spans) ← group_pairs bsz spans1 spans2 idx;
  i2i_sims ← video_loop_try (v_mats v2v_sims) src_spans tgt_spans (i2i_sim_2 vid_len);
  i2i_sims ← stack i2i_sims;
  broadcast tmul (one_minus iou) (one_minus i2i_sims).

(** The body of the loops of [S_GT_P_3]: rows of the ground-truth span,
    columns of the predicted span. *)
Definition i2i_sim_3 (vid_len : Z) (v2v_sim : list (list Q)) (src tgt : ispan)
    : result tval :=
  block_max_mean v2v_sim (clamp_tgt vid_len tgt) (clamp_src vid_len src).

Definition S_GT_P_3 (iou : list tval) (spans1 spans2 : list span) (v2v_sims : tensor3)
    (idx : list nat) : result (list tval) :=
  let bsz := length (v_mats v2v_sims) in
  let vid_len := Z.of_nat (v_len v2v_sims) in
  '(src_spans, tgt_spans) ← group_pairs bsz spans1 spans2 idx;
  i2i_sims ← video_loop_try (v_mats v2v_sims) src_spans tgt_spans (i2i_sim_3 vid_len);
  i2i_sims ← stack i2i_sims;
  broadcast tmul (one_minus iou) (one_minus i2i_sims).

End Loss1.

(** ** Second snapshot: a clip length per video, from its duration *)

Module Loss2.

(** [torch.clamp(torch.round(span * l_clip), min=0, max=l_clip - 1).int().tolist()] *)
Definition to_clip_index (l_clip : Z) (x : Q) : Z :=
  Qtrunc (clamp 0 (inject_Z (l_clip - 1))
            (inject_Z (round_half_even (x * inject_Z l_clip)))).

Definition to_clip_span (l_clip : Z) (s : span) : ispan :=
  (to_clip_index l_clip s.1, to_clip_index l_clip s.2).

(** The body of the loops of [S_Diff], on spans that are lists of two
    integers already. *)
Definition sim_diff (vid_len : Z) (logit : list Q) (src tgt : ispan) : tval :=
  let src_sim := range_mean logit (clamp_src vid_len src) in
  let tgt_sim := range_mean logit (clamp_tgt vid_len tgt) in
  tabs (tsub src_sim tgt_sim).

Definition S_Diff (iou : list tval) (src_spans tgt_spans : list (list ispan))
    (logits : tensor2) : result (list tval) :=
  let vid_len := Z.of_nat (t_cols logits) in
  sim_diffs ← video_loop (t_rows logits) src_spans tgt_spans (sim_diff vid_len);
  sim_diffs ← stack sim_diffs;
  broadcast tmul (one_minus iou) sim_diffs.

(** The body of the loops of [S_GT_P]: the spans are used as they come,
    the two lines that bound them are commented out in this snapshot. *)
Definition i2i_sim (v2v_sim : list (list Q)) (src tgt : ispan) : tval :=
  block_mean v2v_sim src tgt.

Definition S_GT_P (iou : list tval) (src_spans tgt_spans : list (list ispan))
    (v2v_sims : tensor3) : result (list tval) :=
  i2i_sims ← video_loop (v_mats v2v_sims) src_spans tgt_spans i2i_sim;
  i2i_sims ← stack i2i_sims;
  broadcast tmul (one_minus iou) (one_minus i2i_sims).

Definition src_sim (vid_len : Z) (logit : list Q) (src : ispan) : tval :=
  range_mean logit (clamp_src vid_len src).

Definition S_Q_P (iou : list tval) (src_spans : list (list ispan))
    (logits : tensor2) : result (list tval) :=
  let vid_len := Z.of_nat (t_cols logits) in
  t2i_sims ← video_loop1 (t_rows logits) src_spans (src_sim vid_len);
  t2i_sims ← stack t2i_sims;
  broadcast tmul (one_minus iou) (one_minus t2i_sims).

(** The dictionary returned beside the loss. *)
Record diagnostics : Type := Diagnostics {
  src_spans : list (list ispan);
  tgt_spans : list (list ispan);
  ious : list (list tval);
  sim_losses : list (list tval)
}.

(** The loop that maps the spans of each row to clip indices of its video:
    [l_clip = durations[i] // 2] and the two [append]s. *)
Definition map_spans (bsz : nat) (spans1 spans2 : list span) (idx : list nat)
    (durations : list Z) : result (list (list ispan) * list (list ispan)) :=
  for_enumerate (λ b i st,
      d ← index durations i;
      let l_clip := (d `div` 2)%Z in
      s ← index spans1 b;
      src ← append_at i (to_clip_span l_clip s) st.1;
      t ← index spans2 b;
      tgt ← append_at i (to_clip_span l_clip t) st.2;
      Ok (src, tgt))
    0%nat idx (replicate bsz [], replicate bsz []).

(** The loop under [### save_pred]. *)
Definition save_pred (bsz : nat) (iou new_loss : list tval) (idx : list nat)
    : result (list (list tval) * list (list tval)) :=
  for_enumerate (λ b i st,
      x ← index iou b;
      ious ← append_at i x st.1;
      y ← index new_loss b;
      sim_losses ← append_at i y st.2;
      Ok (ious, sim_losses))
    0%nat idx (replicate bsz [], replicate bsz []).

Definition new_loss (iou_loss_types : loss_types) (spans1 spans2 : list span)
    (sims : tensor2 * tensor3) (idx : list nat) (durations : list Z)
    : result (list tval * diagnostics) :=
  let iou := diag (temporal_iou spans1 spans2).1 in
  let logits := sims.1 in
  let vid_feat := sims.2 in
  let bsz :=
    if decide (2%Z ∉ iou_loss_types)
    then length (t_rows logits) else length (v_mats vid_feat) in
  _ ← py_assert (spans_valid spans1);
  _ ← py_assert (spans_valid spans2);
  '(src_spans, tgt_spans) ← map_spans bsz spans1 spans2 idx durations;
  let new_loss := one_minus iou in
  new_loss ←
    (if decide (1%Z ∈ iou_loss_types)
     then S_Diff iou src_spans tgt_spans logits ≫= iadd new_loss
     else Ok new_loss);
  new_loss ←
    (if decide (2%Z ∈ iou_loss_types)
     then S_GT_P iou src_spans tgt_spans vid_feat ≫= iadd new_loss
     else Ok new_loss);
  new_loss ←
    (if decide (3%Z ∈ iou_loss_types)
     then S_Q_P iou src_spans logits ≫= iadd new_loss
     else Ok new_loss);
  '(ious, sim_losses) ← save_pred bsz iou new_loss idx;
  Ok (new_loss, Diagnostics src_spans tgt_spans ious sim_losses).

End Loss2.

(** ** The scalar formulas behind one entry of the IoU matrices *)

(** Intersection, union and IoU of one pair of spans, as [temporal_iou]
    computes them at the entry of that pair. *)
Definition pair_inter (a b : span) : Q :=
  clamp_min 0 (Qmin a.2 b.2 - Qmax a.1 b.1).
Definition pair_union (a b : span) : Q :=
  (a.2 - a.1) + (b.2 - b.1) - pair_inter a b.
Definition pair_iou (a b : span) : tval :=
  qdiv (pair_inter a b) (pair_union a b).

(** The enclosing area and the GIoU of one pair, as
    [generalized_temporal_iou] computes them. *)
Definition pair_enclosing (a b : span) : Q :=
  clamp_min 0 (Qmax a.2 b.2 - Qmin a.1 b.1).
Definition pair_giou (a b : span) : tval :=
  tsub (pair_iou a b)
       (qdiv (pair_enclosing a b - pair_union a b) (pair_enclosing a b)).

(** A span with [end >= start]. *)
Definition valid_span (s : span) : Prop := s.1 <= s.2.

(** ** Vocabulary of the properties *)

(** Two spans with equal starts and equal ends, as rationals. *)
Definition span_eq (a b : span) : Prop := a.1 == b.1 ∧ a.2 == b.2.

(** Two spans whose starts and whose ends differ by [tol] at most. *)
Definition span_close (tol : Q) (a b : span) : Prop :=
  Qabs (a.1 - b.1) <= tol ∧ Qabs (a.2 - b.2) <= tol.

(** A rounding whose relative error is at most [u], as the rounding of
    IEEE arithmetic is away from overflow and underflow (with
    [u = 2^-24] for 32-bit floats). *)
Definition rounding (u : Q) (rnd : Q → Q) : Prop :=
  0 <= u ∧ u <= 1 ∧ ∀ x, Qabs (rnd x - x) <= u * Qabs x.

(** Two entries that are the same special value or equal numbers. *)
Definition tval_eq (x y : tval) : Prop :=
  match x, y with
  | Fin a, Fin b => a == b
  | PInf, PInf | NInf, NInf | NaN, NaN => True
  | _, _ => False
  end.

(** The center of a span. *)
Definition center (s : span) : Q := (s.1 + s.2) / 2.

(** Two spans that are both of length zero, at one and the same point. *)
Definition degenerate_at_same_point (a b : span) : Prop :=
  a.1 == a.2 ∧ b.1 == b.2 ∧ a.1 == b.1.

(** Entries of a matrix within [tol] of reference values, shape included. *)
Definition approx (tol : Q) (x : tval) (r : Q) : bool :=
  match x with
  | Fin q => Qle_bool (Qabs (q - r)) tol
  | _ => false
  end.
Fixpoint all2 {A B} (p : A → B → bool) (l : list A) (k : list B) : bool :=
  match l, k with
  | [], [] => true
  | x :: l', y :: k' => p x y && all2 p l' k'
  | _, _ => false
  end.
Definition mat_approx (tol : Q) (m : list (list tval)) (ref : list (list Q)) : bool :=
  all2 (all2 (approx tol)) m ref.

(** [1 - iou] of each pair: the loss when no similarity term is enabled. *)
Definition paired_loss (spans1 spans2 : list span) : list tval :=
  zip_with (λ p g, tsub (Fin 1) (pair_iou p g)) spans1 spans2.

(** The rows of [idx] name videos of the batch, whose durations are known,
    and there are no more of them than rows of spans. *)
Definition idx_wf (bsz rows : nat) (durations : list Z) (idx : list nat) : Prop :=
  (length idx ≤ rows)%nat ∧
  Forall (λ i, (i < bsz)%nat ∧ (i < length durations)%nat) idx.

(** A span of clip indices within the bounds of a video of [l_clip] clips. *)
Definition clip_bounded (l_clip : Z) (s : ispan) : Prop :=
  (s.1 ≤ l_clip - 1 ∧ s.2 ≤ l_clip - 1 ∧ (1 ≤ l_clip → 0 ≤ s.1 ∧ 0 ≤ s.2))%Z.

(** Every span grouped under video [i] is bounded by the clip length of
    that video. *)
Definition groups_bounded (durations : list Z) (groups : list (list ispan)) : Prop :=
  ∀ i g s, groups !! i = Some g → s ∈ g →
    ∃ d, durations !! i = Some d ∧ clip_bounded (d `div` 2) s.

(** Two lists of groups with groups of the same sizes. *)
Definition same_shape {A B} (l : list (list A)) (k : list (list B)) : Prop :=
  Forall2 (λ a b, length a = length b) l k.

(** The place, in the order of the loops, of pair [j] of video [i]. *)
Definition loop_pos {A} (groups : list (list A)) (i j : nat) : nat :=
  (length (concat (take i groups)) + j)%nat.

(** An index mapping that never decreases along the batch, as when each
    row belongs to the video of its own number. *)
Definition nondecreasing (idx : list nat) : Prop :=
  ∀ k1 k2 i1 i2, (k1 ≤ k2)%nat → idx !! k1 = Some i1 → idx !! k2 = Some i2 → (i1 ≤ i2)%nat.

(** A span of clip indices that lies within a video of [vid_len] clips. *)
Definition in_bounds (vid_len : Z) (s : ispan) : Prop :=
  (0 ≤ s.1 ∧ s.1 ≤ s.2 ∧ s.2 ≤ vid_len - 1)%Z.

(** The similarity payload of a batch of one video of 75 clips. *)
Definition one_video : tensor2 * tensor3 :=
  (Tensor2 75 [replicate 75 (1 # 2)], Tensor3 75 []).

(** Query-to-clip similarities of two videos of four clips. *)
Definition two_videos : tensor2 :=
  Tensor2 4 [[1 # 10; 2 # 10; 3 # 10; 4 # 10]; [5 # 10; 5 # 10; 1; 0]].

(** A similarity between 0 and 1. *)
Definition unit_interval (q : Q) : Prop := 0 <= q ∧ q <= 1.

(** An entry that is a number between 0 and 1. *)
Definition tunit (x : tval) : Prop := ∃ q, x = Fin q ∧ unit_interval q.

(** A [(B, L)] tensor of similarities between 0 and 1: every row has the
    [L] columns of its shape. *)
Definition logits_wf (logits : tensor2) : Prop :=
  Forall (λ row, length row = t_cols logits ∧ Forall unit_interval row)
         (t_rows logits).

(** A [(B, L, L)] tensor of similarities between 0 and 1. *)
Definition vid_feat_wf (v2v_sims : tensor3) : Prop :=
  Forall (λ m : list (list Q),
            length m = v_len v2v_sims ∧
            Forall (λ row, length row = v_len v2v_sims ∧ Forall unit_interval row) m)
         (v_mats v2v_sims).

(** The loss [x] of a pair of IoU [v] after [n - 1] similarity terms at
    most: both are numbers, and [x] lies between [1 - iou] and
    [n (1 - iou)]. *)
Definition loss_within (n : Q) (v x : tval) : Prop :=
  ∃ i q, v = Fin i ∧ x = Fin q ∧ i <= 1 ∧ 1 - i <= q ∧ q <= n * (1 - i).

(** A similarity term [y] of a pair of IoU [v]: a number between 0 and
    [1 - iou]. *)
Definition term_within (v y : tval) : Prop :=
  ∃ i z, v = Fin i ∧ y = Fin z ∧ 0 <= z ∧ z <= 1 - i.

(** A predicted span and its ground truth, both with [end >= start] and
    not both of length zero. *)
Definition proper_pair (a b : span) : Prop :=
  valid_span a ∧ valid_span b ∧ (a.1 < a.2 ∨ b.1 < b.2).

(** The rows of [idx] name videos of the batch whose duration gives at
    least one clip and no more than [L]. *)
Definition durations_wf (bsz L : nat) (durations : list Z) (idx : list nat) : Prop :=
  Forall (λ i, (i < bsz)%nat ∧
               ∃ d, durations !! i = Some d ∧ (1 ≤ d `div` 2 ≤ Z.of_nat L)%Z) idx.

(** Groups of predicted and of ground-truth index spans, one group per
    video: [bsz] groups of the same sizes, [k] pairs in all, every span
    satisfying [P]. *)
Definition groups_wf (bsz k : nat) (P : ispan → Prop)
    (st : list (list ispan) * list (list ispan)) : Prop :=
  length st.1 = bsz ∧ same_shape st.1 st.2 ∧ length (concat st.1) = k ∧
  Forall (Forall P) st.1 ∧ Forall (Forall P) st.2.

(** A span of clip indices that starts at 0 or later and ends no earlier
    than it starts. *)
Definition ordered_from_zero (s : ispan) : Prop := (0 ≤ s.1 ∧ s.1 ≤ s.2)%Z.

(** A computation that, when it fails, fails with an exception of the
    class [E]. *)
Definition raises {A} (E : error → Prop) (m : result A) : Prop :=
  ∀ e, m = Raise e → E e.

(** Any exception but the one of a failed [assert]. *)
Definition not_assertion (e : error) : Prop := e ≠ AssertionError.

(** One of the three similarity terms is enabled. *)
Definition some_term (types : loss_types) : Prop :=
  1%Z ∈ types ∨ 2%Z ∈ types ∨ 3%Z ∈ types.

(** The rows of the batch that belong to video [i], in the order of the
    batch. *)
Definition rows_of (i : nat) (idx : list nat) : list nat :=
  (filter (λ p : nat * nat, p.2 = i) (enumerate idx)).*1.

(** The rows of the batch in the order in which the two nested loops
    [for i in range(bsz): for j in range(len(src_spans[i]))] meet them. *)
Definition loop_order (bsz : nat) (idx : list nat) : list nat :=
  concat ((λ i, rows_of i idx) <$> seq 0 bsz).

(** Groups that hold, for each video [i] and in the order of the batch,
    one value per row of that video, related to the row by [R i]. *)
Definition grouped {A} (R : nat → nat → A → Prop) (idx : list nat)
    (groups : list (list A)) : Prop :=
  ∀ i g, groups !! i = Some g → Forall2 (R i) (rows_of i idx) g.

(** Two entries that are numbers, the first no greater than the second. *)
Definition fin_le (x y : tval) : Prop := ∃ a b, x = Fin a ∧ y = Fin b ∧ a <= b.

(** * Properties *)

(** ** Entries of broadcast and elementwise matrices *)

Section Entries.
Context {A B C : Type}.

Lemma entry_outer (f : A → B → C) xs ys n k :
  entry (outer f xs ys) n k = x ← xs !! n; y ← ys !! k; Some (f x y).
Proof.
  unfold entry, outer. rewrite list_lookup_fmap.
  destruct (xs !! n) as [x|]; [|done]. simpl.
  rewrite list_lookup_fmap. by destruct (ys !! k).
Qed.

Lemma entry_mat_zip (f : A → B → C) m1 m2 n k :
  entry (mat_zip f m1 m2) n k = x ← entry m1 n k; y ← entry m2 n k; Some (f x y).
Proof.
  unfold entry, mat_zip. rewrite lookup_zip_with.
  destruct (m1 !! n) as [r1|]; [|done].
  destruct (m2 !! n) as [r2|]; simpl.
  - by rewrite lookup_zip_with.
  - by destruct (r1 !! k).
Qed.

Lemma entry_mat_map (f : A → B) m n k :
  entry (mat_map f m) n k = f <$> entry m n k.
Proof.
  unfold entry, mat_map. rewrite list_lookup_fmap.
  destruct (m !! n) as [r|]; [|done]. simpl.
  by rewrite list_lookup_fmap.
Qed.

End Entries.

Lemma temporal_inter_entry spans1 spans2 n m :
  entry (temporal_inter spans1 spans2) n m =
  a ← spans1 !! n; b ← spans2 !! m; Some (pair_inter a b).
Proof.
  unfold temporal_inter, pair_inter.
  rewrite entry_mat_map, entry_mat_zip, !entry_outer, !list_lookup_fmap.
  destruct (spans1 !! n) as [a|]; [|done].
  by destruct (spans2 !! m) as [b|].
Qed.

Lemma temporal_union_entry spans1 spans2 n m :
  entry (temporal_iou spans1 spans2).2 n m =
  a ← spans1 !! n; b ← spans2 !! m; Some (pair_union a b).
Proof.
  unfold temporal_iou, pair_union. simpl.
  rewrite entry_mat_zip, temporal_inter_entry, entry_outer, !list_lookup_fmap.
  destruct (spans1 !! n) as [a|]; [|done].
  by destruct (spans2 !! m) as [b|].
Qed.

Lemma temporal_iou_entry spans1 spans2 n m :
  entry (temporal_iou spans1 spans2).1 n m =
  a ← spans1 !! n; b ← spans2 !! m; Some (pair_iou a b).
Proof.
  pose proof (temporal_union_entry spans1 spans2 n m) as Hu.
  unfold temporal_iou in *. simpl in *.
  rewrite entry_mat_zip, Hu, temporal_inter_entry.
  destruct (spans1 !! n) as [a|]; [|done].
  by destruct (spans2 !! m) as [b|].
Qed.

(** ** Arithmetic of one pair of spans *)

(** Replaces every [Qmax] and [Qmin] of the goal by a fresh variable with
    its defining cases, then decides the linear problem in each case. *)
Ltac abstract_minmax :=
  repeat match goal with
    | |- context [Qmax ?a ?b] =>
        generalize (Q.max_spec a b); generalize (Qmax a b); intro
    | |- context [Qmin ?a ?b] =>
        generalize (Q.min_spec a b); generalize (Qmin a b); intro
    end.
Ltac split_cases :=
  repeat match goal with
    | H : _ ∨ _ |- _ => destruct H
    | H : _ ∧ _ |- _ => destruct H
    end.
Ltac minmax_lra :=
  unfold pair_enclosing, pair_union, pair_inter, clamp_min, clamp, valid_span in *;
  repeat match goal with H : context [Qmax _ _] |- _ => revert H
                    | H : context [Qmin _ _] |- _ => revert H end;
  abstract_minmax; intros; split_cases; lra.

Lemma pair_inter_nonneg a b : 0 <= pair_inter a b.
Proof. minmax_lra. Qed.

Lemma pair_inter_le_union a b :
  valid_span a → valid_span b → pair_inter a b <= pair_union a b.
Proof. intros. minmax_lra. Qed.

Lemma pair_union_pos a b :
  valid_span a → valid_span b → a.1 < a.2 ∨ b.1 < b.2 → 0 < pair_union a b.
Proof. intros ? ? [?|?]; minmax_lra. Qed.

Lemma pair_union_degenerate a b :
  a.1 == a.2 → b.1 == b.2 → pair_inter a b == 0 ∧ pair_union a b == 0.
Proof. intros. split; minmax_lra. Qed.

Lemma pair_union_le_enclosing a b :
  valid_span a → valid_span b → pair_union a b <= pair_enclosing a b.
Proof. intros. minmax_lra. Qed.

Lemma pair_same a b :
  a.1 == b.1 → a.2 == b.2 → a.1 < a.2 →
  pair_inter a b == pair_union a b ∧ 0 < pair_union a b.
Proof. intros. split; minmax_lra. Qed.

(** ** Division of finite entries *)

Lemma qdiv_nonzero a b : ¬ b == 0 → qdiv a b = Fin (a / b).
Proof.
  intros Hb. unfold qdiv, tdiv.
  destruct (Qeq_bool b 0) eqn:E; [|done].
  by apply Qeq_bool_iff in E.
Qed.

Lemma qdiv_zero_zero a b : a == 0 → b == 0 → qdiv a b = NaN.
Proof.
  intros Ha Hb. unfold qdiv, tdiv.
  apply Qeq_bool_iff in Hb. rewrite Hb.
  apply Qeq_alt in Ha. by rewrite Ha.
Qed.

Lemma Qdiv_unit_interval a b : 0 <= a → a <= b → 0 < b → 0 <= a / b ∧ a / b <= 1.
Proof.
  intros Ha Hab Hb. split.
  - apply Qle_shift_div_l; [done|]. lra.
  - apply Qle_shift_div_r; [done|]. lra.
Qed.

Lemma Qdiv_same a b : a == b → ¬ b == 0 → a / b == 1.
Proof. intros -> Hb. by field. Qed.

(** ** Validity of a batch, as a proposition *)

Lemma spans_valid_Forall spans : spans_valid spans = true ↔ Forall valid_span spans.
Proof.
  unfold spans_valid. rewrite forallb_forall, Forall_forall.
  split; intros H s Hs.
  - apply Qle_bool_iff, H. by apply list_elem_of_In.
  - apply Qle_bool_iff, H. by apply list_elem_of_In.
Qed.

Lemma spans_invalid_Exists spans :
  spans_valid spans = false ↔ Exists (λ s : span, s.2 < s.1) spans.
Proof.
  unfold spans_valid. induction spans as [|s spans IH]; simpl.
  - split; [done|]. by intros ?%Exists_nil.
  - rewrite Exists_cons, andb_false_iff, IH.
    assert (Qle_bool s.1 s.2 = false ↔ s.2 < s.1) as ->; [|done].
    rewrite <- not_true_iff_false, Qle_bool_iff. split; intros; lra.
Qed.

(** ** Temporal IoU *)

(** Every pair of rows has an entry in the three matrices. *)
Lemma temporal_iou_defined spans1 spans2 n m :
  (n < length spans1)%nat → (m < length spans2)%nat →
  is_Some (entry (temporal_inter spans1 spans2) n m) ∧
  is_Some (entry (temporal_iou spans1 spans2).2 n m) ∧
  is_Some (entry (temporal_iou spans1 spans2).1 n m).
Proof.
  intros [a Ha]%lookup_lt_is_Some [b Hb]%lookup_lt_is_Some.
  rewrite temporal_inter_entry, temporal_union_entry, temporal_iou_entry, Ha, Hb.
  simpl. eauto.
Qed.

(** C10: on batches whose rows all have [end >= start], every entry of the
    intersection is non-negative, and wherever the union is strictly
    positive the IoU returned by [temporal_iou] is a number of [[0, 1]];
    every pair of rows has such entries. *)
Theorem temporal_iou_bounds (spans1 spans2 : list span) (n m : nat) :
  Forall valid_span spans1 → Forall valid_span spans2 →
  (∀ x, entry (temporal_inter spans1 spans2) n m = Some x → 0 <= x) ∧
  (∀ u i, entry (temporal_iou spans1 spans2).2 n m = Some u →
          entry (temporal_iou spans1 spans2).1 n m = Some i →
          0 < u → ∃ q, i = Fin q ∧ 0 <= q ∧ q <= 1) ∧
  ((n < length spans1)%nat → (m < length spans2)%nat →
   is_Some (entry (temporal_iou spans1 spans2).1 n m)).
Proof.
  intros Hv1 Hv2.
  rewrite temporal_inter_entry, temporal_union_entry, temporal_iou_entry.
  split_and!.
  - destruct (spans1 !! n) as [a|]; [|done].
    destruct (spans2 !! m) as [b|]; [|done]. simpl.
    intros x [= <-]. apply pair_inter_nonneg.
  - destruct (spans1 !! n) as [a|] eqn:Ha; [|done].
    destruct (spans2 !! m) as [b|] eqn:Hb; [|done]. simpl.
    intros u i [= <-] [= <-] Hu.
    pose proof (Forall_lookup_1 _ _ _ _ Hv1 Ha) as Va.
    pose proof (Forall_lookup_1 _ _ _ _ Hv2 Hb) as Vb.
    exists (pair_inter a b / pair_union a b). unfold pair_iou.
    rewrite qdiv_nonzero by lra.
    split; [done|].
    apply Qdiv_unit_interval;
      auto using pair_inter_nonneg, pair_inter_le_union.
  - intros Hn Hm.
    pose proof (temporal_iou_defined spans1 spans2 n m Hn Hm) as (_ & _ & H).
    by rewrite temporal_iou_entry in H.
Qed.

Lemma temporal_iou_bounds_witness :
  ∃ q, entry (temporal_iou [(0, 1 # 5); (1 # 2, 1)] [(0, 3 # 10); (0, 1)]).1 0 0
       = Some (Fin q) ∧ 0 <= q ∧ q <= 1.
Proof.
  destruct (temporal_iou_bounds [(0, 1 # 5); (1 # 2, 1)] [(0, 3 # 10); (0, 1)] 0 0)
    as (_ & H & _).
  - repeat constructor; unfold valid_span; simpl; lra.
  - repeat constructor; unfold valid_span; simpl; lra.
  - destruct (H (75 # 250) (Fin (250 # 375))) as (q & Hq & Hb);
      [reflexivity | reflexivity | reflexivity |].
    exists q. by rewrite <- Hq.
Defined.

(** C7, as amended: for two identical spans of positive length
    ([end > start]), the IoU returned by [temporal_iou] at their pair is 1;
    for two identical spans of length zero it is [nan]. *)
Theorem temporal_iou_identical (spans1 spans2 : list span) (n m : nat) (a b : span) :
  spans1 !! n = Some a → spans2 !! m = Some b →
  a.1 == b.1 → a.2 == b.2 →
  (a.1 < a.2 →
   ∃ q, entry (temporal_iou spans1 spans2).1 n m = Some (Fin q) ∧ q == 1) ∧
  (a.1 == a.2 → entry (temporal_iou spans1 spans2).1 n m = Some NaN).
Proof.
  intros Ha Hb H1 H2.
  rewrite temporal_iou_entry, Ha, Hb. simpl. unfold pair_iou. split.
  - intros Hlt.
    destruct (pair_same a b H1 H2 Hlt) as [Heq Hpos].
    exists (pair_inter a b / pair_union a b).
    rewrite qdiv_nonzero by lra. split; [done|].
    apply Qdiv_same; [done | lra].
  - intros Hz.
    destruct (pair_union_degenerate a b) as [Hi Hu]; [done|lra|].
    by rewrite qdiv_zero_zero.
Qed.

Lemma temporal_iou_identical_witness :
  ∃ q, entry (temporal_iou [(0, 1 # 5); (1 # 2, 1)] [(0, 3 # 10); (1 # 2, 1)]).1 1 1
       = Some (Fin q) ∧ q == 1.
Proof.
  apply (temporal_iou_identical _ _ 1 1 (1 # 2, 1) (1 # 2, 1));
    simpl; first [reflexivity | lra].
Defined.

(** C7, as stated, fails on a span of length zero: the union is 0 and the
    entry of the pair is [0 / 0 = nan], not 1. *)
Lemma temporal_iou_identical_degenerate :
  Forall valid_span [(1 # 2, 1 # 2)] ∧
  entry (temporal_iou [(1 # 2, 1 # 2)] [(1 # 2, 1 # 2)]).1 0 0 = Some NaN ∧
  ¬ ∃ q, entry (temporal_iou [(1 # 2, 1 # 2)] [(1 # 2, 1 # 2)]).1 0 0
         = Some (Fin q) ∧ q == 1.
Proof.
  split_and!.
  - repeat constructor. unfold valid_span. simpl. lra.
  - reflexivity.
  - by intros (q & [=] & _).
Qed.

(** C8: on the documented example [temporal_iou] returns the IoU matrix
    [[2/3, 1/5], [0, 1/2]] and the union matrix [[3/10, 1], [4/5, 1]],
    which are the printed [[0.667, 0.2], [0.0, 0.5]] and
    [[0.3, 1.0], [0.8, 1.0]] within half a unit of the last digit. *)
Theorem temporal_iou_documented_example :
  let spans1 := [(0, 2 # 10); (5 # 10, 1)] in
  let spans2 := [(0, 3 # 10); (0, 1)] in
  let iou := (temporal_iou spans1 spans2).1 in
  let union := (temporal_iou spans1 spans2).2 in
  mat_approx 0 iou [[2 # 3; 1 # 5]; [0; 1 # 2]] = true ∧
  mat_approx 0 (mat_map Fin union) [[3 # 10; 1]; [4 # 5; 1]] = true ∧
  mat_approx (5 # 10000) iou [[667 # 1000; 2 # 10]; [0; 5 # 10]] = true ∧
  mat_approx (5 # 10000) (mat_map Fin union) [[3 # 10; 1]; [8 # 10; 1]] = true.
Proof. vm_compute. done. Qed.

(** ** Generalized temporal IoU *)

Lemma generalized_temporal_iou_valid spans1 spans2 :
  Forall valid_span spans1 → Forall valid_span spans2 →
  ∃ giou, generalized_temporal_iou spans1 spans2 = Ok giou ∧
    ∀ n m, entry giou n m = a ← spans1 !! n; b ← spans2 !! m; Some (pair_giou a b).
Proof.
  intros Hv1%spans_valid_Forall Hv2%spans_valid_Forall.
  unfold generalized_temporal_iou. rewrite Hv1, Hv2. simpl.
  eexists. split; [reflexivity|]. intros n m.
  pose proof (temporal_union_entry spans1 spans2 n m) as Hu.
  pose proof (temporal_iou_entry spans1 spans2 n m) as Hi.
  unfold temporal_iou in Hu, Hi. simpl in Hu, Hi.
  rewrite entry_mat_zip, Hi, entry_mat_zip, entry_mat_zip, Hu.
  rewrite entry_mat_map, entry_mat_zip, !entry_outer, !list_lookup_fmap.
  destruct (spans1 !! n) as [a|]; [|done].
  by destruct (spans2 !! m) as [b|].
Qed.

Lemma generalized_temporal_iou_invalid spans1 spans2 :
  spans_valid spans1 = false ∨ spans_valid spans2 = false →
  generalized_temporal_iou spans1 spans2 = Raise AssertionError.
Proof.
  unfold generalized_temporal_iou.
  destruct (spans_valid spans1); [|done].
  by intros [?| ->].
Qed.

(** The two outcomes of [generalized_temporal_iou]. *)
Lemma generalized_temporal_iou_outcome spans1 spans2 :
  (Forall valid_span (spans1 ++ spans2) ∧
   ∃ giou, generalized_temporal_iou spans1 spans2 = Ok giou) ∨
  (Exists (λ s : span, s.2 < s.1) (spans1 ++ spans2) ∧
   generalized_temporal_iou spans1 spans2 = Raise AssertionError).
Proof.
  rewrite Exists_app, Forall_app, <- !spans_invalid_Exists, <- !spans_valid_Forall.
  destruct (spans_valid spans1) eqn:E1, (spans_valid spans2) eqn:E2;
    [left | right; split; [auto | apply generalized_temporal_iou_invalid; auto]..].
  apply spans_valid_Forall in E1, E2.
  destruct (generalized_temporal_iou_valid _ _ E1 E2) as (g & -> & _). eauto.
Qed.

(** A row with [end < start] and all rows with [end >= start] exclude each
    other. *)
Lemma invalid_not_valid (spans : list span) :
  Exists (λ s : span, s.2 < s.1) spans → Forall valid_span spans → False.
Proof.
  intros (s & Hs & Hlt)%Exists_exists Hall.
  rewrite Forall_forall in Hall. specialize (Hall s Hs).
  unfold valid_span in Hall. lra.
Qed.

(** C2: [generalized_temporal_iou] fails, with the failure of an [assert],
    if and only if some row of one of the two inputs has [end < start]; it
    fails in no other way, and returns when every row has [end >= start]. *)
Theorem generalized_temporal_iou_fails_iff (spans1 spans2 : list span) :
  (generalized_temporal_iou spans1 spans2 = Raise AssertionError
   ↔ Exists (λ s : span, s.2 < s.1) (spans1 ++ spans2)) ∧
  (∀ e, generalized_temporal_iou spans1 spans2 = Raise e → e = AssertionError) ∧
  (Forall valid_span (spans1 ++ spans2)
   ↔ ∃ giou, generalized_temporal_iou spans1 spans2 = Ok giou).
Proof.
  destruct (generalized_temporal_iou_outcome spans1 spans2)
    as [[Hv [g Hg]]|[Hx Hr]].
  - rewrite Hg. split_and!; [split|done|split]; try done; eauto.
    intros Hx. destruct (invalid_not_valid _ Hx Hv).
  - rewrite Hr. split_and!; [split|congruence|split]; try done.
    + intros Hv. destruct (invalid_not_valid _ Hx Hv).
    + by intros [g ?].
Qed.

(** The documented example of [generalized_temporal_iou]:
    [[0.6667, 0.2], [-0.2, 0.5]]. *)
Lemma generalized_temporal_iou_documented_example :
  ∃ giou,
    generalized_temporal_iou [(0, 2 # 10); (5 # 10, 1)] [(0, 3 # 10); (0, 1)] = Ok giou ∧
    mat_approx 0 giou [[2 # 3; 1 # 5]; [-1 # 5; 1 # 2]] = true.
Proof. eexists. split; [reflexivity|]. by vm_compute. Qed.

(** For spans with [end >= start] the union is zero exactly when both
    spans have length zero, wherever they lie. *)
Lemma pair_union_zero_iff a b :
  valid_span a → valid_span b →
  (pair_union a b == 0 ↔ a.1 == a.2 ∧ b.1 == b.2).
Proof.
  intros Va Vb. split.
  - intros H. split; minmax_lra.
  - intros [? ?]. by apply pair_union_degenerate.
Qed.




(** ** Span converters *)

Lemma span_round_trip_row (s : span) :
  span_eq (span_cxw_to_xx_row (span_xx_to_cxw_row s)) s.
Proof.
  unfold span_eq, span_cxw_to_xx_row, span_xx_to_cxw_row. simpl.
  split; ring.
Qed.

Section Rounded.
Variables (rnd : Q → Q) (u : Q).
Hypothesis rnd_ok : rounding u rnd.

Lemma rnd_within x k :
  - k <= x → x <= k → - (u * k) <= rnd x - x ∧ rnd x - x <= u * k.
Proof.
  destruct rnd_ok as (Hu0 & _ & Herr).
  intros Hx1 Hx2. apply Qabs_Qle_condition.
  eapply Qle_trans; [apply Herr|].
  rewrite (Qmult_comm u (Qabs x)), (Qmult_comm u k).
  apply Qmult_le_compat_r; [|done].
  by apply Qabs_Qle_condition.
Qed.

Lemma Qabs_cases x : 0 <= Qabs x ∧ x <= Qabs x ∧ - x <= Qabs x.
Proof.
  split; [apply Qabs_nonneg|]. split; [apply Qle_Qabs|].
  rewrite <- Qabs_opp. apply Qle_Qabs.
Qed.

(** Six roundings on the way there and back: each result is within
    [7 u (|st| + |ed|)] of the value it started from. *)
Lemma span_round_trip_rounded (s : span) :
  span_close (7 * (u * (Qabs s.1 + Qabs s.2)))
    (span_cxw_to_xx_rnd rnd (span_xx_to_cxw_rnd rnd s)) s.
Proof.
  destruct s as [a b].
  unfold span_close, span_cxw_to_xx_rnd, span_xx_to_cxw_rnd. cbn [fst snd].
  destruct (Qabs_cases a) as (Ha0 & Ha1 & Ha2).
  destruct (Qabs_cases b) as (Hb0 & Hb1 & Hb2).
  destruct rnd_ok as (Hu0 & Hu1 & _).
  revert Ha0 Ha1 Ha2 Hb0 Hb1 Hb2. generalize (Qabs a) (Qabs b). intros A B; intros.
  set (M := A + B).
  assert (0 <= M ∧ - M <= a + b ∧ a + b <= M ∧ - M <= b - a ∧ b - a <= M ∧
          - M <= a ∧ a <= M ∧ - M <= b ∧ b <= M)
    as (HM & ? & ? & ? & ? & ? & ? & ? & ?) by (unfold M; repeat split; lra).
  clearbody M.
  assert (0 <= u * M) as HuM0 by (by apply Qmult_le_0_compat).
  assert (u * M <= M) as HuM1.
  { rewrite <- (Qmult_1_l M) at 2. by apply Qmult_le_compat_r. }
  destruct (rnd_within (a + b) M) as [E1 E1']; [lra..|].
  set (c0 := rnd (a + b)) in *. clearbody c0.
  destruct (rnd_within (c0 * (1 # 2)) M) as [E2 E2']; [lra..|].
  set (c := rnd (c0 * (1 # 2))) in *. clearbody c.
  destruct (rnd_within (b - a) M) as [E3 E3']; [lra..|].
  set (w := rnd (b - a)) in *. clearbody w.
  destruct (rnd_within ((1 # 2) * w) M) as [E4 E4']; [lra..|].
  set (h := rnd ((1 # 2) * w)) in *. clearbody h.
  destruct (rnd_within (c - h) (4 * M)) as [E5 E5']; [lra..|].
  destruct (rnd_within (c + h) (4 * M)) as [E6 E6']; [lra..|].
  split; apply Qabs_Qle_condition; split; lra.
Qed.

End Rounded.

(** C3: converting a batch of spans with [start <= end] to (center, width)
    and back gives the batch again, row by row: exactly in exact
    arithmetic, and within [7 u (|start| + |end|)] of each value when
    every operation is rounded with a relative error of [u] at most. *)
Theorem span_round_trip (spans : list span) :
  Forall valid_span spans →
  Forall2 span_eq (span_cxw_to_xx (span_xx_to_cxw spans)) spans ∧
  ∀ rnd u, rounding u rnd →
    Forall2 (λ r s, span_close (7 * (u * (Qabs s.1 + Qabs s.2))) r s)
      (span_cxw_to_xx_rnd rnd <$> (span_xx_to_cxw_rnd rnd <$> spans)) spans.
Proof.
  intros _. split.
  - unfold span_cxw_to_xx, span_xx_to_cxw.
    induction spans as [|s spans IH]; simpl; constructor; [|done].
    apply span_round_trip_row.
  - intros rnd u Hr.
    induction spans as [|s spans IH]; simpl; constructor; [|done].
    by apply span_round_trip_rounded.
Qed.

(** A rounding that is not the identity: every value is taken too large
    by the relative error [u] itself. *)
Lemma rounding_scale u : 0 <= u → u <= 1 → rounding u (λ x, x * (1 + u)).
Proof.
  intros Hu0 Hu1. split_and!; [done..|]. intros x.
  assert (x * (1 + u) - x == u * x) as -> by ring.
  rewrite Qabs_Qmult, (Qabs_pos u) by done. apply Qle_refl.
Qed.

Lemma span_round_trip_witness :
  Forall2 span_eq
    (span_cxw_to_xx (span_xx_to_cxw [(0, 1); (2 # 10, 4 # 10)]))
    [(0, 1); (2 # 10, 4 # 10)] ∧
  Forall2 (λ r s, span_close (7 * ((1 # 16777216) * (Qabs s.1 + Qabs s.2))) r s)
    (span_cxw_to_xx_rnd (λ x, x * (1 + (1 # 16777216)))
       <$> (span_xx_to_cxw_rnd (λ x, x * (1 + (1 # 16777216)))
              <$> [(0, 1); (2 # 10, 4 # 10)]))
    [(0, 1); (2 # 10, 4 # 10)].
Proof.
  destruct (span_round_trip [(0, 1); (2 # 10, 4 # 10)]) as [H1 H2].
  - repeat constructor; unfold valid_span; simpl; lra.
  - split; [exact H1|].
    apply (H2 (λ x, x * (1 + (1 # 16777216))) (1 # 16777216)).
    apply rounding_scale; lra.
Defined.

(** The documented examples of the two converters. *)
Lemma span_converters_documented :
  Forall2 span_eq (span_xx_to_cxw [(0, 1); (2 # 10, 4 # 10)])
    [(5 # 10, 1); (3 # 10, 2 # 10)] ∧
  Forall2 span_eq (span_cxw_to_xx [(5 # 10, 1); (3 # 10, 2 # 10)])
    [(0, 1); (2 # 10, 4 # 10)].
Proof. split; repeat constructor; by vm_compute. Qed.

(** ** Rounding *)

Lemma round_half_even_bounds q :
  (Qfloor q ≤ round_half_even q ≤ Qfloor q + 1)%Z.
Proof.
  unfold round_half_even.
  destruct (Qcompare _ _); [destruct (Z.even _)| |]; lia.
Qed.

Lemma round_half_even_mono a b : a <= b → (round_half_even a ≤ round_half_even b)%Z.
Proof.
  intros Hab.
  pose proof (Qfloor_resp_le a b Hab) as Hf.
  pose proof (round_half_even_bounds a) as Ha.
  pose proof (round_half_even_bounds b) as Hb.
  destruct (decide (Qfloor a = Qfloor b)) as [E|NE]; [|lia].
  clear Ha Hb Hf. unfold round_half_even. rewrite <- E.
  destruct (Qcompare_spec (a - inject_Z (Qfloor a)) (1 # 2));
    destruct (Qcompare_spec (b - inject_Z (Qfloor a)) (1 # 2));
    destruct (Z.even (Qfloor a)); first [lia | exfalso; lra].
Qed.

Lemma round_half_even_inject z : round_half_even (inject_Z z) = z.
Proof.
  unfold round_half_even. rewrite Qfloor_Z.
  destruct (Qcompare_spec (inject_Z z - inject_Z z) (1 # 2)); [lra|done|lra].
Qed.

Lemma Qtrunc_inject z : Qtrunc (inject_Z z) = z.
Proof. unfold Qtrunc. simpl. apply Z.quot_1_r. Qed.

Lemma round_spans_valid L spans :
  Forall valid_span spans → spans_valid (Loss1.round_spans L spans) = true.
Proof.
  intros Hv. apply spans_valid_Forall. unfold Loss1.round_spans.
  apply Forall_fmap. eapply Forall_impl; [exact Hv|].
  intros s Hs. unfold valid_span in *. simpl.
  rewrite <- Zle_Qle. apply round_half_even_mono.
  apply Qmult_le_compat_r; [done|].
  replace 0 with (inject_Z 0) by done. rewrite <- Zle_Qle. lia.
Qed.

(** ** The diagonal of the IoU matrix *)

Section Outer.
Context {A B C D E : Type}.

Lemma outer_fmap (f : C → D → E) (g : A → C) (h : B → D) xs ys :
  outer f (g <$> xs) (h <$> ys) = outer (λ x y, f (g x) (h y)) xs ys.
Proof.
  unfold outer. rewrite <- list_fmap_compose. apply list_fmap_ext.
  intros _ x _. simpl. by rewrite <- list_fmap_compose.
Qed.

Lemma mat_zip_outer (f : C → D → E) (g : A → B → C) (h : A → B → D) xs ys :
  mat_zip f (outer g xs ys) (outer h xs ys) = outer (λ x y, f (g x y) (h x y)) xs ys.
Proof.
  unfold mat_zip, outer.
  rewrite zip_with_fmap_l, zip_with_fmap_r, zip_with_diag.
  apply list_fmap_ext. intros _ x _.
  by rewrite zip_with_fmap_l, zip_with_fmap_r, zip_with_diag.
Qed.

Lemma mat_map_outer (f : C → D) (g : A → B → C) xs ys :
  mat_map f (outer g xs ys) = outer (λ x y, f (g x y)) xs ys.
Proof.
  unfold mat_map, outer. rewrite <- list_fmap_compose.
  apply list_fmap_ext. intros _ x _. simpl. by rewrite <- list_fmap_compose.
Qed.

Lemma diag_from_outer (f : A → B → C) xs ys i :
  diag_from i (outer f xs ys) = zip_with f xs (drop i ys).
Proof.
  revert i. induction xs as [|x xs IH]; intros i; [done|]. simpl.
  rewrite list_lookup_fmap.
  destruct (ys !! i) as [y|] eqn:Hy; simpl.
  - rewrite (drop_S _ _ _ Hy). f_equal. apply IH.
  - apply lookup_ge_None in Hy. by rewrite drop_ge.
Qed.

End Outer.

Lemma temporal_inter_outer spans1 spans2 :
  temporal_inter spans1 spans2 = outer pair_inter spans1 spans2.
Proof.
  unfold temporal_inter.
  by rewrite !outer_fmap, mat_zip_outer, mat_map_outer.
Qed.

Lemma temporal_iou_outer spans1 spans2 :
  temporal_iou spans1 spans2 = (outer pair_iou spans1 spans2, outer pair_union spans1 spans2).
Proof.
  unfold temporal_iou. rewrite temporal_inter_outer.
  change Qplus with (λ x y : Q, x + y).
  rewrite (outer_fmap (λ x y : Q, x + y)).
  by rewrite !mat_zip_outer.
Qed.

(** The diagonal of the IoU matrix pairs row [i] of the first batch with
    row [i] of the second. *)
Lemma diag_temporal_iou spans1 spans2 :
  diag (temporal_iou spans1 spans2).1 = zip_with pair_iou spans1 spans2.
Proof.
  rewrite temporal_iou_outer. unfold diag. simpl.
  by rewrite diag_from_outer, drop_0.
Qed.

Lemma fmap_zip_with {A B C D} (g : C → D) (f : A → B → C) l k :
  g <$> zip_with f l k = zip_with (λ x y, g (f x y)) l k.
Proof.
  revert k. induction l as [|x l IH]; intros [|y k]; simpl; [done..|].
  by rewrite IH.
Qed.

Lemma one_minus_diag spans1 spans2 :
  one_minus (diag (temporal_iou spans1 spans2).1) = paired_loss spans1 spans2.
Proof.
  rewrite diag_temporal_iou. unfold one_minus, paired_loss.
  by rewrite fmap_zip_with.
Qed.

(** ** Exceptions and loops *)

Lemma bind_Ok {A B} (m : result A) (f : A → result B) y :
  m ≫= f = Ok y ↔ ∃ x, m = Ok x ∧ f x = Ok y.
Proof.
  destruct m as [x|e]; simpl; split.
  - eauto.
  - by intros (? & [= <-] & ?).
  - done.
  - by intros (? & ? & ?).
Qed.

Lemma index_Ok {A} (l : list A) i x : index l i = Ok x ↔ l !! i = Some x.
Proof. unfold index. destruct (l !! i); split; congruence. Qed.

Lemma index_lt {A} (l : list A) i :
  (i < length l)%nat → ∃ x, l !! i = Some x ∧ index l i = Ok x.
Proof.
  intros [x Hx]%lookup_lt_is_Some. exists x. split; [done|]. by apply index_Ok.
Qed.

Lemma append_at_Ok {A} i (x : A) groups groups' :
  append_at i x groups = Ok groups' ↔
  ∃ g, groups !! i = Some g ∧ groups' = <[i := g ++ [x]]> groups.
Proof.
  unfold append_at. rewrite bind_Ok. setoid_rewrite index_Ok.
  split; intros (g & Hg & H); exists g; split; congruence.
Qed.

Lemma append_at_lt {A} i (x : A) groups :
  (i < length groups)%nat →
  ∃ groups', append_at i x groups = Ok groups' ∧ length groups' = length groups.
Proof.
  intros [g Hg]%lookup_lt_is_Some.
  exists (<[i := g ++ [x]]> groups). split.
  - apply append_at_Ok. eauto.
  - apply length_insert.
Qed.

Section ForEnumerate.
Context {St : Type} (body : nat → nat → St → result St).

(** An invariant of the loop body, indexed by the number of rows done,
    holds of the state the loop returns. *)
Lemma for_enumerate_inv (I : nat → St → Prop) b idx st st' :
  for_enumerate body b idx st = Ok st' →
  I 0%nat st →
  (∀ k i s s', idx !! k = Some i → I k s → body (b + k)%nat i s = Ok s' → I (S k) s') →
  I (length idx) st'.
Proof.
  revert I b st. induction idx as [|i idx IH]; intros I b st; simpl.
  - by intros [= <-].
  - intros (s1 & H1 & Hrest)%bind_Ok H0 Hstep.
    apply (IH (λ k, I (S k)) (S b) s1 Hrest).
    + apply (Hstep 0%nat i st s1); [done..|]. by rewrite Nat.add_0_r.
    + intros k j s s' Hj Hs Hb.
      apply (Hstep (S k) j s s'); [done..|]. by rewrite Nat.add_succ_r.
Qed.

(** The loop returns when its body does on every state the invariant
    allows. *)
Lemma for_enumerate_ok (I : nat → St → Prop) b idx st :
  I 0%nat st →
  (∀ k i s, idx !! k = Some i → I k s → ∃ s', body (b + k)%nat i s = Ok s' ∧ I (S k) s') →
  ∃ st', for_enumerate body b idx st = Ok st' ∧ I (length idx) st'.
Proof.
  revert I b st. induction idx as [|i idx IH]; intros I b st H0 Hstep; simpl.
  - eauto.
  - destruct (Hstep 0%nat i st) as (s1 & H1 & HI); [done..|].
    rewrite Nat.add_0_r in H1. rewrite H1. simpl.
    apply (IH (λ k, I (S k)) (S b) s1 HI).
    intros k j s Hj Hs.
    destruct (Hstep (S k) j s) as (s' & Hs' & HI'); [done..|].
    rewrite Nat.add_succ_r in Hs'. eauto.
Qed.

End ForEnumerate.

Lemma map_spans_ok bsz spans1 spans2 idx durations :
  idx_wf bsz (length spans1) durations idx →
  idx_wf bsz (length spans2) durations idx →
  ∃ src tgt, Loss2.map_spans bsz spans1 spans2 idx durations = Ok (src, tgt) ∧
             length src = bsz ∧ length tgt = bsz.
Proof.
  intros [Hl1 Hi] [Hl2 _]. unfold Loss2.map_spans.
  edestruct (for_enumerate_ok
    (λ b i (st : list (list ispan) * list (list ispan)),
      d ← index durations i;
      let l_clip := (d `div` 2)%Z in
      s ← index spans1 b;
      src ← append_at i (Loss2.to_clip_span l_clip s) st.1;
      t ← index spans2 b;
      tgt ← append_at i (Loss2.to_clip_span l_clip t) st.2;
      Ok (src, tgt))
    (λ _ st, length st.1 = bsz ∧ length st.2 = bsz) 0%nat idx
    (replicate bsz [], replicate bsz []))
    as ([src tgt] & Hr & Hs & Ht).
  - simpl. by rewrite !length_replicate.
  - intros k i [src tgt] Hk [Hs Ht]. simpl in *.
    pose proof (Forall_lookup_1 _ _ _ _ Hi Hk) as [Hb Hd].
    pose proof (lookup_lt_Some _ _ _ Hk) as Hlt.
    destruct (index_lt durations i Hd) as (d & _ & ->). simpl.
    destruct (index_lt spans1 k) as (s & _ & ->); [lia|]. simpl.
    destruct (append_at_lt i (Loss2.to_clip_span (d `div` 2) s) src)
      as (src' & -> & Hs'); [lia|]. simpl.
    destruct (index_lt spans2 k) as (t & _ & ->); [lia|]. simpl.
    destruct (append_at_lt i (Loss2.to_clip_span (d `div` 2) t) tgt)
      as (tgt' & -> & Ht'); [lia|]. simpl.
    eexists. split; [done|]. simpl. lia.
  - simpl in *. eauto.
Qed.

Lemma save_pred_ok bsz (iou new_loss : list tval) idx :
  (length idx ≤ length iou)%nat → (length idx ≤ length new_loss)%nat →
  Forall (λ i, (i < bsz)%nat) idx →
  ∃ st, Loss2.save_pred bsz iou new_loss idx = Ok st.
Proof.
  intros Hl1 Hl2 Hi. unfold Loss2.save_pred.
  edestruct (for_enumerate_ok
    (λ b i (st : list (list tval) * list (list tval)),
      x ← index iou b;
      ious ← append_at i x st.1;
      y ← index new_loss b;
      sim_losses ← append_at i y st.2;
      Ok (ious, sim_losses))
    (λ _ st, length st.1 = bsz ∧ length st.2 = bsz) 0%nat idx
    (replicate bsz [], replicate bsz []))
    as (st & Hr & _).
  - simpl. by rewrite !length_replicate.
  - intros k i [a b] Hk [Ha Hb]. simpl in *.
    pose proof (Forall_lookup_1 _ _ _ _ Hi Hk) as Hlt. simpl in Hlt.
    pose proof (lookup_lt_Some _ _ _ Hk) as Hk'.
    destruct (index_lt iou k) as (x & _ & ->); [lia|]. simpl.
    destruct (append_at_lt i x a) as (a' & -> & Ha'); [lia|]. simpl.
    destruct (index_lt new_loss k) as (y & _ & ->); [lia|]. simpl.
    destruct (append_at_lt i y b) as (b' & -> & Hb'); [lia|]. simpl.
    eexists. split; [done|]. simpl. lia.
  - eauto.
Qed.

(** ** The aggregator with no similarity term *)

Lemma paired_loss_lookup spans1 spans2 b p g :
  spans1 !! b = Some p → spans2 !! b = Some g →
  paired_loss spans1 spans2 !! b = Some (tsub (Fin 1) (pair_iou p g)).
Proof.
  intros Hp Hg. unfold paired_loss. by rewrite lookup_zip_with, Hp, Hg.
Qed.

Lemma new_loss1_no_terms spans1 spans2 sims idx :
  Forall valid_span spans1 → Forall valid_span spans2 →
  Loss1.new_loss ∅ spans1 spans2 sims idx
  = Ok (paired_loss spans1 spans2, zip_with pair_iou spans1 spans2).
Proof.
  intros Hv1 Hv2.
  rewrite <- one_minus_diag, <- diag_temporal_iou. unfold Loss1.new_loss.
  rewrite !round_spans_valid by done.
  by repeat (destruct (decide (_ ∈ ∅)) as [?|_]; [set_solver|]).
Qed.

Lemma new_loss2_no_terms spans1 spans2 sims idx durations :
  Loss2.new_loss ∅ spans1 spans2 sims idx durations =
  _ ← py_assert (spans_valid spans1);
  _ ← py_assert (spans_valid spans2);
  '(src_spans, tgt_spans) ←
     Loss2.map_spans (length (t_rows sims.1)) spans1 spans2 idx durations;
  '(ious, sim_losses) ←
     Loss2.save_pred (length (t_rows sims.1)) (zip_with pair_iou spans1 spans2)
       (paired_loss spans1 spans2) idx;
  Ok (paired_loss spans1 spans2,
      Loss2.Diagnostics src_spans tgt_spans ious sim_losses).
Proof.
  unfold Loss2.new_loss.
  destruct (decide (2%Z ∉ ∅)) as [_|H]; [|set_solver].
  repeat (destruct (decide (_ ∈ ∅)) as [?|_]; [set_solver|]).
  rewrite one_minus_diag, diag_temporal_iou.
  destruct (py_assert (spans_valid spans1)) as [[]|]; [|done]. simpl.
  destruct (py_assert (spans_valid spans2)) as [[]|]; [|done]. simpl.
  destruct (Loss2.map_spans _ _ _ _ _) as [[src tgt]|]; [|done]. simpl.
  by destruct (Loss2.save_pred _ _ _ _) as [[a b]|].
Qed.

(** C1: on batches whose rows all have [end >= start], [new_loss] with no
    enabled term returns, for each example, exactly 1 minus the IoU of
    row [i] of the predictions with row [i] of the ground truth.  The
    first snapshot returns it whatever [idx] is; the second returns it
    whenever it returns, and it returns when [idx] names videos of the
    batch with a known duration, one per row at most. *)
Theorem new_loss_no_terms (spans1 spans2 : list span) (sims : tensor2 * tensor3)
    (idx : list nat) (durations : list Z) :
  Forall valid_span spans1 → Forall valid_span spans2 →
  Loss1.new_loss ∅ spans1 spans2 sims idx
  = Ok (one_minus (diag (temporal_iou spans1 spans2).1),
        diag (temporal_iou spans1 spans2).1) ∧
  one_minus (diag (temporal_iou spans1 spans2).1) = paired_loss spans1 spans2 ∧
  (∀ loss d, Loss2.new_loss ∅ spans1 spans2 sims idx durations = Ok (loss, d) →
             loss = paired_loss spans1 spans2) ∧
  (idx_wf (length (t_rows sims.1)) (length spans1) durations idx →
   idx_wf (length (t_rows sims.1)) (length spans2) durations idx →
   ∃ d, Loss2.new_loss ∅ spans1 spans2 sims idx durations
        = Ok (paired_loss spans1 spans2, d)).
Proof.
  intros Hv1 Hv2. split_and!.
  - by rewrite new_loss1_no_terms, one_minus_diag, diag_temporal_iou.
  - apply one_minus_diag.
  - intros loss d. rewrite new_loss2_no_terms.
    intros (_ & _ & (_ & _ & ([src tgt] & _ & ([a b] & _ & H)%bind_Ok)%bind_Ok
      )%bind_Ok)%bind_Ok.
    by injection H as <- _.
  - intros W1 W2. rewrite new_loss2_no_terms.
    apply spans_valid_Forall in Hv1, Hv2. rewrite Hv1, Hv2. simpl.
    destruct (map_spans_ok _ _ _ _ _ W1 W2) as (src & tgt & -> & _). simpl.
    destruct W1 as [L1 Hi], W2 as [L2 _].
    destruct (save_pred_ok (length (t_rows sims.1))
                (zip_with pair_iou spans1 spans2) (paired_loss spans1 spans2) idx)
      as ([a b] & ->).
    + rewrite length_zip_with. lia.
    + unfold paired_loss. rewrite length_zip_with. lia.
    + eapply Forall_impl; [exact Hi|]. by intros i [? _].
    + simpl. eauto.
Qed.

Lemma new_loss_no_terms_witness :
  Loss1.new_loss ∅ [(0, 1 # 2); (1 # 4, 1)] [(0, 1 # 2); (0, 1)]
    (Tensor2 4 [[1 # 10; 2 # 10; 3 # 10; 4 # 10]; [5 # 10; 5 # 10; 1; 0]],
     Tensor3 4 []) [0; 1]%nat
  = Ok (one_minus (diag (temporal_iou [(0, 1 # 2); (1 # 4, 1)] [(0, 1 # 2); (0, 1)]).1),
        diag (temporal_iou [(0, 1 # 2); (1 # 4, 1)] [(0, 1 # 2); (0, 1)]).1) ∧
  ∃ d, Loss2.new_loss ∅ [(0, 1 # 2); (1 # 4, 1)] [(0, 1 # 2); (0, 1)]
         (Tensor2 4 [[1 # 10; 2 # 10; 3 # 10; 4 # 10]; [5 # 10; 5 # 10; 1; 0]],
          Tensor3 4 []) [0; 1]%nat [8; 8]%Z
       = Ok (paired_loss [(0, 1 # 2); (1 # 4, 1)] [(0, 1 # 2); (0, 1)], d).
Proof.
  destruct (new_loss_no_terms [(0, 1 # 2); (1 # 4, 1)] [(0, 1 # 2); (0, 1)]
    (Tensor2 4 [[1 # 10; 2 # 10; 3 # 10; 4 # 10]; [5 # 10; 5 # 10; 1; 0]],
     Tensor3 4 []) [0; 1]%nat [8; 8]%Z) as (H1 & _ & _ & H2).
  - repeat constructor; unfold valid_span; simpl; lra.
  - repeat constructor; unfold valid_span; simpl; lra.
  - split; [exact H1|].
    apply H2; (split; [simpl; lia | repeat constructor; simpl; lia]).
Defined.

(** ** The span-to-clip-index mapping *)

Lemma Qmax_inject a b : Qmax (inject_Z a) (inject_Z b) = inject_Z (Z.max a b).
Proof.
  unfold Qmax, GenericMinMax.gmax, Z.max, Qcompare. simpl.
  rewrite !Z.mul_1_r. by destruct (a ?= b)%Z.
Qed.

Lemma Qmin_inject a b : Qmin (inject_Z a) (inject_Z b) = inject_Z (Z.min a b).
Proof.
  unfold Qmin, GenericMinMax.gmin, Z.min, Qcompare. simpl.
  rewrite !Z.mul_1_r. by destruct (a ?= b)%Z.
Qed.

(** The mapping of the second snapshot on integers: round, bound below by
    0, then above by [l_clip - 1]. *)
Lemma to_clip_index_spec l_clip x :
  Loss2.to_clip_index l_clip x
  = Z.min (Z.max (round_half_even (x * inject_Z l_clip)) 0) (l_clip - 1).
Proof.
  unfold Loss2.to_clip_index, clamp.
  change 0 with (inject_Z 0).
  by rewrite Qmax_inject, Qmin_inject, Qtrunc_inject.
Qed.

Lemma to_clip_index_bounds l_clip x :
  (Loss2.to_clip_index l_clip x ≤ l_clip - 1)%Z ∧
  (1 ≤ l_clip → 0 ≤ Loss2.to_clip_index l_clip x)%Z.
Proof. rewrite to_clip_index_spec. lia. Qed.

Lemma to_clip_span_bounded l_clip s : clip_bounded l_clip (Loss2.to_clip_span l_clip s).
Proof.
  unfold clip_bounded, Loss2.to_clip_span. simpl.
  pose proof (to_clip_index_bounds l_clip s.1).
  pose proof (to_clip_index_bounds l_clip s.2). lia.
Qed.

Lemma groups_bounded_append durations groups groups' i d s :
  groups_bounded durations groups →
  durations !! i = Some d → clip_bounded (d `div` 2) s →
  append_at i s groups = Ok groups' →
  groups_bounded durations groups'.
Proof.
  intros Hg Hd Hs (g & Hi & ->)%append_at_Ok j g' s' Hj Hs'.
  destruct (decide (i = j)) as [<-|Hne].
  - rewrite list_lookup_insert_eq in Hj by (by eapply lookup_lt_Some).
    injection Hj as <-. apply elem_of_app in Hs' as [Hs'|Hs'].
    + by apply (Hg i g s').
    + apply list_elem_of_singleton in Hs' as ->. eauto.
  - rewrite list_lookup_insert_ne in Hj by done. by apply (Hg j g' s').
Qed.

Lemma map_spans_bounded bsz spans1 spans2 idx durations src tgt :
  Loss2.map_spans bsz spans1 spans2 idx durations = Ok (src, tgt) →
  groups_bounded durations src ∧ groups_bounded durations tgt.
Proof.
  intros H.
  apply (for_enumerate_inv _
    (λ _ st, groups_bounded durations st.1 ∧ groups_bounded durations st.2)
    _ _ _ _ H).
  - split; intros i g s [-> _]%lookup_replicate; by intros ?%elem_of_nil.
  - intros k i [a b] [a' b'] _ [Ha Hb]. simpl.
    intros (d & Hd%index_Ok & (s & _ & (a1 & Ha1 & (t & _ & (b1 & Hb1 & [= <- <-]
      )%bind_Ok)%bind_Ok)%bind_Ok)%bind_Ok)%bind_Ok.
    split.
    + eapply groups_bounded_append; [exact Ha|exact Hd| |exact Ha1].
      apply to_clip_span_bounded.
    + eapply groups_bounded_append; [exact Hb|exact Hd| |exact Hb1].
      apply to_clip_span_bounded.
Qed.

(** The groups [new_loss] of the second snapshot returns are the ones its
    mapping loop built. *)
Lemma new_loss2_spans types spans1 spans2 sims idx durations loss d :
  Loss2.new_loss types spans1 spans2 sims idx durations = Ok (loss, d) →
  ∃ bsz, Loss2.map_spans bsz spans1 spans2 idx durations
         = Ok (Loss2.src_spans d, Loss2.tgt_spans d).
Proof.
  unfold Loss2.new_loss. cbv zeta. intros H.
  apply bind_Ok in H as (_ & _ & H). apply bind_Ok in H as (_ & _ & H).
  apply bind_Ok in H as ([src tgt] & Hm & H).
  apply bind_Ok in H as (l1 & _ & H). apply bind_Ok in H as (l2 & _ & H).
  apply bind_Ok in H as (l3 & _ & H). apply bind_Ok in H as ([a b] & _ & H).
  injection H as _ <-. simpl. eauto.
Qed.




(** C6: a duration of 150 with clip unit 2 gives 75 clips, and the span
    [[0.5, 1.0]] is rounded to [[38, 75]] and bounded to [[38, 74]]; these
    are the index spans [new_loss] returns for such a video. *)
Theorem duration_aware_mapping_example :
  (150 `div` 2 = 75)%Z ∧
  (round_half_even ((1 # 2) * inject_Z 75), round_half_even (1 * inject_Z 75))
  = (38, 75)%Z ∧
  Loss2.to_clip_span (150 `div` 2) (1 # 2, 1) = (38, 74)%Z ∧
  ∃ loss d,
    Loss2.new_loss ∅ [(1 # 2, 1)] [(1 # 2, 1)] one_video [0%nat] [150%Z] = Ok (loss, d) ∧
    Loss2.src_spans d = [[(38, 74)%Z]] ∧ Loss2.tgt_spans d = [[(38, 74)%Z]].
Proof.
  split_and!; [done..|].
  eexists _, _. split; [by vm_compute|]. done.
Qed.

(** ** The loops over the grouped spans *)

Lemma same_shape_concat {A B} (l : list (list A)) (k : list (list B)) :
  same_shape l k → length (concat l) = length (concat k).
Proof.
  induction 1 as [|a b l k Hab _ IH]; [done|].
  simpl. rewrite !length_app. lia.
Qed.

Lemma loop_pos_same_shape {A B} (l : list (list A)) (k : list (list B)) i j :
  same_shape l k → loop_pos l i j = loop_pos k i j.
Proof.
  intros H. unfold loop_pos. f_equal.
  apply same_shape_concat. by apply Forall2_take.
Qed.

Lemma concat_lookup_pos {A} (groups : list (list A)) i j g x :
  groups !! i = Some g → g !! j = Some x →
  concat groups !! loop_pos groups i j = Some x.
Proof.
  intros Hg Hx. unfold loop_pos.
  destruct (list_elem_of_split_length groups i g Hg) as (l1 & l2 & -> & ->).
  rewrite take_app_length, concat_app, concat_cons, lookup_app_r by lia.
  rewrite Nat.add_comm, Nat.add_sub. by apply lookup_app_l_Some.
Qed.

Lemma concat_insert_snoc {A} (groups : list (list A)) i g x :
  groups !! i = Some g →
  length (concat (<[i := g ++ [x]]> groups)) = S (length (concat groups)).
Proof.
  intros Hg.
  destruct (list_elem_of_split_length groups i g Hg) as (l1 & l2 & -> & ->).
  rewrite insert_app_r_alt, Nat.sub_diag by lia. simpl.
  rewrite !concat_app, !concat_cons, !length_app. simpl. lia.
Qed.

Lemma bind_Ok_l {A B} (x : A) (f : A → result B) : Ok x ≫= f = f x.
Proof. done. Qed.

Lemma for_each_cons {A B} (f : A → result B) x l :
  for_each (x :: l) f = y ← f x; ys ← for_each l f; Ok (y :: ys).
Proof. done. Qed.

Section VideoLoop.
Context {T A : Type} (body : T → ispan → ispan → A).

Lemma inner_loop_ok (tgt : list (list ispan)) i tgt_i row src_i o :
  tgt !! i = Some tgt_i → (o + length src_i ≤ length tgt_i)%nat →
  for_each (imap (λ j, pair (o + j)%nat) src_i)
    (λ js, tgt_i' ← index tgt i; t ← index tgt_i' js.1; Ok (body row js.2 t))
  = Ok (zip_with (body row) src_i (drop o tgt_i)).
Proof.
  intros Hi%index_Ok. rewrite Hi. revert o.
  induction src_i as [|s src_i IH]; intros o Hlen; [done|].
  rewrite imap_cons, for_each_cons. cbn [fst snd length] in *.
  rewrite bind_Ok_l.
  destruct (index_lt tgt_i (o + 0)) as (t & Hlk & ->); [lia|].
  rewrite !bind_Ok_l.
  rewrite Nat.add_0_r in Hlk. rewrite (drop_S _ _ _ Hlk).
  rewrite (imap_ext _ (λ j, pair (S o + j)%nat)).
  - rewrite IH by lia. done.
  - intros j x _. simpl. f_equal. lia.
Qed.

Lemma outer_loop_ok (rows : list T) (src tgt : list (list ispan)) o :
  (o + length rows ≤ length src)%nat → same_shape src tgt →
  for_each (imap (λ i, pair (o + i)%nat) rows)
    (λ ir, src_i ← index src ir.1;
           for_each (enumerate src_i) (λ js,
             tgt_i ← index tgt ir.1; t ← index tgt_i js.1;
             Ok (body ir.2 js.2 t)))
  = Ok (zip_with (λ row st, zip_with (body row) st.1 st.2) rows
          (zip (drop o src) (drop o tgt))).
Proof.
  intros Hlen Hshape. revert o Hlen.
  induction rows as [|row rows IH]; intros o Hlen; [done|].
  rewrite imap_cons, for_each_cons. cbn [fst snd length] in *.
  destruct (index_lt src (o + 0)) as (src_o & Hs & ->); [lia|].
  rewrite bind_Ok_l. rewrite Nat.add_0_r in *.
  destruct (Forall2_lookup_l _ _ _ _ _ Hshape Hs) as (tgt_o & Ht & Hlo).
  pose proof (inner_loop_ok tgt o tgt_o row src_o 0%nat Ht) as Hin.
  unfold enumerate.
  rewrite (imap_ext pair (λ j, pair (0 + j)%nat) src_o) by done.
  rewrite Hin by (simpl; lia). rewrite bind_Ok_l.
  rewrite (drop_S _ _ _ Hs), (drop_S _ _ _ Ht), drop_0.
  rewrite (imap_ext _ (λ j, pair (S o + j)%nat)).
  - rewrite IH by lia. done.
  - intros j x _. simpl. f_equal. lia.
Qed.

(** With as many groups as rows, and ground-truth groups shaped like the
    predicted ones, the loops return one value per pair, in the order of
    the videos. *)
Lemma video_loop_ok (rows : list T) (src tgt : list (list ispan)) :
  length src = length rows → same_shape src tgt →
  video_loop rows src tgt body
  = Ok (concat (zip_with (λ row st, zip_with (body row) st.1 st.2) rows (zip src tgt))).
Proof.
  intros Hlen Hshape. unfold video_loop.
  pose proof (outer_loop_ok rows src tgt 0%nat) as H.
  rewrite !drop_0 in H. unfold enumerate at 1.
  rewrite (imap_ext pair (λ j, pair (0 + j)%nat) rows) by done.
  rewrite H by (done || simpl; lia). done.
Qed.

Lemma video_loop_groups_shape (rows : list T) (src tgt : list (list ispan)) :
  length src = length rows → same_shape src tgt →
  same_shape (zip_with (λ row st, zip_with (body row) st.1 st.2) rows (zip src tgt)) src.
Proof.
  intros Hlen Hshape. apply Forall2_same_length_lookup.
  pose proof (Forall2_length _ _ _ Hshape) as Hl.
  split.
  - rewrite length_zip_with, length_zip. lia.
  - intros i g si [row [[si' ti] (-> & Hrow & Hz)]]%lookup_zip_with_Some Hsi.
    apply lookup_zip_Some in Hz as [Hs Ht]. simpl.
    assert (si' = si) as -> by congruence.
    pose proof (Forall2_lookup_lr _ _ _ _ _ _ Hshape Hs Ht) as Hlen'.
    simpl in Hlen'. rewrite length_zip_with. lia.
Qed.

Lemma video_loop_lookup (rows : list T) (src tgt : list (list ispan))
    i j row s t :
  length src = length rows → same_shape src tgt →
  rows !! i = Some row → entry src i j = Some s → entry tgt i j = Some t →
  ∃ out, video_loop rows src tgt body = Ok out ∧
         length out = length (concat src) ∧
         out !! loop_pos src i j = Some (body row s t).
Proof.
  intros Hlen Hshape Hrow Hs Ht.
  eexists. split; [by apply video_loop_ok|].
  pose proof (video_loop_groups_shape rows src tgt Hlen Hshape) as Hg.
  split; [by apply same_shape_concat|].
  rewrite <- (loop_pos_same_shape _ _ i j Hg).
  unfold entry in Hs, Ht.
  destruct (src !! i) as [si|] eqn:Hsi; [|done].
  destruct (tgt !! i) as [ti|] eqn:Hti; [|done]. simpl in *.
  apply (concat_lookup_pos _ i j (zip_with (body row) si ti)).
  - rewrite lookup_zip_with, Hrow. simpl.
    assert (zip src tgt !! i = Some (si, ti)) as -> by (by apply lookup_zip_Some).
    done.
  - by rewrite lookup_zip_with, Hs, Ht.
Qed.

End VideoLoop.

Section VideoLoop1.
Context {T A : Type} (body : T → ispan → A).

Lemma outer_loop1_ok (rows : list T) (src : list (list ispan)) o :
  (o + length rows ≤ length src)%nat →
  for_each (imap (λ i, pair (o + i)%nat) rows)
    (λ ir, src_i ← index src ir.1; Ok (body ir.2 <$> (src_i : list ispan)))
  = Ok (zip_with (λ row src_i, body row <$> src_i) rows (drop o src)).
Proof.
  revert o. induction rows as [|row rows IH]; intros o Hlen; [done|].
  rewrite imap_cons, for_each_cons. cbn [fst snd length] in *.
  destruct (index_lt src (o + 0)) as (src_o & Hs & ->); [lia|].
  rewrite !bind_Ok_l. rewrite Nat.add_0_r in *.
  rewrite (drop_S _ _ _ Hs).
  rewrite (imap_ext _ (λ j, pair (S o + j)%nat)).
  - rewrite IH by lia. done.
  - intros j x _. simpl. f_equal. lia.
Qed.

Lemma video_loop1_lookup (rows : list T) (src : list (list ispan)) i j row s :
  length src = length rows →
  rows !! i = Some row → entry src i j = Some s →
  ∃ out, video_loop1 rows src body = Ok out ∧
         length out = length (concat src) ∧
         out !! loop_pos src i j = Some (body row s).
Proof.
  intros Hlen Hrow Hs. unfold video_loop1.
  pose proof (outer_loop1_ok rows src 0%nat) as H.
  rewrite drop_0 in H. unfold enumerate.
  rewrite (imap_ext pair (λ j, pair (0 + j)%nat) rows) by done.
  rewrite H by (simpl; lia). rewrite bind_Ok_l.
  eexists. split; [done|].
  assert (same_shape (zip_with (λ row src_i, body row <$> src_i) rows src) src) as Hg.
  { apply Forall2_same_length_lookup. split.
    - rewrite length_zip_with. lia.
    - intros k g si (r & si' & -> & _ & Hsi')%lookup_zip_with_Some Hsi.
      rewrite length_fmap. congruence. }
  split; [by apply same_shape_concat|].
  rewrite <- (loop_pos_same_shape _ _ i j Hg).
  unfold entry in Hs. destruct (src !! i) as [si|] eqn:Hsi; [|done]. simpl in *.
  apply (concat_lookup_pos _ i j (body row <$> si)).
  - by rewrite lookup_zip_with, Hrow, Hsi.
  - by rewrite list_lookup_fmap, Hs.
Qed.

End VideoLoop1.

(** ** The grouping loops of the first snapshot *)

Lemma group_pairs_shape bsz spans1 spans2 idx src tgt :
  Loss1.group_pairs bsz spans1 spans2 idx = Ok (src, tgt) →
  length src = bsz ∧ same_shape src tgt ∧ length (concat src) = length idx.
Proof.
  intros H.
  apply (for_enumerate_inv _
    (λ k st, length st.1 = bsz ∧ same_shape st.1 st.2 ∧ length (concat st.1) = k)
    _ _ _ _ H).
  - simpl. rewrite length_replicate. split_and!; [done| |].
    + apply Forall2_same_length_lookup. rewrite !length_replicate.
      split; [done|]. by intros i a b [-> _]%lookup_replicate [-> _]%lookup_replicate.
    + clear H. induction bsz as [|n IH]; [done|]. simpl. exact IH.
  - intros k i [a b] [a' b'] _ (Hl & Hsh & Hc). simpl in *.
    intros (s & _ & (a1 & (g & Hg & ->)%append_at_Ok & (t & _ &
      (b1 & (h & Hh & ->)%append_at_Ok & [= <- <-])%bind_Ok)%bind_Ok)%bind_Ok)%bind_Ok.
    split_and!.
    + by rewrite length_insert.
    + apply Forall2_insert; [done|].
      pose proof (Forall2_lookup_lr _ _ _ _ _ _ Hsh Hg Hh) as E. simpl in E.
      rewrite !length_app. simpl. lia.
    + rewrite (concat_insert_snoc _ _ _ _ Hg). lia.
Qed.

Lemma group_pairs_spans bsz spans1 spans2 idx src tgt :
  Loss1.group_pairs bsz spans1 spans2 idx = Ok (src, tgt) →
  Loss1.group_spans bsz spans1 idx = Ok src.
Proof.
  unfold Loss1.group_pairs, Loss1.group_spans.
  generalize (replicate bsz ([] : list ispan)) at 1 3.
  generalize (replicate bsz ([] : list ispan)).
  generalize 0%nat. revert src tgt.
  induction idx as [|i idx IH]; intros src tgt b t0 s0; simpl.
  - by intros [= <- _].
  - intros ([a1 b1] & Hstep & Hrest)%bind_Ok.
    apply bind_Ok in Hstep as (s & Hs & (a2 & Ha & (t & _ & (b2 & _ & [= <- <-]
      )%bind_Ok)%bind_Ok)%bind_Ok).
    rewrite Hs. simpl. rewrite Ha. simpl. by apply (IH _ _ _ _ _ Hrest).
Qed.

Lemma concat_all_nil {A} (l : list (list A)) :
  (∀ i g, l !! i = Some g → g = []) → concat l = [].
Proof.
  induction l as [|g l IH]; intros H; [done|]. simpl.
  rewrite (H 0%nat g eq_refl), IH; [done|].
  intros i g' Hi. by apply (H (S i)).
Qed.

Lemma concat_insert_last {A} (groups : list (list A)) i g x :
  groups !! i = Some g →
  (∀ i' g', (i < i')%nat → groups !! i' = Some g' → g' = []) →
  concat (<[i := g ++ [x]]> groups) = concat groups ++ [x].
Proof.
  intros Hg Hnil.
  destruct (list_elem_of_split_length groups i g Hg) as (l1 & l2 & -> & ->).
  rewrite insert_app_r_alt, Nat.sub_diag by lia. simpl.
  rewrite !concat_app, !concat_cons.
  rewrite (concat_all_nil l2).
  - by rewrite !app_nil_r, app_assoc.
  - intros i g' Hi. apply (Hnil (length l1 + S i)%nat); [lia|].
    rewrite lookup_app_r by lia.
    replace (length l1 + S i - length l1)%nat with (S i) by lia. done.
Qed.

(** When [idx] does not decrease, the order of the loops is the order of
    the rows: the pair at place [k] is made of row [k] of each batch,
    whose IoU is entry [k] of [iou]. *)
Lemma group_pairs_sorted bsz spans1 spans2 idx src tgt :
  nondecreasing idx →
  Loss1.group_pairs bsz spans1 spans2 idx = Ok (src, tgt) →
  concat src = Loss1.span_int <$> take (length idx) spans1 ∧
  concat tgt = Loss1.span_int <$> take (length idx) spans2.
Proof.
  intros Hsorted H.
  pose (later_empty := λ (k : nat) (l : list (list ispan)),
    ∀ i' g, (∀ k' i0, (k' < k)%nat → idx !! k' = Some i0 → (i0 < i')%nat) →
            l !! i' = Some g → g = []).
  cut (concat src = Loss1.span_int <$> take (length idx) spans1 ∧
       concat tgt = Loss1.span_int <$> take (length idx) spans2 ∧
       later_empty (length idx) src ∧ later_empty (length idx) tgt).
  { tauto. }
  apply (for_enumerate_inv _
    (λ k st, concat st.1 = Loss1.span_int <$> take k spans1 ∧
             concat st.2 = Loss1.span_int <$> take k spans2 ∧
             later_empty k st.1 ∧ later_empty k st.2)
    _ _ _ _ H).
  - simpl. split_and!.
    + apply concat_all_nil. by intros i g [-> _]%lookup_replicate.
    + apply concat_all_nil. by intros i g [-> _]%lookup_replicate.
    + by intros i' g _ [-> _]%lookup_replicate.
    + by intros i' g _ [-> _]%lookup_replicate.
  - intros k i [a b] [a' b'] Hk (Ha & Hb & Ea & Eb). simpl in *.
    intros (s & Hs%index_Ok & (a1 & (g & Hg & ->)%append_at_Ok & (t & Ht%index_Ok &
      (b1 & (h & Hh & ->)%append_at_Ok & [= <- <-])%bind_Ok)%bind_Ok)%bind_Ok)%bind_Ok.
    assert (∀ i', (i < i')%nat →
              ∀ k' i0, (k' < k)%nat → idx !! k' = Some i0 → (i0 < i')%nat) as Hlater.
    { intros i' Hi' k' i0 Hk' Hi0.
      pose proof (Hsorted k' k i0 i ltac:(lia) Hi0 Hk). lia. }
    split_and!.
    + rewrite (take_S_r _ _ _ Hs), fmap_app, <- Ha.
      apply concat_insert_last; [done|].
      intros i' g' Hi'. apply Ea. by apply Hlater.
    + rewrite (take_S_r _ _ _ Ht), fmap_app, <- Hb.
      apply concat_insert_last; [done|].
      intros i' g' Hi'. apply Eb. by apply Hlater.
    + intros i' g' Hall Hi'.
      assert (i < i')%nat as Hlt by (apply (Hall k i); [lia|done]).
      rewrite list_lookup_insert_ne in Hi' by lia.
      apply (Ea i' g'); [|done]. intros k' i0 Hk'. apply Hall. lia.
    + intros i' g' Hall Hi'.
      assert (i < i')%nat as Hlt by (apply (Hall k i); [lia|done]).
      rewrite list_lookup_insert_ne in Hi' by lia.
      apply (Eb i' g'); [|done]. intros k' i0 Hk'. apply Hall. lia.
Qed.

(** ** Slices and means *)

Lemma slice_bound_in n a : (0 ≤ a ≤ Z.of_nat n)%Z → slice_bound n a = Z.to_nat a.
Proof.
  intros H. unfold slice_bound.
  destruct (Z.ltb_spec a 0); [lia|]. f_equal. lia.
Qed.

Lemma py_slice_length {A} (l : list A) a b :
  (0 ≤ a ≤ b)%Z → (b ≤ Z.of_nat (length l))%Z →
  length (py_slice l a b) = Z.to_nat (b - a).
Proof.
  intros Hab Hb. unfold py_slice.
  rewrite !slice_bound_in by lia.
  rewrite length_take, length_drop. lia.
Qed.

Lemma mean_finite xs : (0 < length xs)%nat → ∃ q, mean xs = Fin q.
Proof.
  intros H. unfold mean. rewrite qdiv_nonzero; [eauto|].
  change 0 with (inject_Z 0). rewrite inject_Z_injective. lia.
Qed.

Lemma clamp_src_in_bounds vid_len s : in_bounds vid_len s → clamp_src vid_len s = s.
Proof.
  destruct s as [a b]. unfold in_bounds, clamp_src. simpl. intros H.
  f_equal; lia.
Qed.

Lemma clamp_tgt_in_bounds vid_len s : in_bounds vid_len s → clamp_tgt vid_len s = s.
Proof.
  destruct s as [a b]. unfold in_bounds, clamp_tgt. simpl. intros H.
  f_equal; lia.
Qed.

Lemma range_mean_finite (row : list Q) s :
  in_bounds (Z.of_nat (length row)) s → ∃ q, range_mean row s = Fin q.
Proof.
  intros (H1 & H2 & H3). unfold range_mean. apply mean_finite.
  rewrite py_slice_length by lia. lia.
Qed.

Lemma sim_diff_same (row : list Q) s :
  in_bounds (Z.of_nat (length row)) s →
  ∃ q, Loss1.sim_diff (Z.of_nat (length row)) row s s = Fin q ∧ q == 0.
Proof.
  intros Hb. unfold Loss1.sim_diff.
  rewrite clamp_src_in_bounds, clamp_tgt_in_bounds by done.
  destruct (range_mean_finite row s Hb) as (m & ->).
  exists (Qabs (m + - m)). split; [done|].
  assert (m + - m == 0) as -> by ring. done.
Qed.

(** ** Broadcasting *)

Lemma broadcast_same_length {A} (f : A → A → A) xs ys :
  length xs = length ys → broadcast f xs ys = Ok (zip_with f xs ys).
Proof. intros H. unfold broadcast. by rewrite decide_True. Qed.

Lemma one_minus_lookup iou k x :
  iou !! k = Some x → one_minus iou !! k = Some (tsub (Fin 1) x).
Proof. intros H. unfold one_minus. by rewrite list_lookup_fmap, H. Qed.

(** ** The similarity terms on a predicted span equal to its ground truth *)

(** C9, as amended, for the pair [j] of video [i], whose place in the
    order of the loops is [loop_pos src i j], and the IoU [v] at that
    place.  When the predicted and the ground-truth index spans of the
    pair are one span [s] within the clips of the video, the two means of
    [S_Diff] are one number, their distance [d] is 0 and the term is
    [(1 - v) * d]: it is 0 when [v] is a number, and [nan] when [v] is.
    The [S_Q_P] term is [(1 - v) * (1 - m)] with [m] the mean similarity
    over [s]; [S_Q_P] reads no ground-truth span.  Both functions return,
    given one IoU per row of [idx]. *)
Theorem similarity_terms_identical_span
    (iou : list tval) (spans1 spans2 : list span) (logits : tensor2) (idx : list nat)
    (src tgt : list (list ispan)) (i j : nat) (row : list Q) (s : ispan) (v : tval) :
  Loss1.group_pairs (length (t_rows logits)) spans1 spans2 idx = Ok (src, tgt) →
  length iou = length idx →
  t_rows logits !! i = Some row → length row = t_cols logits →
  entry src i j = Some s → entry tgt i j = Some s →
  in_bounds (Z.of_nat (t_cols logits)) s →
  iou !! loop_pos src i j = Some v →
  (∃ terms d, Loss1.S_Diff iou spans1 spans2 logits idx = Ok terms ∧
              terms !! loop_pos src i j = Some (tmul (tsub (Fin 1) v) (Fin d)) ∧
              d == 0 ∧
              (∀ x, v = Fin x →
                    ∃ q, terms !! loop_pos src i j = Some (Fin q) ∧ q == 0) ∧
              (v = NaN → terms !! loop_pos src i j = Some NaN)) ∧
  (∃ terms m, Loss1.S_Q_P iou spans1 logits idx = Ok terms ∧
              range_mean row s = Fin m ∧
              terms !! loop_pos src i j
              = Some (tmul (tsub (Fin 1) v) (tsub (Fin 1) (Fin m)))).
Proof.
  intros Hg Hiou Hrow Hlen Hs Ht Hb Hx.
  destruct (group_pairs_shape _ _ _ _ _ _ Hg) as (Hl & Hsh & Hc).
  rewrite <- Hlen in Hb.
  pose proof (one_minus_lookup _ _ _ Hx) as Hx1.
  split.
  - unfold Loss1.S_Diff. rewrite Hg, bind_Ok_l.
    destruct (video_loop_lookup
                (Loss1.sim_diff (Z.of_nat (t_cols logits)))
                (t_rows logits) src tgt i j row s s Hl Hsh Hrow Hs Ht)
      as (out & -> & Hout & Hk).
    rewrite bind_Ok_l.
    destruct out as [|o out]; [by rewrite lookup_nil in Hk|].
    unfold stack. rewrite bind_Ok_l.
    rewrite broadcast_same_length
      by (unfold one_minus; rewrite length_fmap; congruence).
    rewrite <- Hlen in Hk.
    destruct (sim_diff_same row s Hb) as (d & Hd & Hd0). rewrite Hd in Hk.
    eexists _, d. split; [done|].
    rewrite lookup_zip_with, Hx1, Hk. simpl. split_and!; [done..| |].
    + intros x ->. eexists. split; [done|]. rewrite Hd0. ring.
    + by intros ->.
  - unfold Loss1.S_Q_P. rewrite (group_pairs_spans _ _ _ _ _ _ Hg), bind_Ok_l.
    destruct (video_loop1_lookup
                (Loss1.src_sim (Z.of_nat (t_cols logits)))
                (t_rows logits) src i j row s Hl Hrow Hs)
      as (out & -> & Hout & Hk).
    rewrite bind_Ok_l.
    destruct out as [|o out]; [by rewrite lookup_nil in Hk|].
    unfold stack. rewrite bind_Ok_l.
    rewrite broadcast_same_length
      by (unfold one_minus; rewrite !length_fmap; congruence).
    rewrite <- Hlen in Hk. unfold Loss1.src_sim in Hk.
    rewrite clamp_src_in_bounds in Hk by done.
    destruct (range_mean_finite row s Hb) as (m & Hm). rewrite Hm in Hk.
    apply one_minus_lookup in Hk.
    eexists _, m. split; [done|]. split; [done|].
    by rewrite lookup_zip_with, Hx1, Hk.
Qed.

Lemma similarity_terms_identical_span_witness :
  (∃ terms q,
     Loss1.S_Diff [Fin 1; Fin (3 # 4)] [(0, 2); (1, 3)] [(0, 2); (0, 3)]
       two_videos [0; 1]%nat = Ok terms ∧
     terms !! 0%nat = Some (Fin q) ∧ q == 0) ∧
  (∃ terms m,
     Loss1.S_Q_P [Fin 1; Fin (3 # 4)] [(0, 2); (1, 3)] two_videos [0; 1]%nat = Ok terms ∧
     range_mean [1 # 10; 2 # 10; 3 # 10; 4 # 10] (0, 2)%Z = Fin m ∧
     terms !! 0%nat = Some (tmul (tsub (Fin 1) (Fin 1)) (tsub (Fin 1) (Fin m)))).
Proof.
  destruct (similarity_terms_identical_span
              [Fin 1; Fin (3 # 4)] [(0, 2); (1, 3)] [(0, 2); (0, 3)] two_videos
              [0; 1]%nat [[(0, 2)%Z]; [(1, 3)%Z]] [[(0, 2)%Z]; [(0, 3)%Z]] 0 0
              [1 # 10; 2 # 10; 3 # 10; 4 # 10] (0, 2)%Z (Fin 1))
    as [(terms & d & Ht & _ & _ & Hz & _) H2].
  - reflexivity.
  - reflexivity.
  - reflexivity.
  - reflexivity.
  - reflexivity.
  - reflexivity.
  - unfold in_bounds. simpl. lia.
  - reflexivity.
  - split; [|exact H2].
    destruct (Hz 1 eq_refl) as (q & Hq & Hq0). by exists terms, q.
Defined.

(** C9, as stated, fails when the IoU of the pair is not a number.  A
    predicted span of length zero equal to its ground truth (here
    [[0.5, 0.5]] in a video of 4 clips) has union 0 and IoU [nan]; its
    index spans are both [[2, 2]], within the video, the two means are
    equal, and the [S_Diff] term is [(1 - nan) * 0 = nan]. *)
Lemma s_diff_identical_nan :
  spans_valid [(1 # 2, 1 # 2)] = true ∧
  diag (temporal_iou [(1 # 2, 1 # 2)] [(1 # 2, 1 # 2)]).1 = [NaN] ∧
  Loss1.group_pairs 1 (Loss1.round_spans 4 [(1 # 2, 1 # 2)])
    (Loss1.round_spans 4 [(1 # 2, 1 # 2)]) [0%nat]
  = Ok ([[(2, 2)%Z]], [[(2, 2)%Z]]) ∧
  in_bounds 4 (2, 2)%Z ∧
  Loss1.S_Diff [NaN] (Loss1.round_spans 4 [(1 # 2, 1 # 2)])
    (Loss1.round_spans 4 [(1 # 2, 1 # 2)])
    (Tensor2 4 [[1 # 10; 2 # 10; 3 # 10; 4 # 10]]) [0%nat]
  = Ok [NaN] ∧
  (∀ q, Loss1.S_Diff [NaN] (Loss1.round_spans 4 [(1 # 2, 1 # 2)])
          (Loss1.round_spans 4 [(1 # 2, 1 # 2)])
          (Tensor2 4 [[1 # 10; 2 # 10; 3 # 10; 4 # 10]]) [0%nat]
        ≠ Ok [Fin q]) ∧
  Loss1.new_loss {[1%Z]} [(1 # 2, 1 # 2)] [(1 # 2, 1 # 2)]
    (Tensor2 4 [[1 # 10; 2 # 10; 3 # 10; 4 # 10]], Tensor3 4 []) [0%nat]
  = Ok ([NaN], [NaN]).
Proof. split_and!; by vm_compute. Qed.

(** The same holds of [S_Diff] and [S_Q_P] of the second snapshot, which
    take the grouped index spans as they are. *)
Lemma similarity_terms_identical_span2
    (iou : list tval) (src tgt : list (list ispan)) (logits : tensor2)
    (i j : nat) (row : list Q) (s : ispan) (v : tval) :
  length src = length (t_rows logits) → same_shape src tgt →
  length iou = length (concat src) →
  t_rows logits !! i = Some row → length row = t_cols logits →
  entry src i j = Some s → entry tgt i j = Some s →
  in_bounds (Z.of_nat (t_cols logits)) s →
  iou !! loop_pos src i j = Some v →
  (∃ terms d, Loss2.S_Diff iou src tgt logits = Ok terms ∧
              terms !! loop_pos src i j = Some (tmul (tsub (Fin 1) v) (Fin d)) ∧
              d == 0) ∧
  (∃ terms m, Loss2.S_Q_P iou src logits = Ok terms ∧
              range_mean row s = Fin m ∧
              terms !! loop_pos src i j
              = Some (tmul (tsub (Fin 1) v) (tsub (Fin 1) (Fin m)))).
Proof.
  intros Hl Hsh Hiou Hrow Hlen Hs Ht Hb Hx.
  rewrite <- Hlen in Hb.
  pose proof (one_minus_lookup _ _ _ Hx) as Hx1.
  split.
  - unfold Loss2.S_Diff.
    destruct (video_loop_lookup
                (Loss2.sim_diff (Z.of_nat (t_cols logits)))
                (t_rows logits) src tgt i j row s s Hl Hsh Hrow Hs Ht)
      as (out & -> & Hout & Hk).
    rewrite bind_Ok_l.
    destruct out as [|o out]; [by rewrite lookup_nil in Hk|].
    unfold stack. rewrite bind_Ok_l.
    rewrite broadcast_same_length
      by (unfold one_minus; rewrite length_fmap; congruence).
    rewrite <- Hlen in Hk.
    destruct (sim_diff_same row s Hb) as (d & Hd & Hd0).
    change (Loss1.sim_diff ?a ?b ?c ?e) with (Loss2.sim_diff a b c e) in Hd.
    rewrite Hd in Hk.
    eexists _, d. split; [done|].
    by rewrite lookup_zip_with, Hx1, Hk.
  - unfold Loss2.S_Q_P.
    destruct (video_loop1_lookup
                (Loss2.src_sim (Z.of_nat (t_cols logits)))
                (t_rows logits) src i j row s Hl Hrow Hs)
      as (out & -> & Hout & Hk).
    rewrite bind_Ok_l.
    destruct out as [|o out]; [by rewrite lookup_nil in Hk|].
    unfold stack. rewrite bind_Ok_l.
    rewrite broadcast_same_length
      by (unfold one_minus; rewrite !length_fmap; congruence).
    rewrite <- Hlen in Hk. unfold Loss2.src_sim in Hk.
    rewrite clamp_src_in_bounds in Hk by done.
    destruct (range_mean_finite row s Hb) as (m & Hm). rewrite Hm in Hk.
    apply one_minus_lookup in Hk.
    eexists _, m. split; [done|]. split; [done|].
    by rewrite lookup_zip_with, Hx1, Hk.
Qed.

(** * Further properties of the span geometry *)

(** ** Entries equal up to the representation of a rational *)

Lemma qdiv_proper a a' b b' : a == a' → b == b' → tval_eq (qdiv a b) (qdiv a' b').
Proof.
  intros Ha Hb. unfold qdiv, tdiv.
  destruct (Qeq_bool b 0) eqn:E.
  - apply Qeq_bool_iff in E.
    assert (Qeq_bool b' 0 = true) as -> by (apply Qeq_bool_iff; lra).
    rewrite Ha. by destruct (Qcompare a' 0).
  - apply Qeq_bool_neq in E.
    destruct (Qeq_bool b' 0) eqn:E'.
    + apply Qeq_bool_iff in E'. destruct E. lra.
    + simpl. by rewrite Ha, Hb.
Qed.

Lemma pair_inter_comm a b : pair_inter a b == pair_inter b a.
Proof. minmax_lra. Qed.

Lemma pair_union_comm a b : pair_union a b == pair_union b a.
Proof. minmax_lra. Qed.

Lemma Qdiv_eq_iff a b c : ¬ b == 0 → (a / b == c ↔ a == c * b).
Proof.
  intros Hb. split; intros H.
  - rewrite <- H. by field.
  - rewrite H. by field.
Qed.

Lemma Qdiv_antimono a b c : 0 <= a → 0 < b → b <= c → a / c <= a / b.
Proof.
  intros Ha Hb Hc.
  apply Qle_shift_div_l; [done|].
  assert (a / c * b == a * (b / c)) as -> by (field; lra).
  assert (b / c <= 1) by (apply Qle_shift_div_r; lra).
  assert (0 <= b / c) by (apply Qle_shift_div_l; lra).
  nra.
Qed.

(** ** Temporal IoU of one pair *)

(** X1: [temporal_iou] is symmetric: exchanging the two batches transposes
    the IoU matrix and the union matrix. *)
Theorem temporal_iou_symmetric (spans1 spans2 : list span) (n m : nat) :
  option_Forall2 tval_eq (entry (temporal_iou spans1 spans2).1 n m)
                         (entry (temporal_iou spans2 spans1).1 m n) ∧
  option_Forall2 Qeq (entry (temporal_iou spans1 spans2).2 n m)
                     (entry (temporal_iou spans2 spans1).2 m n).
Proof.
  rewrite !temporal_iou_entry, !temporal_union_entry.
  destruct (spans1 !! n) as [a|], (spans2 !! m) as [b|]; simpl;
    split; constructor.
  - apply qdiv_proper; [apply pair_inter_comm | apply pair_union_comm].
  - apply pair_union_comm.
Qed.



(** ** Generalized temporal IoU of one pair *)





Lemma pair_enclosing_comm a b : pair_enclosing a b == pair_enclosing b a.
Proof. minmax_lra. Qed.

Lemma tsub_proper x x' y y' :
  tval_eq x x' → tval_eq y y' → tval_eq (tsub x y) (tsub x' y').
Proof. destruct x, x', y, y'; simpl; try done. intros. lra. Qed.

(** X5: [generalized_temporal_iou] is symmetric: on batches whose rows all
    have [end >= start], exchanging the two batches transposes the GIoU
    matrix. *)
Theorem giou_symmetric (spans1 spans2 : list span) (n m : nat) :
  Forall valid_span spans1 → Forall valid_span spans2 →
  ∃ g12 g21,
    generalized_temporal_iou spans1 spans2 = Ok g12 ∧
    generalized_temporal_iou spans2 spans1 = Ok g21 ∧
    option_Forall2 tval_eq (entry g12 n m) (entry g21 m n).
Proof.
  intros Hv1 Hv2.
  destruct (generalized_temporal_iou_valid _ _ Hv1 Hv2) as (g12 & -> & E12).
  destruct (generalized_temporal_iou_valid _ _ Hv2 Hv1) as (g21 & -> & E21).
  exists g12, g21. split; [done|]. split; [done|].
  rewrite E12, E21.
  destruct (spans1 !! n) as [a|], (spans2 !! m) as [b|]; simpl; constructor.
  unfold pair_giou, pair_iou.
  pose proof (pair_inter_comm a b). pose proof (pair_union_comm a b).
  pose proof (pair_enclosing_comm a b).
  apply tsub_proper; apply qdiv_proper; lra.
Qed.

Lemma giou_symmetric_witness :
  ∃ g12 g21,
    generalized_temporal_iou [(0, 1 # 5); (1 # 2, 1)] [(0, 3 # 10); (0, 1)] = Ok g12 ∧
    generalized_temporal_iou [(0, 3 # 10); (0, 1)] [(0, 1 # 5); (1 # 2, 1)] = Ok g21 ∧
    option_Forall2 tval_eq (entry g12 1 0) (entry g21 0 1).
Proof.
  apply (giou_symmetric [(0, 1 # 5); (1 # 2, 1)] [(0, 3 # 10); (0, 1)] 1 0).
  - repeat constructor; unfold valid_span; simpl; lra.
  - repeat constructor; unfold valid_span; simpl; lra.
Defined.

(** ** The converters, from (center, width) *)


(** ** Intersection over the predicted span *)

Lemma temporal_intersection_over_pred_entry gt_spans pred_spans n m :
  entry (temporal_intersection_over_pred gt_spans pred_spans) n m =
  g ← gt_spans !! n; p ← pred_spans !! m; Some (qdiv (pair_inter g p) (p.2 - p.1)).
Proof.
  unfold temporal_intersection_over_pred.
  rewrite temporal_inter_outer. unfold entry, outer.
  rewrite !list_lookup_fmap.
  destruct (gt_spans !! n) as [g|]; [|done]. simpl.
  rewrite lookup_zip_with, !list_lookup_fmap.
  by destruct (pred_spans !! m) as [p|].
Qed.



(** ** The distance term *)

Lemma diag_from_singletons {A B} (f : A → B) (xs : list A) i :
  diag_from i ((λ x, [f x]) <$> xs) =
  match i with 0%nat => f <$> take 1 xs | _ => [] end.
Proof.
  destruct xs as [|x xs]; [by destruct i|].
  destruct i; [|done]. simpl. f_equal. by destruct xs.
Qed.

Lemma distance_term_enclosing spans1 spans2 :
  diag (mat_map (clamp_min 0)
          (mat_zip Qminus (outer Qmax (snd <$> spans1) (snd <$> spans2))
                          (outer Qmin (fst <$> spans1) (fst <$> spans2))))
  = zip_with pair_enclosing spans1 spans2.
Proof.
  unfold diag.
  by rewrite !outer_fmap, mat_zip_outer, mat_map_outer, diag_from_outer, drop_0.
Qed.

(** X8: on two batches of as many rows, [distance_term] returns one value
    per row; the value of row [k] is the distance from the center of the
    second span of row [k] to the center of the first span of row 0 (of
    row 0, whatever [k] is), divided by the square of the enclosing length
    of the two spans of row [k]. *)
Theorem distance_term_rows (spans1 spans2 : list span) (k : nat) (a0 a b : span) :
  length spans1 = length spans2 →
  spans1 !! 0%nat = Some a0 → spans1 !! k = Some a → spans2 !! k = Some b →
  ∃ d, distance_term spans1 spans2 = Ok d ∧
       length d = length spans1 ∧
       d !! k = Some (qdiv (Qabs (center b - center a0))
                           (pair_enclosing a b * pair_enclosing a b)).
Proof.
  intros Hlen H0 Ha Hb. unfold distance_term.
  rewrite distance_term_enclosing. unfold diag.
  rewrite (diag_from_singletons (λ s : span, (s.1 + s.2) / 2)).
  destruct spans1 as [|a0' spans1]; [done|]. injection H0 as ->.
  change (take 1 (a0 :: spans1)) with [a0]. cbn [fmap list_fmap].
  assert (broadcast (λ c2 c1, Qabs (c2 - c1))
            ((λ s : span, (s.1 + s.2) / 2) <$> spans2) [(a0.1 + a0.2) / 2]
          = Ok ((λ s : span, Qabs (center s - center a0)) <$> spans2)) as ->.
  { unfold broadcast. rewrite length_fmap.
    destruct (decide _) as [E|NE].
    - destruct spans2 as [|b0 [|? ?]]; done.
    - destruct spans2 as [|b0 [|b1 spans2]]; [done| done |].
      cbn [fmap list_fmap]. by rewrite <- !list_fmap_compose. }
  rewrite bind_Ok_l, broadcast_same_length
    by (rewrite !length_fmap, length_zip_with; lia).
  eexists. split; [done|]. split.
  - rewrite length_zip_with, !length_fmap, length_zip_with. lia.
  - rewrite lookup_zip_with, !list_lookup_fmap, lookup_zip_with, Ha, Hb. done.
Qed.

Lemma distance_term_rows_witness :
  ∃ d, distance_term [(0, 1 # 5); (1 # 2, 1)] [(0, 3 # 10); (0, 1)] = Ok d ∧
       length d = 2%nat ∧
       d !! 1%nat = Some (qdiv (Qabs (center (0, 1) - center (0, 1 # 5)))
                               (pair_enclosing (1 # 2, 1) (0, 1)
                                * pair_enclosing (1 # 2, 1) (0, 1))).
Proof.
  apply (distance_term_rows [(0, 1 # 5); (1 # 2, 1)] [(0, 3 # 10); (0, 1)] 1
           (0, 1 # 5) (1 # 2, 1) (0, 1)); reflexivity.
Defined.

(** * Further properties of the similarity terms *)

(** ** Means of similarities *)

Lemma Qsum_bounds lo hi xs :
  Forall (λ x, lo <= x ∧ x <= hi) xs →
  lo * inject_Z (Z.of_nat (length xs)) <= Qsum xs ∧
  Qsum xs <= hi * inject_Z (Z.of_nat (length xs)).
Proof.
  induction 1 as [|x xs [Hl Hh] _ [IH1 IH2]].
  - change (inject_Z (Z.of_nat (length (@nil Q)))) with 0. simpl. split; lra.
  - cbn [length]. change (Qsum (x :: xs)) with (x + Qsum xs).
    rewrite Nat2Z.inj_succ, <- Z.add_1_r, inject_Z_plus.
    change (inject_Z 1) with 1.
    revert IH1 IH2. generalize (inject_Z (Z.of_nat (length xs))) (Qsum xs).
    intros n S IH1 IH2. split; nra.
Qed.

Lemma mean_bounds lo hi xs :
  (0 < length xs)%nat → Forall (λ x, lo <= x ∧ x <= hi) xs →
  ∃ q, mean xs = Fin q ∧ lo <= q ∧ q <= hi.
Proof.
  intros Hn Hxs. destruct (Qsum_bounds lo hi xs Hxs) as [H1 H2].
  assert (0 < inject_Z (Z.of_nat (length xs))) as Hpos.
  { change 0 with (inject_Z 0). rewrite <- Zlt_Qlt. lia. }
  unfold mean. rewrite qdiv_nonzero by lra. eexists. split; [done|]. split.
  - by apply Qle_shift_div_l.
  - by apply Qle_shift_div_r.
Qed.

Lemma py_slice_Forall {A} (P : A → Prop) l a b :
  Forall P l → Forall P (py_slice l a b).
Proof. intros. unfold py_slice. by apply Forall_take, Forall_drop. Qed.

Lemma range_mean_bounds lo hi row s :
  in_bounds (Z.of_nat (length row)) s → Forall (λ x, lo <= x ∧ x <= hi) row →
  ∃ q, range_mean row s = Fin q ∧ lo <= q ∧ q <= hi.
Proof.
  intros (H1 & H2 & H3) Hr. unfold range_mean. apply mean_bounds.
  - rewrite py_slice_length by lia. lia.
  - by apply py_slice_Forall.
Qed.

Lemma block_mean_bounds lo hi (m : list (list Q)) rows cols :
  in_bounds (Z.of_nat (length m)) rows →
  Forall (λ r, in_bounds (Z.of_nat (length r)) cols ∧
               Forall (λ x, lo <= x ∧ x <= hi) r) m →
  ∃ q, block_mean m rows cols = Fin q ∧ lo <= q ∧ q <= hi.
Proof.
  intros (H1 & H2 & H3) Hm. unfold block_mean.
  pose proof (py_slice_Forall _ m rows.1 (rows.2 + 1)%Z Hm) as Hs.
  pose proof (py_slice_length m rows.1 (rows.2 + 1)%Z ltac:(lia) ltac:(lia)) as Hl.
  apply mean_bounds.
  - destruct (py_slice m rows.1 (rows.2 + 1)%Z) as [|r rest]; [simpl in Hl; lia|].
    apply Forall_cons in Hs as [[(C1 & C2 & C3) _] _].
    cbn [fmap list_fmap concat]. rewrite length_app, py_slice_length by lia. lia.
  - apply Forall_concat, Forall_fmap. eapply Forall_impl; [exact Hs|].
    intros r [_ Hr]. by apply py_slice_Forall.
Qed.

Lemma in_bounds_le l L s : in_bounds l s → (l ≤ L)%Z → in_bounds L s.
Proof. unfold in_bounds. lia. Qed.

(** ** The bodies of the loops on spans within the video *)

Lemma sim_diff_unit (row : list Q) src tgt :
  Forall unit_interval row →
  in_bounds (Z.of_nat (length row)) src → in_bounds (Z.of_nat (length row)) tgt →
  tunit (Loss2.sim_diff (Z.of_nat (length row)) row src tgt).
Proof.
  intros Hr Hs Ht. unfold Loss2.sim_diff.
  rewrite clamp_src_in_bounds, clamp_tgt_in_bounds by done.
  destruct (range_mean_bounds 0 1 row src Hs Hr) as (a & -> & A0 & A1).
  destruct (range_mean_bounds 0 1 row tgt Ht Hr) as (b & -> & B0 & B1).
  exists (Qabs (a + - b)). split; [done|]. split.
  - apply Qabs_nonneg.
  - apply Qabs_Qle_condition. split; lra.
Qed.

Lemma src_sim_unit (row : list Q) src :
  Forall unit_interval row → in_bounds (Z.of_nat (length row)) src →
  tunit (Loss2.src_sim (Z.of_nat (length row)) row src).
Proof.
  intros Hr Hs. unfold Loss2.src_sim. rewrite clamp_src_in_bounds by done.
  destruct (range_mean_bounds 0 1 row src Hs Hr) as (a & -> & A0 & A1).
  by exists a.
Qed.

Lemma block_mean_unit (L : nat) (m : list (list Q)) src tgt :
  length m = L → Forall (λ row, length row = L ∧ Forall unit_interval row) m →
  in_bounds (Z.of_nat L) src → in_bounds (Z.of_nat L) tgt →
  tunit (block_mean m src tgt).
Proof.
  intros Hl Hm Hs Ht.
  destruct (block_mean_bounds 0 1 m src tgt) as (a & -> & A0 & A1).
  - by rewrite Hl.
  - eapply Forall_impl; [exact Hm|]. intros r [-> Hr]. done.
  - by exists a.
Qed.

Lemma one_minus_unit xs : Forall tunit xs → Forall tunit (one_minus xs).
Proof.
  intros H. unfold one_minus. apply Forall_fmap.
  eapply Forall_impl; [exact H|]. intros x (q & -> & Q0 & Q1).
  exists (1 + - q). split; [done|]. unfold unit_interval. lra.
Qed.

(** ** The loops on groups of such spans *)

Section VideoLoopForall.
Context {T A : Type} (body : T → ispan → ispan → A).
Context (R : T → Prop) (S1 S2 : ispan → Prop) (P : A → Prop).
Hypothesis body_ok : ∀ row s t, R row → S1 s → S2 t → P (body row s t).

Lemma video_loop_Forall rows src tgt :
  length src = length rows → same_shape src tgt →
  Forall R rows → Forall (Forall S1) src → Forall (Forall S2) tgt →
  ∃ out, video_loop rows src tgt body = Ok out ∧
         length out = length (concat src) ∧ Forall P out.
Proof.
  intros Hlen Hsh HR H1 H2. eexists. split; [by apply video_loop_ok|]. split.
  - by apply same_shape_concat, video_loop_groups_shape.
  - apply Forall_concat, Forall_lookup.
    intros i g [row [[si ti] (-> & Hrow & Hz)]]%lookup_zip_with_Some.
    apply lookup_zip_Some in Hz as [Hs Ht]. simpl.
    apply (Forall_zip_with_fst _ S1); [exact (Forall_lookup_1 _ _ _ _ H1 Hs)|].
    eapply Forall_impl; [exact (Forall_lookup_1 _ _ _ _ H2 Ht)|].
    intros t Ht' s Hs'. apply body_ok; [|done..].
    exact (Forall_lookup_1 _ _ _ _ HR Hrow).
Qed.

End VideoLoopForall.

Section VideoLoop1Forall.
Context {T A : Type} (body : T → ispan → A).
Context (R : T → Prop) (S1 : ispan → Prop) (P : A → Prop).
Hypothesis body_ok : ∀ row s, R row → S1 s → P (body row s).

Lemma video_loop1_Forall rows src :
  length src = length rows → Forall R rows → Forall (Forall S1) src →
  ∃ out, video_loop1 rows src body = Ok out ∧
         length out = length (concat src) ∧ Forall P out.
Proof.
  intros Hlen HR H1. unfold video_loop1.
  pose proof (outer_loop1_ok body rows src 0%nat) as H.
  rewrite drop_0 in H. unfold enumerate.
  rewrite (imap_ext pair (λ j, pair (0 + j)%nat) rows) by done.
  rewrite H by (simpl; lia). rewrite bind_Ok_l.
  eexists. split; [done|]. split.
  - apply same_shape_concat, Forall2_same_length_lookup. split.
    + rewrite length_zip_with. lia.
    + intros k g si (r & si' & -> & _ & Hsi')%lookup_zip_with_Some Hsi.
      rewrite length_fmap. congruence.
  - apply Forall_concat, Forall_lookup.
    intros i g (row & si & -> & Hrow & Hs)%lookup_zip_with_Some.
    apply Forall_fmap. eapply Forall_impl; [exact (Forall_lookup_1 _ _ _ _ H1 Hs)|].
    intros s Hs'. apply body_ok; [|done].
    exact (Forall_lookup_1 _ _ _ _ HR Hrow).
Qed.

End VideoLoop1Forall.

(** ** A term from the similarities of the pairs *)

Lemma term_of_sims iou sims :
  length sims = length iou → Forall (λ v, ∃ i, v = Fin i ∧ i <= 1) iou →
  Forall tunit sims →
  Forall2 term_within iou (zip_with tmul (one_minus iou) sims).
Proof.
  intros Hlen Hiou Hsims. apply Forall2_same_length_lookup. split.
  - unfold one_minus. rewrite length_zip_with, length_fmap. lia.
  - intros k v y Hv. rewrite lookup_zip_with, (one_minus_lookup _ _ _ Hv). simpl.
    destruct (sims !! k) as [x|] eqn:Hx; [|done]. simpl. intros [= <-].
    destruct (Forall_lookup_1 _ _ _ _ Hiou Hv) as (i & -> & Hi).
    destruct (Forall_lookup_1 _ _ _ _ Hsims Hx) as (q & -> & Q0 & Q1).
    exists i, ((1 + - i) * q). split_and!; [done..| |]; nra.
Qed.

Lemma stack_nonempty {A} (xs : list A) : (0 < length xs)%nat → stack xs = Ok xs.
Proof. by destruct xs; [simpl; lia|]. Qed.

Lemma iadd_within n iou acc term :
  Forall2 (loss_within n) iou acc → Forall2 term_within iou term →
  ∃ acc', iadd acc term = Ok acc' ∧ Forall2 (loss_within (n + 1)) iou acc'.
Proof.
  intros Hacc Hterm.
  pose proof (Forall2_length _ _ _ Hacc) as L1.
  pose proof (Forall2_length _ _ _ Hterm) as L2.
  unfold iadd. rewrite decide_True by lia.
  eexists. split; [done|].
  apply Forall2_same_length_lookup. split; [rewrite length_zip_with; lia|].
  intros k v x Hv. rewrite lookup_zip_with.
  destruct (acc !! k) as [a|] eqn:Ha; [|done].
  destruct (term !! k) as [t|] eqn:Ht; [|done]. simpl. intros [= <-].
  destruct (Forall2_lookup_lr _ _ _ _ _ _ Hacc Hv Ha) as (i & q & -> & -> & ? & ? & ?).
  destruct (Forall2_lookup_lr _ _ _ _ _ _ Hterm Hv Ht) as (i' & z & [= <-] & -> & ? & ?).
  exists i, (q + z). split_and!; [done..| |]; nra.
Qed.

Lemma loss_within_le n n' v x : n <= n' → loss_within n v x → loss_within n' v x.
Proof.
  intros Hn (i & q & -> & -> & ? & ? & ?). exists i, q. split_and!; [done..|]. nra.
Qed.

(** One step of the aggregator: a term is added, or the loss is left as
    it is. *)
Lemma add_term_within {P : Prop} (dec : Decision P) n iou acc (T : result (list tval)) :
  Forall2 (loss_within n) iou acc →
  (P → ∃ term, T = Ok term ∧ Forall2 term_within iou term) →
  ∃ acc', (if dec then T ≫= iadd acc else Ok acc) = Ok acc' ∧
          Forall2 (loss_within (n + 1)) iou acc'.
Proof.
  intros Hacc HT. destruct dec as [p|_].
  - destruct (HT p) as (term & -> & Hterm). rewrite bind_Ok_l.
    by apply iadd_within.
  - eexists. split; [done|].
    eapply Forall2_impl; [exact Hacc|]. intros v x. apply loss_within_le. lra.
Qed.

(** The IoU of each pair of a batch of proper pairs is a number of
    [[0, 1]], and [1 - iou] is the loss before any term. *)
Lemma proper_pairs_iou spans1 spans2 :
  Forall2 proper_pair spans1 spans2 →
  Forall tunit (diag (temporal_iou spans1 spans2).1) ∧
  Forall2 (loss_within 1) (diag (temporal_iou spans1 spans2).1)
          (one_minus (diag (temporal_iou spans1 spans2).1)).
Proof.
  intros H. rewrite diag_temporal_iou.
  assert (Forall tunit (zip_with pair_iou spans1 spans2)) as Hu.
  { induction H as [|a b l k (Va & Vb & Hpos) _ IH]; simpl; constructor; [|done].
    pose proof (pair_union_pos a b Va Vb Hpos).
    exists (pair_inter a b / pair_union a b). unfold pair_iou.
    rewrite qdiv_nonzero by lra. split; [done|].
    apply Qdiv_unit_interval;
      auto using pair_inter_nonneg, pair_inter_le_union. }
  split; [done|].
  apply Forall2_same_length_lookup. split.
  - unfold one_minus. by rewrite length_fmap.
  - intros k v x Hv. rewrite (one_minus_lookup _ _ _ Hv). intros [= <-].
    destruct (Forall_lookup_1 _ _ _ _ Hu Hv) as (i & -> & I0 & I1).
    exists i, (1 + - i). split_and!; [done..| |]; lra.
Qed.

Lemma tunit_le_one xs : Forall tunit xs → Forall (λ v, ∃ i, v = Fin i ∧ i <= 1) xs.
Proof.
  intros H. eapply Forall_impl; [exact H|]. intros v (i & -> & _ & ?). eauto.
Qed.

(** ** The second snapshot on a well-formed batch *)

Lemma to_clip_index_mono l_clip x y :
  (0 ≤ l_clip)%Z → x <= y →
  (Loss2.to_clip_index l_clip x ≤ Loss2.to_clip_index l_clip y)%Z.
Proof.
  intros Hl Hxy. rewrite !to_clip_index_spec.
  assert (round_half_even (x * inject_Z l_clip) ≤ round_half_even (y * inject_Z l_clip))%Z.
  { apply round_half_even_mono, Qmult_le_compat_r; [done|].
    change 0 with (inject_Z 0). rewrite <- Zle_Qle. lia. }
  lia.
Qed.

Lemma to_clip_span_within l_clip s :
  (1 ≤ l_clip)%Z → valid_span s → in_bounds l_clip (Loss2.to_clip_span l_clip s).
Proof.
  intros Hl Hs. unfold in_bounds, Loss2.to_clip_span. simpl.
  pose proof (to_clip_index_bounds l_clip s.1).
  pose proof (to_clip_index_bounds l_clip s.2).
  pose proof (to_clip_index_mono l_clip s.1 s.2 ltac:(lia) Hs). lia.
Qed.

(** X9: in the second snapshot a span with [end >= start] of a video with
    at least one clip is mapped to clip indices [0 <= start <= end <=
    l_clip - 1]; the clips it selects in a row of at least [l_clip]
    similarities are never none, and their mean is a number. *)
Theorem to_clip_span_in_bounds (l_clip : Z) (s : span) (row : list Q) :
  (1 ≤ l_clip ≤ Z.of_nat (length row))%Z → valid_span s →
  in_bounds l_clip (Loss2.to_clip_span l_clip s) ∧
  clamp_src (Z.of_nat (length row)) (Loss2.to_clip_span l_clip s)
  = Loss2.to_clip_span l_clip s ∧
  ∃ q, Loss2.src_sim (Z.of_nat (length row)) row (Loss2.to_clip_span l_clip s) = Fin q.
Proof.
  intros Hl Hs.
  pose proof (to_clip_span_within l_clip s ltac:(lia) Hs) as Hb.
  pose proof (in_bounds_le _ (Z.of_nat (length row)) _ Hb ltac:(lia)) as Hb'.
  split_and!; [done|by apply clamp_src_in_bounds|].
  unfold Loss2.src_sim. rewrite clamp_src_in_bounds by done.
  by apply range_mean_finite.
Qed.

Lemma to_clip_span_in_bounds_witness :
  in_bounds 2 (Loss2.to_clip_span 2 (1 # 4, 1)) ∧
  clamp_src 4 (Loss2.to_clip_span 2 (1 # 4, 1)) = Loss2.to_clip_span 2 (1 # 4, 1) ∧
  ∃ q, Loss2.src_sim 4 [1 # 10; 2 # 10; 3 # 10; 4 # 10] (Loss2.to_clip_span 2 (1 # 4, 1))
       = Fin q.
Proof.
  apply (to_clip_span_in_bounds 2 (1 # 4, 1) [1 # 10; 2 # 10; 3 # 10; 4 # 10]).
  - simpl. lia.
  - unfold valid_span. simpl. lra.
Defined.

Lemma append_at_lookup {A} i (x : A) groups g :
  groups !! i = Some g → append_at i x groups = Ok (<[i := g ++ [x]]> groups).
Proof. intros H. apply append_at_Ok. eauto. Qed.

Lemma concat_replicate_nil {A} n : concat (replicate n ([] : list A)) = [].
Proof. induction n as [|n IH]; [done|]. simpl. exact IH. Qed.

Lemma same_shape_replicate_nil {A B} n :
  same_shape (replicate n ([] : list A)) (replicate n ([] : list B)).
Proof.
  apply Forall2_same_length_lookup. rewrite !length_replicate.
  split; [done|]. by intros i a b [-> _]%lookup_replicate [-> _]%lookup_replicate.
Qed.

Lemma groups_wf_init bsz P : groups_wf bsz 0 P (replicate bsz [], replicate bsz []).
Proof.
  unfold groups_wf. simpl. rewrite length_replicate, concat_replicate_nil.
  split_and!; [done|apply same_shape_replicate_nil|done|..];
    by apply Forall_replicate.
Qed.

Lemma groups_wf_append bsz k (P : ispan → Prop) src tgt i s t :
  groups_wf bsz k P (src, tgt) → (i < bsz)%nat → P s → P t →
  ∃ src' tgt', append_at i s src = Ok src' ∧ append_at i t tgt = Ok tgt' ∧
               groups_wf bsz (S k) P (src', tgt').
Proof.
  intros (Hl & Hsh & Hc & Hs & Ht) Hi Ps Pt. simpl in *.
  destruct (lookup_lt_is_Some_2 src i) as [g Hg]; [lia|].
  destruct (Forall2_lookup_l _ _ _ _ _ Hsh Hg) as (h & Hh & Hgh).
  eexists _, _. split; [by apply append_at_lookup|].
  split; [by apply append_at_lookup|].
  unfold groups_wf. simpl. split_and!.
  - by rewrite length_insert.
  - apply Forall2_insert; [done|]. rewrite !length_app. simpl. lia.
  - rewrite (concat_insert_snoc _ _ _ _ Hg). lia.
  - apply Forall_insert; [done|]. apply Forall_app. split; [|by repeat constructor].
    exact (Forall_lookup_1 _ _ _ _ Hs Hg).
  - apply Forall_insert; [done|]. apply Forall_app. split; [|by repeat constructor].
    exact (Forall_lookup_1 _ _ _ _ Ht Hh).
Qed.

Lemma map_spans_wf bsz L spans1 spans2 idx durations :
  Forall valid_span spans1 → Forall valid_span spans2 →
  (length idx ≤ length spans1)%nat → (length idx ≤ length spans2)%nat →
  durations_wf bsz L durations idx →
  ∃ st, Loss2.map_spans bsz spans1 spans2 idx durations = Ok st ∧
        groups_wf bsz (length idx) (in_bounds (Z.of_nat L)) st.
Proof.
  intros Hv1 Hv2 Hl1 Hl2 Hd. unfold Loss2.map_spans.
  apply (for_enumerate_ok _ (λ k st, groups_wf bsz k (in_bounds (Z.of_nat L)) st)).
  - apply groups_wf_init.
  - intros k i [src tgt] Hk Hwf. cbn [fst snd]. change (0 + k)%nat with k.
    destruct (Forall_lookup_1 _ _ _ _ Hd Hk) as (Hi & d & Hdi & Hclip).
    pose proof (lookup_lt_Some _ _ _ Hk) as Hlt.
    apply index_Ok in Hdi. rewrite Hdi, bind_Ok_l. cbv zeta.
    destruct (index_lt spans1 k) as (s & Hs & ->); [lia|]. rewrite bind_Ok_l.
    destruct (index_lt spans2 k) as (t & Ht & Et); [lia|].
    destruct (groups_wf_append bsz k (in_bounds (Z.of_nat L)) src tgt i
                (Loss2.to_clip_span (d `div` 2) s) (Loss2.to_clip_span (d `div` 2) t))
      as (src' & tgt' & -> & E2 & Hwf'); [done..| | |].
    + eapply in_bounds_le; [apply to_clip_span_within|]; [lia| |lia].
      exact (Forall_lookup_1 _ _ _ _ Hv1 Hs).
    + eapply in_bounds_le; [apply to_clip_span_within|]; [lia| |lia].
      exact (Forall_lookup_1 _ _ _ _ Hv2 Ht).
    + rewrite bind_Ok_l, Et, bind_Ok_l, E2, bind_Ok_l. eauto.
Qed.

Section Terms2.
Variables (iou : list tval) (src tgt : list (list ispan)).
Variables (L : nat).
Hypothesis iou_unit : Forall tunit iou.
Hypothesis groups : groups_wf (length src) (length iou) (in_bounds (Z.of_nat L)) (src, tgt).
Hypothesis nonempty : (0 < length iou)%nat.

Lemma S_Diff2_within (logits : tensor2) :
  logits_wf logits → t_cols logits = L → length (t_rows logits) = length src →
  ∃ term, Loss2.S_Diff iou src tgt logits = Ok term ∧ Forall2 term_within iou term.
Proof.
  intros Hw HL Hrows. destruct groups as (_ & Hsh & Hc & Hs & Ht). simpl in *.
  unfold Loss2.S_Diff.
  destruct (video_loop_Forall (Loss2.sim_diff (Z.of_nat (t_cols logits)))
              (λ row, length row = t_cols logits ∧ Forall unit_interval row)
              (in_bounds (Z.of_nat L)) (in_bounds (Z.of_nat L)) tunit)
    with (rows := t_rows logits) (src := src) (tgt := tgt)
    as (out & -> & Hlen & Hout); [|done..|].
  { intros row s t [Hr Hu] Bs Bt. rewrite <- Hr. rewrite <- HL, <- Hr in Bs, Bt.
    by apply sim_diff_unit. }
  rewrite bind_Ok_l, stack_nonempty, bind_Ok_l by lia.
  rewrite broadcast_same_length
    by (unfold one_minus; rewrite length_fmap; lia).
  eexists. split; [done|].
  apply term_of_sims; [lia|by apply tunit_le_one|done].
Qed.

Lemma S_Q_P2_within (logits : tensor2) :
  logits_wf logits → t_cols logits = L → length (t_rows logits) = length src →
  ∃ term, Loss2.S_Q_P iou src logits = Ok term ∧ Forall2 term_within iou term.
Proof.
  intros Hw HL Hrows. destruct groups as (_ & Hsh & Hc & Hs & Ht). simpl in *.
  unfold Loss2.S_Q_P.
  destruct (video_loop1_Forall (Loss2.src_sim (Z.of_nat (t_cols logits)))
              (λ row, length row = t_cols logits ∧ Forall unit_interval row)
              (in_bounds (Z.of_nat L)) tunit)
    with (rows := t_rows logits) (src := src)
    as (out & -> & Hlen & Hout); [|done..|].
  { intros row s [Hr Hu] Bs. rewrite <- Hr. rewrite <- HL, <- Hr in Bs.
    by apply src_sim_unit. }
  rewrite bind_Ok_l, stack_nonempty, bind_Ok_l by lia.
  rewrite broadcast_same_length
    by (unfold one_minus; rewrite !length_fmap; lia).
  eexists. split; [done|].
  apply term_of_sims;
    [unfold one_minus; rewrite length_fmap; lia
    |by apply tunit_le_one|by apply one_minus_unit].
Qed.

Lemma S_GT_P2_within (v2v_sims : tensor3) :
  vid_feat_wf v2v_sims → v_len v2v_sims = L → length (v_mats v2v_sims) = length src →
  ∃ term, Loss2.S_GT_P iou src tgt v2v_sims = Ok term ∧ Forall2 term_within iou term.
Proof.
  intros Hw HL Hrows. destruct groups as (_ & Hsh & Hc & Hs & Ht). simpl in *.
  unfold Loss2.S_GT_P.
  destruct (video_loop_Forall Loss2.i2i_sim
              (λ m : list (list Q), length m = L ∧
                 Forall (λ row, length row = L ∧ Forall unit_interval row) m)
              (in_bounds (Z.of_nat L)) (in_bounds (Z.of_nat L)) tunit)
    with (rows := v_mats v2v_sims) (src := src) (tgt := tgt)
    as (out & -> & Hlen & Hout); [|done|done| |done|done|].
  { intros m s t [Hm Hu] Bs Bt. by apply (block_mean_unit L). }
  { by rewrite <- HL. }
  rewrite bind_Ok_l, stack_nonempty, bind_Ok_l by lia.
  rewrite broadcast_same_length
    by (unfold one_minus; rewrite !length_fmap; lia).
  eexists. split; [done|].
  apply term_of_sims;
    [unfold one_minus; rewrite length_fmap; lia
    |by apply tunit_le_one|by apply one_minus_unit].
Qed.

End Terms2.

Lemma proper_pairs_valid spans1 spans2 :
  Forall2 proper_pair spans1 spans2 →
  Forall valid_span spans1 ∧ Forall valid_span spans2.
Proof.
  induction 1 as [|a b l k (Va & Vb & _) _ [IH1 IH2]]; split; by constructor.
Qed.

Lemma loss_within_le_Forall2 n n' iou acc :
  n <= n' → Forall2 (loss_within n) iou acc → Forall2 (loss_within n') iou acc.
Proof.
  intros Hn H. eapply Forall2_impl; [exact H|]. intros v x. by apply loss_within_le.
Qed.

(** X10: the second snapshot on a well-formed batch.  Given one video index
    per row, naming a video of the batch with between 1 and [L] clips,
    pairs of spans with [end >= start] that are not both of length zero,
    and [(B, L)] and [(B, L, L)] similarities between 0 and 1, [new_loss]
    returns, whatever terms are enabled; the loss of each row is a number
    between [1 - iou] and [4 (1 - iou)], for the IoU of that row. *)
Theorem new_loss2_bounded (types : loss_types) (spans1 spans2 : list span)
    (sims : tensor2 * tensor3) (idx : list nat) (durations : list Z) :
  Forall2 proper_pair spans1 spans2 →
  length idx = length spans1 → (0 < length idx)%nat →
  logits_wf sims.1 → vid_feat_wf sims.2 →
  length (v_mats sims.2) = length (t_rows sims.1) → v_len sims.2 = t_cols sims.1 →
  durations_wf (length (t_rows sims.1)) (t_cols sims.1) durations idx →
  ∃ loss d, Loss2.new_loss types spans1 spans2 sims idx durations = Ok (loss, d) ∧
            length loss = length idx ∧
            Forall2 (loss_within 4) (diag (temporal_iou spans1 spans2).1) loss.
Proof.
  intros Hpairs Hidx Hne Hlog Hvid Hrows Hcols Hdur.
  destruct (proper_pairs_valid _ _ Hpairs) as [Hv1 Hv2].
  destruct (proper_pairs_iou _ _ Hpairs) as [Hu H1].
  pose proof (Forall2_length _ _ _ Hpairs) as Hlen.
  assert (length (diag (temporal_iou spans1 spans2).1) = length idx) as Hiou.
  { rewrite diag_temporal_iou, length_zip_with. lia. }
  unfold Loss2.new_loss. cbv zeta.
  set (iou := diag (temporal_iou spans1 spans2).1) in *.
  assert ((if decide (2%Z ∉ types)
           then length (t_rows sims.1) else length (v_mats sims.2))
          = length (t_rows sims.1)) as -> by (by destruct (decide _)).
  apply spans_valid_Forall in Hv1 as Hb1. apply spans_valid_Forall in Hv2 as Hb2.
  rewrite Hb1, Hb2. simpl py_assert. rewrite !bind_Ok_l.
  destruct (map_spans_wf (length (t_rows sims.1)) (t_cols sims.1)
              spans1 spans2 idx durations) as ([src tgt] & -> & Hwf);
    [done|done|lia|lia|done|].
  rewrite bind_Ok_l. cbv beta iota.
  pose proof Hwf as (Hsrc & _). simpl in Hsrc.
  rewrite <- Hiou, <- Hsrc in Hwf. rewrite <- Hiou in Hne.
  destruct (add_term_within (decide (1%Z ∈ types)) 1 iou (one_minus iou)
              (Loss2.S_Diff iou src tgt sims.1)) as (l1 & -> & W1); [done| |].
  { intros _. by apply (S_Diff2_within iou src tgt (t_cols sims.1)). }
  rewrite bind_Ok_l.
  destruct (add_term_within (decide (2%Z ∈ types)) (1 + 1) iou l1
              (Loss2.S_GT_P iou src tgt sims.2)) as (l2 & -> & W2); [done| |].
  { intros _. apply (S_GT_P2_within iou src tgt (t_cols sims.1)); [done..|lia]. }
  rewrite bind_Ok_l.
  destruct (add_term_within (decide (3%Z ∈ types)) (1 + 1 + 1) iou l2
              (Loss2.S_Q_P iou src sims.1)) as (l3 & -> & W3); [done| |].
  { intros _. by apply (S_Q_P2_within iou src tgt (t_cols sims.1)). }
  rewrite bind_Ok_l.
  pose proof (Forall2_length _ _ _ W3) as Hl3.
  destruct (save_pred_ok (length (t_rows sims.1)) iou l3 idx) as ([a b] & ->);
    [lia|lia| |].
  { eapply Forall_impl; [exact Hdur|]. by intros i [? _]. }
  rewrite bind_Ok_l. eexists _, _. split; [done|]. split; [lia|].
  eapply loss_within_le_Forall2; [|exact W3]. lra.
Qed.

Lemma new_loss2_bounded_witness :
  ∃ loss d,
    Loss2.new_loss {[1%Z; 2%Z; 3%Z]} [(0, 1 # 2); (1 # 4, 1)] [(0, 1 # 2); (0, 1)]
      (two_videos, Tensor3 4 [replicate 4 (replicate 4 (1 # 2));
                              replicate 4 (replicate 4 (1 # 4))])
      [0; 1]%nat [8; 6]%Z = Ok (loss, d) ∧
    length loss = 2%nat ∧
    Forall2 (loss_within 4)
      (diag (temporal_iou [(0, 1 # 2); (1 # 4, 1)] [(0, 1 # 2); (0, 1)]).1) loss.
Proof.
  apply (new_loss2_bounded {[1%Z; 2%Z; 3%Z]} [(0, 1 # 2); (1 # 4, 1)]
           [(0, 1 # 2); (0, 1)]
           (two_videos, Tensor3 4 [replicate 4 (replicate 4 (1 # 2));
                                   replicate 4 (replicate 4 (1 # 4))])
           [0; 1]%nat [8; 6]%Z).
  - repeat constructor; unfold valid_span; simpl; lra.
  - reflexivity.
  - simpl. lia.
  - repeat constructor; simpl; lra.
  - repeat constructor; simpl; lra.
  - reflexivity.
  - reflexivity.
  - repeat constructor; simpl; try lia; eexists; (split; [reflexivity|]);
      split; by vm_compute.
Defined.

(** ** The first snapshot on a well-formed batch *)

Lemma clamp_ordered vid_len s :
  (1 ≤ vid_len)%Z → ordered_from_zero s →
  in_bounds vid_len (clamp_src vid_len s) ∧ in_bounds vid_len (clamp_tgt vid_len s).
Proof.
  destruct s as [a b]. unfold ordered_from_zero, in_bounds, clamp_src, clamp_tgt.
  simpl. lia.
Qed.

Lemma round_spans_ordered L spans :
  Forall (λ s : span, 0 <= s.1 ∧ s.1 <= s.2) spans →
  Forall (λ s, ordered_from_zero (Loss1.span_int s)) (Loss1.round_spans L spans).
Proof.
  intros H. unfold Loss1.round_spans. apply Forall_fmap.
  eapply Forall_impl; [exact H|]. intros s [H0 H1].
  unfold ordered_from_zero, Loss1.span_int, compose. simpl.
  rewrite !Qtrunc_inject.
  assert (0 <= inject_Z (Z.of_nat L)) as HL.
  { change 0 with (inject_Z 0). rewrite <- Zle_Qle. lia. }
  split.
  - rewrite <- (round_half_even_inject 0). apply round_half_even_mono.
    change (inject_Z 0) with 0. by apply Qmult_le_0_compat.
  - apply round_half_even_mono. by apply Qmult_le_compat_r.
Qed.

Lemma group_pairs_wf bsz (P : ispan → Prop) spans1 spans2 idx :
  Forall (λ s, P (Loss1.span_int s)) spans1 →
  Forall (λ s, P (Loss1.span_int s)) spans2 →
  (length idx ≤ length spans1)%nat → (length idx ≤ length spans2)%nat →
  Forall (λ i, (i < bsz)%nat) idx →
  ∃ st, Loss1.group_pairs bsz spans1 spans2 idx = Ok st ∧
        groups_wf bsz (length idx) P st.
Proof.
  intros Hp1 Hp2 Hl1 Hl2 Hi. unfold Loss1.group_pairs.
  apply (for_enumerate_ok _ (λ k st, groups_wf bsz k P st)).
  - apply groups_wf_init.
  - intros k i [src tgt] Hk Hwf. cbn [fst snd]. change (0 + k)%nat with k.
    pose proof (Forall_lookup_1 _ _ _ _ Hi Hk) as Hlt. simpl in Hlt.
    pose proof (lookup_lt_Some _ _ _ Hk) as Hkl.
    destruct (index_lt spans1 k) as (s & Hs & ->); [lia|]. rewrite bind_Ok_l.
    destruct (index_lt spans2 k) as (t & Ht & Et); [lia|].
    destruct (groups_wf_append bsz k P src tgt i (Loss1.span_int s) (Loss1.span_int t))
      as (src' & tgt' & -> & E2 & Hwf'); [done..| | |].
    + exact (Forall_lookup_1 _ _ _ _ Hp1 Hs).
    + exact (Forall_lookup_1 _ _ _ _ Hp2 Ht).
    + rewrite bind_Ok_l, Et, bind_Ok_l, E2, bind_Ok_l. eauto.
Qed.

Section Terms1.
Variables (iou : list tval) (spans1 spans2 : list span) (idx : list nat).
Variables (L : nat).
Hypothesis iou_unit : Forall tunit iou.
Hypothesis length_iou : length iou = length idx.
Hypothesis nonempty : (0 < length idx)%nat.
Hypothesis clips : (0 < L)%nat.
Hypothesis ordered1 : Forall (λ s, ordered_from_zero (Loss1.span_int s)) spans1.
Hypothesis ordered2 : Forall (λ s, ordered_from_zero (Loss1.span_int s)) spans2.
Hypothesis rows1 : (length idx ≤ length spans1)%nat.
Hypothesis rows2 : (length idx ≤ length spans2)%nat.

Lemma S_Diff1_within (logits : tensor2) :
  logits_wf logits → t_cols logits = L →
  Forall (λ i, (i < length (t_rows logits))%nat) idx →
  ∃ term, Loss1.S_Diff iou spans1 spans2 logits idx = Ok term ∧
          Forall2 term_within iou term.
Proof.
  intros Hw HL Hi. unfold Loss1.S_Diff.
  destruct (group_pairs_wf (length (t_rows logits)) ordered_from_zero
              spans1 spans2 idx) as ([src tgt] & -> & Hl & Hsh & Hc & Hs & Ht);
    [done..|].
  rewrite bind_Ok_l. cbv beta iota. simpl in *.
  destruct (video_loop_Forall (Loss1.sim_diff (Z.of_nat (t_cols logits)))
              (λ row, length row = t_cols logits ∧ Forall unit_interval row)
              ordered_from_zero ordered_from_zero tunit)
    with (rows := t_rows logits) (src := src) (tgt := tgt)
    as (out & -> & Hlen & Hout); [|done..|].
  { intros row s t [Hr Hu] Bs Bt. rewrite <- Hr.
    destruct (clamp_ordered (Z.of_nat (length row)) s) as [B1 _]; [lia|done|].
    destruct (clamp_ordered (Z.of_nat (length row)) t) as [_ B2]; [lia|done|].
    unfold Loss1.sim_diff.
    destruct (range_mean_bounds 0 1 row _ B1 Hu) as (a & -> & A0 & A1).
    destruct (range_mean_bounds 0 1 row _ B2 Hu) as (b & -> & B0 & B1').
    exists (Qabs (a + - b)). split; [done|]. split.
    - apply Qabs_nonneg.
    - apply Qabs_Qle_condition. split; lra. }
  rewrite bind_Ok_l, stack_nonempty, bind_Ok_l by lia.
  rewrite broadcast_same_length
    by (unfold one_minus; rewrite length_fmap; lia).
  eexists. split; [done|].
  apply term_of_sims; [lia|by apply tunit_le_one|done].
Qed.

Lemma S_Q_P1_within (logits : tensor2) :
  logits_wf logits → t_cols logits = L →
  Forall (λ i, (i < length (t_rows logits))%nat) idx →
  ∃ term, Loss1.S_Q_P iou spans1 logits idx = Ok term ∧
          Forall2 term_within iou term.
Proof.
  intros Hw HL Hi. unfold Loss1.S_Q_P.
  destruct (group_pairs_wf (length (t_rows logits)) ordered_from_zero
              spans1 spans2 idx) as ([src tgt] & Hg & Hl & Hsh & Hc & Hs & Ht);
    [done..|].
  rewrite (group_pairs_spans _ _ _ _ _ _ Hg), bind_Ok_l. simpl in *.
  destruct (video_loop1_Forall (Loss1.src_sim (Z.of_nat (t_cols logits)))
              (λ row, length row = t_cols logits ∧ Forall unit_interval row)
              ordered_from_zero tunit)
    with (rows := t_rows logits) (src := src)
    as (out & -> & Hlen & Hout); [|done..|].
  { intros row s [Hr Hu] Bs. rewrite <- Hr.
    destruct (clamp_ordered (Z.of_nat (length row)) s) as [B1 _]; [lia|done|].
    unfold Loss1.src_sim.
    destruct (range_mean_bounds 0 1 row _ B1 Hu) as (a & -> & A0 & A1).
    by exists a. }
  rewrite bind_Ok_l, stack_nonempty, bind_Ok_l by lia.
  rewrite broadcast_same_length
    by (unfold one_minus; rewrite !length_fmap; lia).
  eexists. split; [done|].
  apply term_of_sims;
    [unfold one_minus; rewrite length_fmap; lia
    |by apply tunit_le_one|by apply one_minus_unit].
Qed.

Lemma S_GT_P1_within (v2v_sims : tensor3) :
  vid_feat_wf v2v_sims → v_len v2v_sims = L →
  Forall (λ i, (i < length (v_mats v2v_sims))%nat) idx →
  ∃ term, Loss1.S_GT_P iou spans1 spans2 v2v_sims idx = Ok term ∧
          Forall2 term_within iou term.
Proof.
  intros Hw HL Hi. unfold Loss1.S_GT_P.
  destruct (group_pairs_wf (length (v_mats v2v_sims)) ordered_from_zero
              spans1 spans2 idx) as ([src tgt] & -> & Hl & Hsh & Hc & Hs & Ht);
    [done..|].
  rewrite bind_Ok_l. cbv beta iota. simpl in *.
  destruct (video_loop_Forall (Loss1.i2i_sim (Z.of_nat (v_len v2v_sims)))
              (λ m : list (list Q), length m = L ∧
                 Forall (λ row, length row = L ∧ Forall unit_interval row) m)
              ordered_from_zero ordered_from_zero tunit)
    with (rows := v_mats v2v_sims) (src := src) (tgt := tgt)
    as (out & -> & Hlen & Hout); [|done|done| |done|done|].
  { intros m s t [Hm Hu] Bs Bt. rewrite HL.
    destruct (clamp_ordered (Z.of_nat L) s) as [B1 _]; [lia|done|].
    destruct (clamp_ordered (Z.of_nat L) t) as [_ B2]; [lia|done|].
    by apply (block_mean_unit L). }
  { by rewrite <- HL. }
  rewrite bind_Ok_l, stack_nonempty, bind_Ok_l by lia.
  rewrite broadcast_same_length
    by (unfold one_minus; rewrite !length_fmap; lia).
  eexists. split; [done|].
  apply term_of_sims;
    [unfold one_minus; rewrite length_fmap; lia
    |by apply tunit_le_one|by apply one_minus_unit].
Qed.

End Terms1.



(** * Exceptions of the aggregator *)

(** ** The class of the exceptions of each step *)

Section Raises.
Context (E : error → Prop).

Lemma raises_Ok {A} (x : A) : raises E (Ok x).
Proof. by intros e. Qed.

Lemma raises_Raise {A} e : E e → raises E (Raise e : result A).
Proof. by intros He e' [= <-]. Qed.

Lemma raises_bind {A B} (m : result A) (f : A → result B) :
  raises E m → (∀ x, m = Ok x → raises E (f x)) → raises E (m ≫= f).
Proof.
  intros Hm Hf. destruct m as [x|e]; simpl.
  - by apply Hf.
  - intros e' [= <-]. by apply Hm.
Qed.

Lemma raises_index {A} (l : list A) i : E IndexError → raises E (index l i).
Proof. intros He. unfold index. destruct (l !! i); [apply raises_Ok|by apply raises_Raise]. Qed.

Lemma raises_append_at {A} i (x : A) groups :
  E IndexError → raises E (append_at i x groups).
Proof.
  intros He. unfold append_at. apply raises_bind; [by apply raises_index|].
  intros. apply raises_Ok.
Qed.

Lemma raises_stack {A} (xs : list A) : E RuntimeError → raises E (stack xs).
Proof. intros He. destruct xs; [by apply raises_Raise|apply raises_Ok]. Qed.

Lemma raises_broadcast {A} (f : A → A → A) xs ys :
  E RuntimeError → raises E (broadcast f xs ys).
Proof.
  intros He. unfold broadcast. destruct (decide _); [apply raises_Ok|].
  destruct xs as [|x [|? ?]], ys as [|y [|? ?]];
    first [apply raises_Ok | by apply raises_Raise].
Qed.

Lemma raises_iadd acc term : E RuntimeError → raises E (iadd acc term).
Proof.
  intros He. unfold iadd. destruct (decide _); [apply raises_Ok|].
  destruct term as [|y [|? ?]]; first [apply raises_Ok | by apply raises_Raise].
Qed.

Lemma raises_for_enumerate {St} (body : nat → nat → St → result St) b idx st :
  (∀ b i s, raises E (body b i s)) → raises E (for_enumerate body b idx st).
Proof.
  intros Hb. revert b st. induction idx as [|i idx IH]; intros b st; simpl.
  - apply raises_Ok.
  - apply raises_bind; [apply Hb|]. intros. apply IH.
Qed.

Lemma raises_for_each {A B} (f : A → result B) l :
  (∀ x, raises E (f x)) → raises E (for_each l f).
Proof.
  intros Hf. induction l as [|x l IH]; [apply raises_Ok|].
  rewrite for_each_cons. apply raises_bind; [apply Hf|]. intros.
  apply raises_bind; [apply IH|]. intros. apply raises_Ok.
Qed.

Hypothesis index_error : E IndexError.
Hypothesis runtime_error : E RuntimeError.

Lemma raises_video_loop {T A} (body : T → ispan → ispan → A) rows src tgt :
  raises E (video_loop rows src tgt body).
Proof.
  unfold video_loop. apply raises_bind; [|intros; apply raises_Ok].
  apply raises_for_each. intros ir.
  apply raises_bind; [by apply raises_index|]. intros.
  apply raises_for_each. intros js.
  apply raises_bind; [by apply raises_index|]. intros.
  apply raises_bind; [by apply raises_index|]. intros. apply raises_Ok.
Qed.

Lemma raises_video_loop1 {T A} (body : T → ispan → A) rows src :
  raises E (video_loop1 rows src body).
Proof.
  unfold video_loop1. apply raises_bind; [|intros; apply raises_Ok].
  apply raises_for_each. intros ir.
  apply raises_bind; [by apply raises_index|]. intros. apply raises_Ok.
Qed.

Lemma raises_term (sims : result (list tval)) (f : list tval → list tval) iou :
  raises E sims →
  raises E (s ← sims; s ← stack s; broadcast tmul (one_minus iou) (f s)).
Proof.
  intros Hs. apply raises_bind; [done|]. intros.
  apply raises_bind; [by apply raises_stack|]. intros.
  by apply raises_broadcast.
Qed.

Lemma raises_group_pairs bsz spans1 spans2 idx :
  raises E (Loss1.group_pairs bsz spans1 spans2 idx).
Proof.
  apply raises_for_enumerate. intros b i st.
  apply raises_bind; [by apply raises_index|]. intros.
  apply raises_bind; [by apply raises_append_at|]. intros.
  apply raises_bind; [by apply raises_index|]. intros.
  apply raises_bind; [by apply raises_append_at|]. intros. apply raises_Ok.
Qed.

Lemma raises_group_spans bsz spans idx :
  raises E (Loss1.group_spans bsz spans idx).
Proof.
  apply raises_for_enumerate. intros b i st.
  apply raises_bind; [by apply raises_index|]. intros.
  by apply raises_append_at.
Qed.

Lemma raises_map_spans bsz spans1 spans2 idx durations :
  raises E (Loss2.map_spans bsz spans1 spans2 idx durations).
Proof.
  apply raises_for_enumerate. intros b i st.
  apply raises_bind; [by apply raises_index|]. intros. cbv zeta.
  apply raises_bind; [by apply raises_index|]. intros.
  apply raises_bind; [by apply raises_append_at|]. intros.
  apply raises_bind; [by apply raises_index|]. intros.
  apply raises_bind; [by apply raises_append_at|]. intros. apply raises_Ok.
Qed.

Lemma raises_save_pred bsz iou new_loss idx :
  raises E (Loss2.save_pred bsz iou new_loss idx).
Proof.
  apply raises_for_enumerate. intros b i st.
  apply raises_bind; [by apply raises_index|]. intros.
  apply raises_bind; [by apply raises_append_at|]. intros.
  apply raises_bind; [by apply raises_index|]. intros.
  apply raises_bind; [by apply raises_append_at|]. intros. apply raises_Ok.
Qed.

Lemma raises_S_Diff1 iou spans1 spans2 logits idx :
  raises E (Loss1.S_Diff iou spans1 spans2 logits idx).
Proof.
  unfold Loss1.S_Diff. apply raises_bind; [apply raises_group_pairs|].
  intros [src tgt] _. apply (raises_term _ id). apply raises_video_loop.
Qed.

Lemma raises_S_GT_P1 iou spans1 spans2 v2v_sims idx :
  raises E (Loss1.S_GT_P iou spans1 spans2 v2v_sims idx).
Proof.
  unfold Loss1.S_GT_P. apply raises_bind; [apply raises_group_pairs|].
  intros [src tgt] _. apply (raises_term _ one_minus). apply raises_video_loop.
Qed.

Lemma raises_S_Q_P1 iou spans logits idx :
  raises E (Loss1.S_Q_P iou spans logits idx).
Proof.
  unfold Loss1.S_Q_P. apply raises_bind; [apply raises_group_spans|].
  intros src _. apply (raises_term _ one_minus). apply raises_video_loop1.
Qed.

Lemma raises_S_Diff2 iou src tgt logits : raises E (Loss2.S_Diff iou src tgt logits).
Proof. apply (raises_term _ id). apply raises_video_loop. Qed.

Lemma raises_S_GT_P2 iou src tgt v2v_sims : raises E (Loss2.S_GT_P iou src tgt v2v_sims).
Proof. apply (raises_term _ one_minus). apply raises_video_loop. Qed.

Lemma raises_S_Q_P2 iou src logits : raises E (Loss2.S_Q_P iou src logits).
Proof. apply (raises_term _ one_minus). apply raises_video_loop1. Qed.

Lemma raises_add_term {P : Prop} (dec : Decision P) acc (T : result (list tval)) :
  raises E T → raises E (if dec then T ≫= iadd acc else Ok acc).
Proof.
  intros HT. destruct dec; [|apply raises_Ok].
  apply raises_bind; [done|]. intros. by apply raises_iadd.
Qed.

End Raises.

(** ** After the two [assert]s *)

Lemma new_loss1_raises (E : error → Prop) types spans1 spans2 sims idx :
  E IndexError → E RuntimeError →
  let L := if decide (2%Z ∉ types) then t_cols sims.1 else v_len sims.2 in
  spans_valid (Loss1.round_spans L spans1) = true →
  spans_valid (Loss1.round_spans L spans2) = true →
  raises E (Loss1.new_loss types spans1 spans2 sims idx).
Proof.
  intros Hi Hr L H1 H2. unfold Loss1.new_loss. cbv zeta. fold L.
  rewrite H1, H2. simpl py_assert. rewrite !bind_Ok_l.
  apply raises_bind; [by apply raises_add_term, raises_S_Diff1|]. intros.
  apply raises_bind; [by apply raises_add_term, raises_S_GT_P1|]. intros.
  apply raises_bind; [by apply raises_add_term, raises_S_Q_P1|]. intros.
  apply raises_Ok.
Qed.

Lemma new_loss2_raises (E : error → Prop) types spans1 spans2 sims idx durations :
  E IndexError → E RuntimeError →
  spans_valid spans1 = true → spans_valid spans2 = true →
  raises E (Loss2.new_loss types spans1 spans2 sims idx durations).
Proof.
  intros Hi Hr H1 H2. unfold Loss2.new_loss. cbv zeta.
  rewrite H1, H2. simpl py_assert. rewrite !bind_Ok_l.
  apply raises_bind; [by apply raises_map_spans|]. intros [src tgt] _.
  apply raises_bind; [by apply raises_add_term, raises_S_Diff2|]. intros.
  apply raises_bind; [by apply raises_add_term, raises_S_GT_P2|]. intros.
  apply raises_bind; [by apply raises_add_term, raises_S_Q_P2|]. intros.
  apply raises_bind; [by apply raises_save_pred|]. intros [a b] _.
  apply raises_Ok.
Qed.

Lemma new_loss1_invalid types spans1 spans2 sims idx :
  let L := if decide (2%Z ∉ types) then t_cols sims.1 else v_len sims.2 in
  spans_valid (Loss1.round_spans L spans1) = false ∨
  spans_valid (Loss1.round_spans L spans2) = false →
  Loss1.new_loss types spans1 spans2 sims idx = Raise AssertionError.
Proof.
  intros L H. unfold Loss1.new_loss. cbv zeta. fold L.
  destruct (spans_valid (Loss1.round_spans L spans1)); [|done].
  by destruct H as [?| ->].
Qed.

Lemma new_loss2_invalid types spans1 spans2 sims idx durations :
  spans_valid spans1 = false ∨ spans_valid spans2 = false →
  Loss2.new_loss types spans1 spans2 sims idx durations = Raise AssertionError.
Proof.
  intros H. unfold Loss2.new_loss. cbv zeta.
  destruct (spans_valid spans1); [|done].
  by destruct H as [?| ->].
Qed.

(** X12: [new_loss] of the second snapshot fails with the failure of an
    [assert] if and only if some row of one of the two batches has
    [end < start]; on rows with [end >= start] its only failures are
    those of an index out of range and of a tensor operation. *)
Theorem new_loss2_assertion_iff (types : loss_types) (spans1 spans2 : list span)
    (sims : tensor2 * tensor3) (idx : list nat) (durations : list Z) :
  (Loss2.new_loss types spans1 spans2 sims idx durations = Raise AssertionError
   ↔ Exists (λ s : span, s.2 < s.1) (spans1 ++ spans2)) ∧
  (Forall valid_span (spans1 ++ spans2) →
   ∀ e, Loss2.new_loss types spans1 spans2 sims idx durations = Raise e →
        e = IndexError ∨ e = RuntimeError).
Proof.
  rewrite Exists_app, Forall_app, <- !spans_invalid_Exists, <- !spans_valid_Forall.
  split; [split|].
  - intros H.
    destruct (spans_valid spans1) eqn:E1; [|by left].
    destruct (spans_valid spans2) eqn:E2; [|by right].
    by destruct (new_loss2_raises not_assertion types spans1 spans2 sims idx durations
                   ltac:(done) ltac:(done) E1 E2 _ H).
  - apply new_loss2_invalid.
  - intros [E1 E2] e.
    apply (new_loss2_raises (λ e, e = IndexError ∨ e = RuntimeError)); auto.
Qed.


(** ** A row of a video that is not in the batch *)

Lemma for_enumerate_fails {St} (body : nat → nat → St → result St)
    (I : St → Prop) b idx st k i :
  idx !! k = Some i → I st →
  (∀ b' i' s s', I s → body b' i' s = Ok s' → I s') →
  (∀ s, I s → ∃ e, body (b + k)%nat i s = Raise e) →
  ∃ e, for_enumerate body b idx st = Raise e.
Proof.
  intros Hk HI Hkeep. revert b k st Hk HI.
  induction idx as [|i0 idx IH]; intros b k st Hk HI Hfail; [done|].
  simpl. destruct k as [|k].
  - injection Hk as ->. destruct (Hfail st HI) as [e He].
    rewrite Nat.add_0_r in He. rewrite He. eauto.
  - destruct (body b i0 st) as [s1|e] eqn:Hb; [|simpl; eauto]. simpl.
    apply (IH (S b) k s1 Hk); [by eapply Hkeep|].
    intros s Hs. rewrite Nat.add_succ_l, <- Nat.add_succ_r. by apply Hfail.
Qed.

Lemma raises_only {A} (m : result A) e0 :
  raises (λ e, e = e0) m → (∃ e, m = Raise e) → m = Raise e0.
Proof. intros H [e He]. by rewrite He, (H e He). Qed.

Lemma append_at_ge {A} i (x : A) groups :
  (length groups ≤ i)%nat → append_at i x groups = Raise IndexError.
Proof.
  intros H. unfold append_at, index. by rewrite lookup_ge_None_2.
Qed.

Lemma append_at_length {A} i (x : A) groups groups' :
  append_at i x groups = Ok groups' → length groups' = length groups.
Proof. intros (g & _ & ->)%append_at_Ok. apply length_insert. Qed.

Lemma group_pairs_unknown bsz spans1 spans2 idx k i :
  idx !! k = Some i → (bsz ≤ i)%nat →
  Loss1.group_pairs bsz spans1 spans2 idx = Raise IndexError.
Proof.
  intros Hk Hi. apply raises_only; [by apply raises_group_pairs|].
  apply (for_enumerate_fails _ (λ st, length st.1 = bsz) _ _ _ k i Hk).
  - simpl. apply length_replicate.
  - intros b' i' [a b] s' Hl. simpl in *.
    intros (s & _ & (a1 & Ha1 & (t & _ & (b1 & _ & [= <-])%bind_Ok)%bind_Ok
      )%bind_Ok)%bind_Ok.
    simpl. by rewrite (append_at_length _ _ _ _ Ha1).
  - intros [a b] Hl. cbn [fst snd] in *. change (0 + k)%nat with k.
    destruct (index spans1 k) as [s|e]; [|simpl; eauto]. rewrite bind_Ok_l.
    rewrite append_at_ge by lia. simpl. eauto.
Qed.

Lemma group_spans_unknown bsz spans idx k i :
  idx !! k = Some i → (bsz ≤ i)%nat →
  Loss1.group_spans bsz spans idx = Raise IndexError.
Proof.
  intros Hk Hi. apply raises_only; [by apply raises_group_spans|].
  apply (for_enumerate_fails _ (λ st, length st = bsz) _ _ _ k i Hk).
  - apply length_replicate.
  - intros b' i' a s' Hl (s & _ & Ha)%bind_Ok.
    by rewrite (append_at_length _ _ _ _ Ha).
  - intros a Hl. change (0 + k)%nat with k.
    destruct (index spans k) as [s|e]; [|simpl; eauto]. rewrite bind_Ok_l.
    rewrite append_at_ge by lia. eauto.
Qed.

Lemma map_spans_unknown bsz spans1 spans2 idx durations k i :
  idx !! k = Some i → (length durations ≤ i)%nat ∨ (bsz ≤ i)%nat →
  Loss2.map_spans bsz spans1 spans2 idx durations = Raise IndexError.
Proof.
  intros Hk Hi. apply raises_only; [by apply raises_map_spans|].
  apply (for_enumerate_fails _ (λ st, length st.1 = bsz) _ _ _ k i Hk).
  - simpl. apply length_replicate.
  - intros b' i' [a b] s' Hl. simpl in *.
    intros (d & _ & (s & _ & (a1 & Ha1 & (t & _ & (b1 & _ & [= <-])%bind_Ok)%bind_Ok
      )%bind_Ok)%bind_Ok)%bind_Ok.
    simpl. by rewrite (append_at_length _ _ _ _ Ha1).
  - intros [a b] Hl. cbn [fst snd] in *. change (0 + k)%nat with k.
    destruct (index durations i) as [d|e] eqn:Hd; [|simpl; eauto]. rewrite bind_Ok_l.
    cbv zeta.
    destruct Hi as [Hi|Hi].
    { apply index_Ok, lookup_lt_Some in Hd. lia. }
    destruct (index spans1 k) as [s|e]; [|simpl; eauto]. rewrite bind_Ok_l.
    rewrite append_at_ge by lia. simpl. eauto.
Qed.

(** X14: in the second snapshot a row whose video index has no duration,
    or is not below the number of videos of the similarities, makes
    [new_loss] fail with an index out of range, whatever terms are
    enabled, on rows with [end >= start]. *)
Theorem new_loss2_unknown_video (types : loss_types) (spans1 spans2 : list span)
    (sims : tensor2 * tensor3) (idx : list nat) (durations : list Z) (k i : nat) :
  Forall valid_span spans1 → Forall valid_span spans2 →
  idx !! k = Some i →
  (length durations ≤ i)%nat ∨
  (length (t_rows sims.1) ≤ i ∧ length (v_mats sims.2) ≤ i)%nat →
  Loss2.new_loss types spans1 spans2 sims idx durations = Raise IndexError.
Proof.
  intros Hv1%spans_valid_Forall Hv2%spans_valid_Forall Hk Hi.
  unfold Loss2.new_loss. cbv zeta.
  rewrite Hv1, Hv2. simpl py_assert. rewrite !bind_Ok_l.
  rewrite (map_spans_unknown _ _ _ _ _ k i Hk); [done|].
  destruct Hi as [?|[? ?]]; [by left|right]. by destruct (decide _).
Qed.

Lemma new_loss2_unknown_video_witness :
  Loss2.new_loss ∅ [(0, 1 # 2); (1 # 4, 1)] [(0, 1 # 2); (0, 1)]
    (two_videos, Tensor3 4 []) [0; 2]%nat [8; 8]%Z = Raise IndexError.
Proof.
  apply (new_loss2_unknown_video ∅ [(0, 1 # 2); (1 # 4, 1)] [(0, 1 # 2); (0, 1)]
           (two_videos, Tensor3 4 []) [0; 2]%nat [8; 8]%Z 1 2).
  - repeat constructor; unfold valid_span; simpl; lra.
  - repeat constructor; unfold valid_span; simpl; lra.
  - reflexivity.
  - left. simpl. lia.
Defined.

(** X15: in the first snapshot [idx] is read by the similarity terms
    alone: with a term enabled, a row whose video index is not below the
    number of videos of the similarities makes [new_loss] fail with an
    index out of range, on rows with [end >= start]. *)
Theorem new_loss1_unknown_video (types : loss_types) (spans1 spans2 : list span)
    (sims : tensor2 * tensor3) (idx : list nat) (k i : nat) :
  Forall valid_span spans1 → Forall valid_span spans2 → some_term types →
  idx !! k = Some i →
  (length (t_rows sims.1) ≤ i)%nat → (length (v_mats sims.2) ≤ i)%nat →
  Loss1.new_loss types spans1 spans2 sims idx = Raise IndexError.
Proof.
  intros Hv1 Hv2 Hterm Hk Hi1 Hi2.
  unfold Loss1.new_loss. cbv zeta.
  rewrite !round_spans_valid by done. simpl py_assert. rewrite !bind_Ok_l.
  unfold Loss1.S_Diff, Loss1.S_GT_P, Loss1.S_Q_P.
  rewrite !(group_pairs_unknown _ _ _ _ k i Hk) by done.
  rewrite (group_spans_unknown _ _ _ k i Hk) by done.
  destruct (decide (1%Z ∈ types)); [done|].
  destruct (decide (2%Z ∈ types)); [done|].
  destruct (decide (3%Z ∈ types)); [done|].
  unfold some_term in Hterm. tauto.
Qed.

Lemma new_loss1_unknown_video_witness :
  Loss1.new_loss {[3%Z]} [(0, 1 # 2); (1 # 4, 1)] [(0, 1 # 2); (0, 1)]
    (two_videos, Tensor3 4 []) [0; 2]%nat = Raise IndexError.
Proof.
  apply (new_loss1_unknown_video {[3%Z]} [(0, 1 # 2); (1 # 4, 1)] [(0, 1 # 2); (0, 1)]
           (two_videos, Tensor3 4 []) [0; 2]%nat 1 2).
  - repeat constructor; unfold valid_span; simpl; lra.
  - repeat constructor; unfold valid_span; simpl; lra.
  - right. right. by vm_compute.
  - reflexivity.
  - simpl. lia.
  - simpl. lia.
Defined.

(** ** A batch without rows *)

Lemma video_loop_empty {T A} (body : T → ispan → ispan → A) rows n :
  n = length rows →
  video_loop rows (replicate n []) (replicate n []) body = Ok [].
Proof.
  intros ->.
  destruct (video_loop_Forall body (λ _, True) (λ _, True) (λ _, True) (λ _, True))
    with (rows := rows) (src := replicate (length rows) ([] : list ispan))
         (tgt := replicate (length rows) ([] : list ispan))
    as (out & -> & Hlen & _).
  - done.
  - apply length_replicate.
  - apply same_shape_replicate_nil.
  - by apply Forall_true.
  - apply Forall_true. intros. by apply Forall_true.
  - apply Forall_true. intros. by apply Forall_true.
  - rewrite concat_replicate_nil in Hlen. by destruct out.
Qed.

Lemma video_loop1_empty {T A} (body : T → ispan → A) rows n :
  n = length rows → video_loop1 rows (replicate n []) body = Ok [].
Proof.
  intros ->.
  destruct (video_loop1_Forall body (λ _, True) (λ _, True) (λ _, True))
    with (rows := rows) (src := replicate (length rows) ([] : list ispan))
    as (out & -> & Hlen & _).
  - done.
  - apply length_replicate.
  - by apply Forall_true.
  - apply Forall_true. intros. by apply Forall_true.
  - rewrite concat_replicate_nil in Hlen. by destruct out.
Qed.

(** X16: with a similarity term enabled and no row in [idx], [new_loss]
    fails in [torch.stack], which refuses the empty list of the
    similarities: in the first snapshot always, in the second when the two
    similarity tensors hold as many videos. *)
Theorem new_loss_empty_idx (types : loss_types) (spans1 spans2 : list span)
    (sims : tensor2 * tensor3) (durations : list Z) :
  Forall valid_span spans1 → Forall valid_span spans2 → some_term types →
  Loss1.new_loss types spans1 spans2 sims [] = Raise RuntimeError ∧
  (length (v_mats sims.2) = length (t_rows sims.1) →
   Loss2.new_loss types spans1 spans2 sims [] durations = Raise RuntimeError).
Proof.
  intros Hv1 Hv2 Hterm. split.
  - unfold Loss1.new_loss. cbv zeta.
    rewrite !round_spans_valid by done. simpl py_assert. rewrite !bind_Ok_l.
    unfold Loss1.S_Diff, Loss1.S_GT_P, Loss1.S_Q_P, Loss1.group_pairs,
      Loss1.group_spans.
    cbn [for_enumerate]. rewrite !bind_Ok_l. cbv beta iota.
    rewrite !video_loop_empty, video_loop1_empty by done.
    destruct (decide (1%Z ∈ types)); [done|].
    destruct (decide (2%Z ∈ types)); [done|].
    destruct (decide (3%Z ∈ types)); [done|].
    unfold some_term in Hterm. tauto.
  - intros Hrows. unfold Loss2.new_loss. cbv zeta.
    apply spans_valid_Forall in Hv1, Hv2.
    rewrite Hv1, Hv2. simpl py_assert. rewrite !bind_Ok_l.
    assert ((if decide (2%Z ∉ types)
             then length (t_rows sims.1) else length (v_mats sims.2))
            = length (t_rows sims.1)) as -> by (by destruct (decide _)).
    unfold Loss2.map_spans. cbn [for_enumerate]. rewrite bind_Ok_l. cbv beta iota.
    unfold Loss2.S_Diff, Loss2.S_GT_P, Loss2.S_Q_P.
    rewrite !video_loop_empty, video_loop1_empty by done.
    destruct (decide (1%Z ∈ types)); [done|].
    destruct (decide (2%Z ∈ types)); [done|].
    destruct (decide (3%Z ∈ types)); [done|].
    unfold some_term in Hterm. tauto.
Qed.

Lemma new_loss_empty_idx_witness :
  Loss1.new_loss {[1%Z]} [] [] (two_videos, Tensor3 4 []) [] = Raise RuntimeError.
Proof.
  apply (new_loss_empty_idx {[1%Z]} [] [] (two_videos, Tensor3 4 []) []).
  - constructor.
  - constructor.
  - left. by vm_compute.
Defined.

(** * The grouping of the rows by video *)

Lemma rows_of_nil i : rows_of i [] = [].
Proof. done. Qed.

Lemma rows_of_snoc i idx j :
  rows_of i (idx ++ [j]) =
  rows_of i idx ++ (if decide (j = i) then [length idx] else []).
Proof.
  unfold rows_of, enumerate. rewrite imap_app, filter_app, fmap_app. f_equal.
  simpl. rewrite Nat.add_0_r. unfold filter. simpl.
  by destruct (decide (j = i)).
Qed.

Lemma rows_of_take_S i idx k j :
  idx !! k = Some j →
  rows_of i (take (S k) idx) =
  rows_of i (take k idx) ++ (if decide (j = i) then [k] else []).
Proof.
  intros Hk. rewrite (take_S_r _ _ _ Hk), rows_of_snoc, length_take.
  apply lookup_lt_Some in Hk. by rewrite Nat.min_l by lia.
Qed.

Lemma rows_of_lookup i idx b : b ∈ rows_of i idx → idx !! b = Some i.
Proof.
  induction idx as [|j idx IH] using rev_ind; [by intros ?%elem_of_nil|].
  rewrite rows_of_snoc. intros [H|H]%elem_of_app.
  - apply lookup_app_l_Some. by apply IH.
  - destruct (decide (j = i)) as [->|]; [|by apply elem_of_nil in H].
    apply list_elem_of_singleton in H as ->.
    by rewrite lookup_app_r, Nat.sub_diag.
Qed.

Lemma grouped_init {A} (R : nat → nat → A → Prop) bsz :
  grouped R [] (replicate bsz []).
Proof. intros i g [-> _]%lookup_replicate. constructor. Qed.

Lemma grouped_append {A} (R : nat → nat → A → Prop) idx k i x groups groups' :
  idx !! k = Some i → grouped R (take k idx) groups → R i k x →
  append_at i x groups = Ok groups' →
  grouped R (take (S k) idx) groups'.
Proof.
  intros Hk Hg Hx (g & Hi & ->)%append_at_Ok j g' Hj.
  rewrite (rows_of_take_S _ _ _ _ Hk).
  destruct (decide (i = j)) as [<-|Hne].
  - rewrite list_lookup_insert_eq in Hj by (by eapply lookup_lt_Some).
    injection Hj as <-. apply Forall2_app; [by apply Hg|]. by repeat constructor.
  - rewrite list_lookup_insert_ne in Hj by done.
    rewrite app_nil_r. by apply Hg.
Qed.

Lemma grouped_full {A} (R : nat → nat → A → Prop) idx groups :
  grouped R (take (length idx) idx) groups → grouped R idx groups.
Proof. by rewrite firstn_all. Qed.

(** The groups have the shape of the rows of each video. *)
Lemma grouped_shape {A} (R : nat → nat → A → Prop) idx groups :
  grouped R idx groups →
  same_shape ((λ i, rows_of i idx) <$> seq 0 (length groups)) groups.
Proof.
  intros Hg. apply Forall2_same_length_lookup. split.
  - by rewrite length_fmap, length_seq.
  - intros i r g Hr Hi. rewrite list_lookup_fmap in Hr.
    destruct (seq 0 (length groups) !! i) as [i'|] eqn:Hs; [|done].
    apply lookup_seq in Hs as [-> _]. injection Hr as <-.
    exact (Forall2_length _ _ _ (Hg i g Hi)).
Qed.

Lemma concat_lookup_inv {A} (l : list (list A)) p x :
  concat l !! p = Some x →
  ∃ i j g, l !! i = Some g ∧ g !! j = Some x ∧ p = loop_pos l i j.
Proof.
  revert p. induction l as [|g l IH]; intros p; [done|]. simpl.
  intros [H|[Hge H]]%lookup_app_Some.
  - exists 0%nat, p, g. by split_and!.
  - destruct (IH _ H) as (i & j & g' & Hi & Hj & Hp).
    exists (S i), j, g'. split_and!; [done..|].
    unfold loop_pos in *. simpl. rewrite length_app. lia.
Qed.

(** The row met at place [p] of the loops is row [j] of the video [i] it
    belongs to, and [groups] has a value for it there. *)
Lemma grouped_loop_order {A} (R : nat → nat → A → Prop) idx groups p b :
  grouped R idx groups →
  loop_order (length groups) idx !! p = Some b →
  ∃ i j x, idx !! b = Some i ∧ rows_of i idx !! j = Some b ∧
           entry groups i j = Some x ∧ R i b x ∧ p = loop_pos groups i j.
Proof.
  intros Hg Hp.
  destruct (concat_lookup_inv _ _ _ Hp) as (i & j & r & Hr & Hj & ->).
  rewrite list_lookup_fmap in Hr.
  destruct (seq 0 (length groups) !! i) as [i'|] eqn:Hs; [|done].
  apply lookup_seq in Hs as [-> Hlt]. injection Hr as <-. simpl in *.
  destruct (lookup_lt_is_Some_2 groups i Hlt) as [g Hi].
  destruct (Forall2_lookup_l _ _ _ _ _ (Hg i g Hi) Hj) as (x & Hx & HR).
  exists i, j, x. split_and!.
  - apply (rows_of_lookup i). by eapply list_elem_of_lookup_2.
  - done.
  - unfold entry. by rewrite Hi.
  - done.
  - apply loop_pos_same_shape. by eapply grouped_shape.
Qed.

(** ** The groups of the second snapshot *)

Lemma map_spans_grouped bsz spans1 spans2 idx durations src tgt :
  Loss2.map_spans bsz spans1 spans2 idx durations = Ok (src, tgt) →
  length src = bsz ∧ length tgt = bsz ∧
  grouped (λ i b s, ∃ a dur, spans1 !! b = Some a ∧ durations !! i = Some dur ∧
                             s = Loss2.to_clip_span (dur `div` 2) a) idx src ∧
  grouped (λ i b s, ∃ a dur, spans2 !! b = Some a ∧ durations !! i = Some dur ∧
                             s = Loss2.to_clip_span (dur `div` 2) a) idx tgt.
Proof.
  intros H.
  set (R := λ (spans : list span) (i b : nat) (s : ispan),
    ∃ a dur, spans !! b = Some a ∧ durations !! i = Some dur ∧
             s = Loss2.to_clip_span (dur `div` 2) a).
  cut (length src = bsz ∧ length tgt = bsz ∧
       grouped (R spans1) (take (length idx) idx) src ∧
       grouped (R spans2) (take (length idx) idx) tgt).
  { intros (? & ? & ? & ?). split_and!; [done..| |]; by apply grouped_full. }
  apply (for_enumerate_inv _
    (λ k st, length st.1 = bsz ∧ length st.2 = bsz ∧
             grouped (R spans1) (take k idx) st.1 ∧
             grouped (R spans2) (take k idx) st.2) _ _ _ _ H).
  - simpl. rewrite !length_replicate. split_and!; [done..| |]; apply grouped_init.
  - intros k i [a b] [a' b'] Hk (La & Lb & Ga & Gb). cbn [fst snd] in *.
    change (0 + k)%nat with k.
    intros (d & Hd%index_Ok & (s & Hs%index_Ok & (a1 & Ha1 & (t & Ht%index_Ok &
      (b1 & Hb1 & [= <- <-])%bind_Ok)%bind_Ok)%bind_Ok)%bind_Ok)%bind_Ok.
    split_and!.
    + by rewrite (append_at_length _ _ _ _ Ha1).
    + by rewrite (append_at_length _ _ _ _ Hb1).
    + eapply grouped_append; [exact Hk|exact Ga| |exact Ha1]. by exists s, d.
    + eapply grouped_append; [exact Hk|exact Gb| |exact Hb1]. by exists t, d.
Qed.

Lemma save_pred_grouped bsz (iou new_loss : list tval) idx a b :
  Loss2.save_pred bsz iou new_loss idx = Ok (a, b) →
  length a = bsz ∧ length b = bsz ∧
  grouped (λ _ r x, iou !! r = Some x) idx a ∧
  grouped (λ _ r x, new_loss !! r = Some x) idx b.
Proof.
  intros H.
  cut (length a = bsz ∧ length b = bsz ∧
       grouped (λ _ r x, iou !! r = Some x) (take (length idx) idx) a ∧
       grouped (λ _ r x, new_loss !! r = Some x) (take (length idx) idx) b).
  { intros (? & ? & ? & ?). split_and!; [done..| |]; by apply grouped_full. }
  apply (for_enumerate_inv _
    (λ k st, length st.1 = bsz ∧ length st.2 = bsz ∧
             grouped (λ _ r x, iou !! r = Some x) (take k idx) st.1 ∧
             grouped (λ _ r x, new_loss !! r = Some x) (take k idx) st.2) _ _ _ _ H).
  - simpl. rewrite !length_replicate. split_and!; [done..| |]; apply grouped_init.
  - intros k i [a0 b0] [a' b'] Hk (La & Lb & Ga & Gb). cbn [fst snd] in *.
    change (0 + k)%nat with k.
    intros (x & Hx%index_Ok & (a1 & Ha1 & (y & Hy%index_Ok &
      (b1 & Hb1 & [= <- <-])%bind_Ok)%bind_Ok)%bind_Ok)%bind_Ok.
    split_and!.
    + by rewrite (append_at_length _ _ _ _ Ha1).
    + by rewrite (append_at_length _ _ _ _ Hb1).
    + eapply grouped_append; [exact Hk|exact Ga| |exact Ha1]. done.
    + eapply grouped_append; [exact Hk|exact Gb| |exact Hb1]. done.
Qed.

Lemma new_loss2_parts types spans1 spans2 sims idx durations loss d :
  Loss2.new_loss types spans1 spans2 sims idx durations = Ok (loss, d) →
  ∃ bsz, Loss2.map_spans bsz spans1 spans2 idx durations
         = Ok (Loss2.src_spans d, Loss2.tgt_spans d) ∧
         Loss2.save_pred bsz (diag (temporal_iou spans1 spans2).1) loss idx
         = Ok (Loss2.ious d, Loss2.sim_losses d).
Proof.
  unfold Loss2.new_loss. cbv zeta. intros H.
  apply bind_Ok in H as (_ & _ & H). apply bind_Ok in H as (_ & _ & H).
  apply bind_Ok in H as ([src tgt] & Hm & H).
  apply bind_Ok in H as (l1 & _ & H). apply bind_Ok in H as (l2 & _ & H).
  apply bind_Ok in H as (l3 & _ & H). apply bind_Ok in H as ([a b] & Hs & H).
  injection H as <- <-. simpl. eauto.
Qed.



(** ** The order of the loops of the first snapshot *)

Lemma group_pairs_grouped bsz spans1 spans2 idx src tgt :
  Loss1.group_pairs bsz spans1 spans2 idx = Ok (src, tgt) →
  grouped (λ _ b s, ∃ a, spans1 !! b = Some a ∧ s = Loss1.span_int a) idx src ∧
  grouped (λ _ b s, ∃ a, spans2 !! b = Some a ∧ s = Loss1.span_int a) idx tgt.
Proof.
  intros H.
  set (R := λ (spans : list span) (_ b : nat) (s : ispan),
    ∃ a, spans !! b = Some a ∧ s = Loss1.span_int a).
  cut (grouped (R spans1) (take (length idx) idx) src ∧
       grouped (R spans2) (take (length idx) idx) tgt).
  { intros [? ?]. split; by apply grouped_full. }
  apply (for_enumerate_inv _
    (λ k st, grouped (R spans1) (take k idx) st.1 ∧
             grouped (R spans2) (take k idx) st.2) _ _ _ _ H).
  - simpl. split; apply grouped_init.
  - intros k i [a b] [a' b'] Hk (Ga & Gb). cbn [fst snd] in *.
    change (0 + k)%nat with k.
    intros (s & Hs%index_Ok & (a1 & Ha1 & (t & Ht%index_Ok &
      (b1 & Hb1 & [= <- <-])%bind_Ok)%bind_Ok)%bind_Ok)%bind_Ok.
    split.
    + eapply grouped_append; [exact Hk|exact Ga| |exact Ha1]. by exists s.
    + eapply grouped_append; [exact Hk|exact Gb| |exact Hb1]. by exists t.
Qed.

(** The pair met at place [p] of the loops is made of the two spans of
    the row that [loop_order] has at that place. *)
Lemma group_pairs_loop_order bsz spans1 spans2 idx src tgt p b a1 a2 :
  Loss1.group_pairs bsz spans1 spans2 idx = Ok (src, tgt) →
  loop_order bsz idx !! p = Some b →
  spans1 !! b = Some a1 → spans2 !! b = Some a2 →
  ∃ i j, idx !! b = Some i ∧ p = loop_pos src i j ∧
         entry src i j = Some (Loss1.span_int a1) ∧
         entry tgt i j = Some (Loss1.span_int a2).
Proof.
  intros Hg Hp H1 H2.
  destruct (group_pairs_shape _ _ _ _ _ _ Hg) as (Hl & Hsh & _).
  destruct (group_pairs_grouped _ _ _ _ _ _ Hg) as [G1 G2].
  rewrite <- Hl in Hp.
  destruct (grouped_loop_order _ _ _ _ _ G1 Hp)
    as (i & j & x & Hi & Hrow & Hx & (a & Ha & ->) & ->).
  assert (a = a1) as -> by congruence.
  exists i, j. split_and!; [done..|].
  unfold entry in *.
  destruct (src !! i) as [si|] eqn:Hsi; [|done].
  destruct (Forall2_lookup_l _ _ _ _ _ Hsh Hsi) as (ti & Hti & _).
  rewrite Hti. simpl.
  destruct (Forall2_lookup_l _ _ _ _ _ (G2 i ti Hti) Hrow) as (y & Hy & (c & Hc & ->)).
  rewrite Hy. congruence.
Qed.

Lemma rows_of_ge_nil i idx :
  Forall (λ j, (j < i)%nat) idx → rows_of i idx = [].
Proof.
  induction idx as [|j idx IH] using rev_ind; [done|].
  intros [H1 H2]%Forall_app. rewrite rows_of_snoc, IH by done.
  apply Forall_cons in H2 as [H2 _]. by rewrite decide_False by lia.
Qed.

Lemma nondecreasing_snoc idx x :
  nondecreasing (idx ++ [x]) → nondecreasing idx ∧ Forall (λ j, (j ≤ x)%nat) idx.
Proof.
  intros H. split.
  - intros k1 k2 i1 i2 Hk H1 H2.
    apply (H k1 k2 i1 i2 Hk); by apply lookup_app_l_Some.
  - apply Forall_lookup. intros k j Hj.
    apply (H k (length idx) j x).
    + apply lookup_lt_Some in Hj. lia.
    + by apply lookup_app_l_Some.
    + by rewrite lookup_app_r, Nat.sub_diag.
Qed.

(** When [idx] never decreases and names videos of the batch, the loops
    meet the rows in the order of the batch. *)
Lemma loop_order_sorted bsz idx :
  nondecreasing idx → Forall (λ i, (i < bsz)%nat) idx →
  loop_order bsz idx = seq 0 (length idx).
Proof.
  induction idx as [|x idx IH] using rev_ind; intros Hs Hb.
  - unfold loop_order. simpl. apply concat_all_nil.
    intros i g. rewrite list_lookup_fmap.
    by destruct (seq 0 bsz !! i); intros [= <-].
  - apply nondecreasing_snoc in Hs as [Hs Hle].
    apply Forall_app in Hb as [Hb Hx]. apply Forall_cons in Hx as [Hx _].
    rewrite length_app, seq_app. simpl. rewrite <- IH by done.
    unfold loop_order.
    assert ((λ i, rows_of i (idx ++ [x])) <$> seq 0 bsz
            = <[x := rows_of x idx ++ [length idx]]>
                ((λ i, rows_of i idx) <$> seq 0 bsz)) as ->.
    { apply list_eq. intros i.
      destruct (decide (x = i)) as [<-|Hne].
      - rewrite list_lookup_insert_eq by (by rewrite length_fmap, length_seq).
        rewrite list_lookup_fmap, lookup_seq_lt by done. simpl.
        by rewrite rows_of_snoc, decide_True.
      - rewrite list_lookup_insert_ne by done. rewrite !list_lookup_fmap.
        destruct (seq 0 bsz !! i) as [i'|] eqn:Hi; [|done]. simpl.
        apply lookup_seq in Hi as [-> _].
        by rewrite rows_of_snoc, decide_False, app_nil_r. }
    apply concat_insert_last.
    + by rewrite list_lookup_fmap, lookup_seq_lt.
    + intros i' g' Hi'. rewrite list_lookup_fmap.
      destruct (seq 0 bsz !! i') as [i''|] eqn:Hi; [|done]. simpl.
      apply lookup_seq in Hi as [-> _]. intros [= <-].
      apply rows_of_ge_nil. eapply Forall_impl; [exact Hle|]. simpl. lia.
Qed.

(** X18: which row meets which IoU in [S_Diff] and [S_Q_P] of the first
    snapshot.  The value at place [p] of either term multiplies
    [1 - iou[p]] by the similarity computed from the spans of the row [b]
    that the loops over the videos meet at place [p], on the similarities
    of the video of that row.  When [idx] never decreases, [b] is [p]:
    each row meets its own IoU. *)
Theorem similarity_terms_pairing
    (iou : list tval) (spans1 spans2 : list span) (logits : tensor2) (idx : list nat)
    (p b : nat) (a1 a2 : span) (v : tval) :
  Forall (λ i, (i < length (t_rows logits))%nat) idx →
  (length idx ≤ length spans1)%nat → (length idx ≤ length spans2)%nat →
  length iou = length idx →
  loop_order (length (t_rows logits)) idx !! p = Some b →
  spans1 !! b = Some a1 → spans2 !! b = Some a2 → iou !! p = Some v →
  ∃ i row, idx !! b = Some i ∧ t_rows logits !! i = Some row ∧
    (∃ terms, Loss1.S_Diff iou spans1 spans2 logits idx = Ok terms ∧
       terms !! p = Some (tmul (tsub (Fin 1) v)
                            (Loss1.sim_diff (Z.of_nat (t_cols logits)) row
                               (Loss1.span_int a1) (Loss1.span_int a2)))) ∧
    (∃ terms, Loss1.S_Q_P iou spans1 logits idx = Ok terms ∧
       terms !! p = Some (tmul (tsub (Fin 1) v)
                            (tsub (Fin 1)
                               (Loss1.src_sim (Z.of_nat (t_cols logits)) row
                                  (Loss1.span_int a1))))) ∧
    (nondecreasing idx → p = b).
Proof.
  intros Hi Hl1 Hl2 Hiou Hp H1 H2 Hv.
  destruct (group_pairs_wf (length (t_rows logits)) (λ _, True) spans1 spans2 idx)
    as ([src tgt] & Hg & Hl & Hsh & Hc & _); [by apply Forall_true..|done|done|done|].
  simpl in Hl, Hsh, Hc.
  destruct (group_pairs_loop_order _ _ _ _ _ _ _ _ _ _ Hg Hp H1 H2)
    as (i & j & Hib & -> & Hs & Ht).
  pose proof (Forall_lookup_1 _ _ _ _ Hi Hib) as Hlt. simpl in Hlt.
  destruct (lookup_lt_is_Some_2 (t_rows logits) i Hlt) as [row Hrow].
  pose proof (one_minus_lookup _ _ _ Hv) as Hv1.
  exists i, row. split_and!; [done..| | |].
  - unfold Loss1.S_Diff. rewrite Hg, bind_Ok_l.
    destruct (video_loop_lookup
                (Loss1.sim_diff (Z.of_nat (t_cols logits)))
                (t_rows logits) src tgt i j row _ _ Hl Hsh Hrow Hs Ht)
      as (out & -> & Hout & Hk).
    rewrite bind_Ok_l.
    destruct out as [|o out]; [by rewrite lookup_nil in Hk|].
    unfold stack. rewrite bind_Ok_l.
    rewrite broadcast_same_length
      by (unfold one_minus; rewrite length_fmap; congruence).
    eexists. split; [done|].
    by rewrite lookup_zip_with, Hv1, Hk.
  - unfold Loss1.S_Q_P. rewrite (group_pairs_spans _ _ _ _ _ _ Hg), bind_Ok_l.
    destruct (video_loop1_lookup
                (Loss1.src_sim (Z.of_nat (t_cols logits)))
                (t_rows logits) src i j row _ Hl Hrow Hs)
      as (out & -> & Hout & Hk).
    rewrite bind_Ok_l.
    destruct out as [|o out]; [by rewrite lookup_nil in Hk|].
    unfold stack. rewrite bind_Ok_l.
    rewrite broadcast_same_length
      by (unfold one_minus; rewrite !length_fmap; congruence).
    apply one_minus_lookup in Hk.
    eexists. split; [done|].
    by rewrite lookup_zip_with, Hv1, Hk.
  - intros Hsorted. rewrite (loop_order_sorted _ _ Hsorted Hi) in Hp.
    by apply lookup_seq in Hp as [-> _].
Qed.

Lemma similarity_terms_pairing_witness :
  ∃ i row, [1; 0]%nat !! 0%nat = Some i ∧ t_rows two_videos !! i = Some row ∧
    (∃ terms, Loss1.S_Diff [Fin (1 # 2); Fin (3 # 4)] [(0, 2); (1, 3)] [(0, 2); (0, 3)]
                two_videos [1; 0]%nat = Ok terms ∧
       terms !! 1%nat = Some (tmul (tsub (Fin 1) (Fin (3 # 4)))
                                (Loss1.sim_diff 4 row (Loss1.span_int (0, 2))
                                   (Loss1.span_int (0, 2))))) ∧
    (∃ terms, Loss1.S_Q_P [Fin (1 # 2); Fin (3 # 4)] [(0, 2); (1, 3)]
                two_videos [1; 0]%nat = Ok terms ∧
       terms !! 1%nat = Some (tmul (tsub (Fin 1) (Fin (3 # 4)))
                                (tsub (Fin 1)
                                   (Loss1.src_sim 4 row (Loss1.span_int (0, 2)))))) ∧
    (nondecreasing [1; 0]%nat → 1%nat = 0%nat).
Proof.
  apply (similarity_terms_pairing [Fin (1 # 2); Fin (3 # 4)] [(0, 2); (1, 3)]
           [(0, 2); (0, 3)] two_videos [1; 0]%nat 1 0 (0, 2) (0, 2) (Fin (3 # 4))).
  - repeat constructor; simpl; lia.
  - simpl. lia.
  - simpl. lia.
  - reflexivity.
  - reflexivity.
  - reflexivity.
  - reflexivity.
  - reflexivity.
Defined.

(** * The max-pooled variants of the clip-to-clip term *)

(** ** The largest similarity of a row *)

Lemma foldl_Qmax_bounds x r :
  x <= foldl Qmax x r ∧ Forall (λ y, y <= foldl Qmax x r) r ∧
  ∀ hi, x <= hi → Forall (λ y, y <= hi) r → foldl Qmax x r <= hi.
Proof.
  revert x. induction r as [|y r IH]; intros x; simpl.
  - split_and!; [lra|constructor|]. by intros.
  - destruct (IH (Qmax x y)) as (H1 & H2 & H3).
    pose proof (Q.le_max_l x y). pose proof (Q.le_max_r x y).
    split_and!.
    + lra.
    + constructor; [lra|done].
    + intros hi Hx [Hy Hr]%Forall_cons. apply H3; [|done]. by apply Q.max_lub.
Qed.

Lemma row_max_spec r :
  (0 < length r)%nat →
  ∃ m, Loss1.row_max r = Ok m ∧ Forall (λ y, y <= m) r ∧
       ∀ hi, Forall (λ y, y <= hi) r → m <= hi.
Proof.
  destruct r as [|x r]; [simpl; lia|]. intros _.
  destruct (foldl_Qmax_bounds x r) as (H1 & H2 & H3).
  exists (foldl Qmax x r). split_and!; [done|by constructor|].
  intros hi [Hx Hr]%Forall_cons. by apply H3.
Qed.

Lemma Qsum_app xs ys : Qsum (xs ++ ys) == Qsum xs + Qsum ys.
Proof.
  induction xs as [|x xs IH]; simpl; [ring|].
  change (foldr Qplus 0 (xs ++ ys)) with (Qsum (xs ++ ys)).
  change (foldr Qplus 0 xs) with (Qsum xs). rewrite IH. ring.
Qed.

(** The maxima of the rows of a block of [C >= 1] columns of similarities:
    there is one per row, each a similarity, and their sum, [C] times,
    is no less than the sum of the block. *)
Lemma block_maxima (C : nat) (block : list (list Q)) :
  (0 < C)%nat →
  Forall (λ r, length r = C ∧ Forall unit_interval r) block →
  ∃ maxima, for_each block Loss1.row_max = Ok maxima ∧
            length maxima = length block ∧ Forall unit_interval maxima ∧
            length (concat block) = (length block * C)%nat ∧
            Qsum (concat block) <= inject_Z (Z.of_nat C) * Qsum maxima.
Proof.
  intros HC. induction 1 as [|r block [Hr Hu] _ (maxima & Hm & Hl & Hmu & Hc & Hs)].
  - exists []. split_and!; [done..| |]; simpl; [constructor|lra].
  - destruct (row_max_spec r) as (m & Hrm & Hle & Hhi); [lia|].
    exists (m :: maxima). rewrite for_each_cons, Hrm, bind_Ok_l, Hm, bind_Ok_l.
    assert (unit_interval m) as Um.
    { split.
      - destruct r as [|x r]; [simpl in Hr; lia|].
        apply Forall_cons in Hu as [[X0 _] _]. apply Forall_cons in Hle as [Xm _]. lra.
      - apply Hhi. eapply Forall_impl; [exact Hu|]. by intros y [_ ?]. }
    split_and!; [done|simpl; lia|by constructor| |].
    + simpl. rewrite length_app. lia.
    + simpl concat. rewrite Qsum_app.
      change (Qsum (m :: maxima)) with (m + Qsum maxima).
      destruct (Qsum_bounds 0 m r) as [_ Hsum].
      { apply Forall_and. split; [|done].
        eapply Forall_impl; [exact Hu|]. by intros y [? _]. }
      rewrite Hr in Hsum. lra.
Qed.

(** On a block within an [(L, L)] matrix of similarities the mean of the
    row maxima is a similarity, no less than the mean of the block. *)
Lemma block_max_mean_ge (L : nat) (m : list (list Q)) rows cols :
  length m = L → Forall (λ row, length row = L ∧ Forall unit_interval row) m →
  in_bounds (Z.of_nat L) rows → in_bounds (Z.of_nat L) cols →
  ∃ a b, block_mean m rows cols = Fin a ∧ Loss1.block_max_mean m rows cols = Ok (Fin b) ∧
         0 <= a ∧ a <= b ∧ b <= 1.
Proof.
  intros Hl Hm Hrows Hcols.
  destruct (block_mean_unit L m rows cols Hl Hm Hrows Hcols) as (a & Ha & A0 & A1).
  destruct Hrows as (R1 & R2 & R3), Hcols as (C1 & C2 & C3).
  set (C := Z.to_nat (cols.2 + 1 - cols.1)).
  assert (0 < C)%nat as HC by (unfold C; lia).
  pose proof Ha as Ha0. unfold block_mean in Ha. unfold Loss1.block_max_mean.
  rewrite decide_False; last first.
  { unfold Loss1.block_width. destruct m as [|r m]; [simpl in Hl; lia|].
    apply Forall_cons in Hm as [[Hr _] _].
    rewrite py_slice_length by lia. lia. }
  pose proof (py_slice_Forall _ m rows.1 (rows.2 + 1)%Z Hm) as Hs.
  pose proof (py_slice_length m rows.1 (rows.2 + 1)%Z ltac:(lia) ltac:(lia)) as Hn.
  revert Ha Hs Hn. generalize (py_slice m rows.1 (rows.2 + 1)%Z) at 1 2 3 4.
  intros sl Ha Hs Hn.
  destruct (block_maxima C ((λ r : list Q, py_slice r cols.1 (cols.2 + 1)%Z) <$> sl))
    as (maxima & -> & Hlm & Hmu & Hc & Hsum); [done| |].
  { apply Forall_fmap. eapply Forall_impl; [exact Hs|]. intros r [Hr Hu]. simpl.
    split; [rewrite py_slice_length by lia; by unfold C|by apply py_slice_Forall]. }
  rewrite bind_Ok_l. rewrite length_fmap in Hlm, Hc.
  destruct (mean_bounds 0 1 maxima) as (b & Hb & B0 & B1); [lia|done|].
  exists a, b. rewrite Hb. split_and!; [done..| |done].
  unfold mean in Ha, Hb. rewrite Hc in Ha. rewrite Hlm in Hb.
  assert (0 < inject_Z (Z.of_nat (length sl))) as HR.
  { change 0 with (inject_Z 0). rewrite <- Zlt_Qlt. lia. }
  assert (0 < inject_Z (Z.of_nat C)) as HC'.
  { change 0 with (inject_Z 0). rewrite <- Zlt_Qlt. lia. }
  assert (inject_Z (Z.of_nat (length sl * C))
          == inject_Z (Z.of_nat (length sl)) * inject_Z (Z.of_nat C)) as Hmul.
  { by rewrite Nat2Z.inj_mul, inject_Z_mult. }
  assert (0 < inject_Z (Z.of_nat (length sl * C))) as HRC by (rewrite Hmul; nra).
  rewrite qdiv_nonzero in Ha, Hb by lra.
  injection Ha as <-. injection Hb as <-.
  apply Qle_shift_div_r; [done|]. rewrite Hmul.
  assert (Qsum maxima / inject_Z (Z.of_nat (length sl))
          * (inject_Z (Z.of_nat (length sl)) * inject_Z (Z.of_nat C))
          == inject_Z (Z.of_nat C) * Qsum maxima) as -> by (field; lra).
  done.
Qed.

(** ** The loops with a body that can fail *)

Section VideoLoopTry.
Context {T A : Type} (body : T → ispan → ispan → result A).

Lemma inner_loop_try (tgt : list (list ispan)) i tgt_i row src_i o :
  tgt !! i = Some tgt_i → (o + length src_i ≤ length tgt_i)%nat →
  for_each (imap (λ j, pair (o + j)%nat) src_i)
    (λ js, tgt_i' ← index tgt i; t ← index tgt_i' js.1; body row js.2 t)
  = for_each (zip_with (body row) src_i (drop o tgt_i)) id.
Proof.
  intros Hi%index_Ok. rewrite Hi. revert o.
  induction src_i as [|s src_i IH]; intros o Hlen; [done|].
  rewrite imap_cons. cbn [fst snd length] in *.
  destruct (index_lt tgt_i (o + 0)) as (t & Hlk & Ht); [lia|].
  rewrite Nat.add_0_r in Hlk. rewrite (drop_S _ _ _ Hlk).
  cbn [zip_with]. rewrite !for_each_cons. cbn [fst snd].
  rewrite bind_Ok_l, Ht, bind_Ok_l.
  rewrite (imap_ext _ (λ j, pair (S o + j)%nat)).
  - rewrite IH by lia. done.
  - intros j x _. simpl. f_equal. lia.
Qed.

Lemma outer_loop_try (rows : list T) (src tgt : list (list ispan)) o :
  (o + length rows ≤ length src)%nat → same_shape src tgt →
  for_each (imap (λ i, pair (o + i)%nat) rows)
    (λ ir, src_i ← index src ir.1;
           for_each (enumerate src_i) (λ js,
             tgt_i ← index tgt ir.1; t ← index tgt_i js.1;
             body ir.2 js.2 t))
  = for_each (zip_with (λ row st, zip_with (body row) st.1 st.2) rows
                (zip (drop o src) (drop o tgt)))
      (λ g, for_each g id).
Proof.
  intros Hlen Hshape. revert o Hlen.
  induction rows as [|row rows IH]; intros o Hlen; [done|].
  rewrite imap_cons. cbn [fst snd length] in *.
  destruct (index_lt src (o + 0)) as (src_o & Hs & Hsi); [lia|].
  rewrite Nat.add_0_r in *.
  destruct (Forall2_lookup_l _ _ _ _ _ Hshape Hs) as (tgt_o & Ht & Hlo).
  rewrite (drop_S _ _ _ Hs), (drop_S _ _ _ Ht).
  cbn [zip zip_with]. rewrite !for_each_cons. cbn [fst snd].
  rewrite Hsi, bind_Ok_l.
  pose proof (inner_loop_try tgt o tgt_o row src_o 0%nat Ht) as Hin.
  unfold enumerate.
  rewrite (imap_ext pair (λ j, pair (0 + j)%nat) src_o) by done.
  rewrite Hin by (simpl; lia). rewrite drop_0.
  rewrite (imap_ext _ (λ j, pair (S o + j)%nat)).
  - rewrite IH by lia. done.
  - intros j x _. simpl. f_equal. lia.
Qed.

(** With as many groups as rows, and ground-truth groups shaped like the
    predicted ones, no index is out of range: the loops run the bodies of
    the pairs in the order of the videos, up to the first that fails. *)
Lemma video_loop_try_ok (rows : list T) (src tgt : list (list ispan)) :
  length src = length rows → same_shape src tgt →
  Loss1.video_loop_try rows src tgt body
  = groups ← for_each (zip_with (λ row st, zip_with (body row) st.1 st.2) rows
                         (zip src tgt))
                (λ g, for_each g id);
    Ok (concat groups).
Proof.
  intros Hlen Hshape. unfold Loss1.video_loop_try.
  pose proof (outer_loop_try rows src tgt 0%nat) as H.
  rewrite !drop_0 in H. unfold enumerate at 1.
  rewrite (imap_ext pair (λ j, pair (0 + j)%nat) rows) by done.
  rewrite H by (done || simpl; lia). done.
Qed.

End VideoLoopTry.

Lemma Forall2_concat {A B} (P : A → B → Prop) ls ks :
  Forall2 (Forall2 P) ls ks → Forall2 P (concat ls) (concat ks).
Proof.
  induction 1 as [|l k ls ks Hlk _ IH]; [constructor|].
  simpl. by apply Forall2_app.
Qed.

Lemma for_each_id_Forall2 {A B} (P : A → B → Prop) (xs : list A) (rs : list (result B)) :
  Forall2 (λ x r, ∃ y, r = Ok y ∧ P x y) xs rs →
  ∃ ys, for_each rs id = Ok ys ∧ Forall2 P xs ys.
Proof.
  induction 1 as [|x r xs rs (y & -> & Hy) _ (ys & Hys & IH)].
  - exists []. by split.
  - exists (y :: ys). rewrite for_each_cons.
    change (id (Ok y : result B)) with (Ok y : result B).
    rewrite bind_Ok_l, Hys, bind_Ok_l. split; [done|]. by constructor.
Qed.

Lemma for_each_groups_Forall2 {A B} (P : A → B → Prop)
    (xs : list (list A)) (rs : list (list (result B))) :
  Forall2 (Forall2 (λ x r, ∃ y, r = Ok y ∧ P x y)) xs rs →
  ∃ gs, for_each rs (λ g, for_each g id) = Ok gs ∧ Forall2 (Forall2 P) xs gs.
Proof.
  induction 1 as [|x r xs rs Hxr _ (gs & Hgs & IH)].
  - exists []. by split.
  - destruct (for_each_id_Forall2 P x r Hxr) as (g & Hg & HP).
    exists (g :: gs). rewrite for_each_cons, Hg, bind_Ok_l, Hgs, bind_Ok_l.
    split; [done|]. by constructor.
Qed.

(** A pure and a failing body that agree, up to [P], on the rows and the
    spans of the groups: the two loops return lists related by [P]. *)
Lemma video_loop_try_rel {T A B} (f : T → ispan → ispan → A)
    (body : T → ispan → ispan → result B)
    (R : T → Prop) (S1 S2 : ispan → Prop) (P : A → B → Prop) rows src tgt :
  (∀ row s t, R row → S1 s → S2 t → ∃ y, body row s t = Ok y ∧ P (f row s t) y) →
  length src = length rows → same_shape src tgt →
  Forall R rows → Forall (Forall S1) src → Forall (Forall S2) tgt →
  ∃ out out', video_loop rows src tgt f = Ok out ∧
              Loss1.video_loop_try rows src tgt body = Ok out' ∧
              length out = length (concat src) ∧ Forall2 P out out'.
Proof.
  intros Hbody Hlen Hsh HR H1 H2.
  rewrite video_loop_ok, video_loop_try_ok by done.
  destruct (for_each_groups_Forall2 P
              (zip_with (λ row st, zip_with (f row) st.1 st.2) rows (zip src tgt))
              (zip_with (λ row st, zip_with (body row) st.1 st.2) rows (zip src tgt)))
    as (gs & -> & Hgs).
  { apply Forall2_same_length_lookup. split; [by rewrite !length_zip_with|].
    intros i g g' [row [[si ti] (-> & Hrow & Hz)]]%lookup_zip_with_Some.
    rewrite lookup_zip_with, Hrow, Hz. simpl. intros [= <-].
    apply lookup_zip_Some in Hz as [Hs Ht]. simpl.
    pose proof (Forall_lookup_1 _ _ _ _ HR Hrow) as Rrow.
    pose proof (Forall_lookup_1 _ _ _ _ H1 Hs) as Ps.
    pose proof (Forall_lookup_1 _ _ _ _ H2 Ht) as Pt.
    clear Hs Ht. revert ti Pt.
    induction Ps as [|s si Hs _ IH]; intros [|t ti] Pt; simpl; [constructor..|].
    apply Forall_cons in Pt as [Ht Pt]. constructor; [|by apply IH].
    by apply Hbody. }
  rewrite bind_Ok_l. eexists _, _. split_and!; [done..| |].
  - by apply same_shape_concat, video_loop_groups_shape.
  - by apply Forall2_concat.
Qed.

(** ** Max-pooling against mean-pooling *)



(** ** The third variant is the second with the roles exchanged *)

Lemma group_pairs_body_swap spans1 spans2 b i (src tgt : list (list ispan)) :
  (s ← index spans2 b;
   tgt' ← append_at i (Loss1.span_int s) tgt;
   t ← index spans1 b;
   src' ← append_at i (Loss1.span_int t) src;
   Ok (tgt', src'))
  = (λ st : list (list ispan) * list (list ispan), (st.2, st.1)) <$>
    (s ← index spans1 b;
     src' ← append_at i (Loss1.span_int s) src;
     t ← index spans2 b;
     tgt' ← append_at i (Loss1.span_int t) tgt;
     Ok (src', tgt')).
Proof.
  unfold append_at, index.
  by destruct (spans1 !! b), (spans2 !! b), (src !! i), (tgt !! i).
Qed.

Lemma group_pairs_swap bsz spans1 spans2 idx :
  Loss1.group_pairs bsz spans2 spans1 idx
  = (λ st : list (list ispan) * list (list ispan), (st.2, st.1)) <$>
    Loss1.group_pairs bsz spans1 spans2 idx.
Proof.
  unfold Loss1.group_pairs.
  generalize (replicate bsz ([] : list ispan)) at 1 4.
  generalize (replicate bsz ([] : list ispan)).
  generalize 0%nat.
  induction idx as [|i idx IH]; intros b src tgt; [done|].
  cbn [for_enumerate fst snd].
  rewrite group_pairs_body_swap.
  destruct (s ← index spans1 b; src' ← append_at i (Loss1.span_int s) src;
            t ← index spans2 b; tgt' ← append_at i (Loss1.span_int t) tgt;
            Ok (src', tgt')) as [[src' tgt']|e]; [|done].
  simpl. apply IH.
Qed.

Lemma grouped_Forall {A} (R : nat → nat → A → Prop) (P : A → Prop) idx groups :
  grouped R idx groups → (∀ i b x, R i b x → P x) → Forall (Forall P) groups.
Proof.
  intros Hg HP. apply Forall_lookup. intros i g Hi.
  apply Forall_lookup. intros j x Hx.
  destruct (Forall2_lookup_r _ _ _ _ _ (Hg i g Hi) Hx) as (b & _ & HR). eauto.
Qed.

Lemma zip_with_ext_Forall {A B C} (f g : A → B → C) (P : A → Prop) (Q : B → Prop) l k :
  (∀ x y, P x → Q y → f x y = g x y) → Forall P l → Forall Q k →
  zip_with f l k = zip_with g l k.
Proof.
  intros Hfg Hl. revert k. induction Hl as [|x l Hx _ IH]; intros k Hk; [done|].
  destruct Hk as [|y k Hy Hk]; [done|]. simpl. f_equal; [by apply Hfg|by apply IH].
Qed.

Lemma clamp_src_tgt vid_len s : (0 ≤ s.1)%Z → clamp_src vid_len s = clamp_tgt vid_len s.
Proof. intros H. unfold clamp_src, clamp_tgt. f_equal. lia. Qed.

(** X20: [S_GT_P_3] is [S_GT_P_2] with the two batches of spans exchanged,
    as long as no span starts at a negative clip index: the only
    difference between the two is the lower bound 0, which both apply to
    the start of the predicted span alone. *)
Theorem S_GT_P_3_swap (iou : list tval) (spans1 spans2 : list span)
    (v2v_sims : tensor3) (idx : list nat) :
  Forall (λ s, (0 ≤ (Loss1.span_int s).1)%Z) spans1 →
  Forall (λ s, (0 ≤ (Loss1.span_int s).1)%Z) spans2 →
  Loss1.S_GT_P_3 iou spans1 spans2 v2v_sims idx
  = Loss1.S_GT_P_2 iou spans2 spans1 v2v_sims idx.
Proof.
  intros H1 H2. unfold Loss1.S_GT_P_3, Loss1.S_GT_P_2.
  rewrite (group_pairs_swap _ spans1 spans2).
  destruct (Loss1.group_pairs (length (v_mats v2v_sims)) spans1 spans2 idx)
    as [[src tgt]|e] eqn:Hg; [|reflexivity].
  simpl fmap. rewrite !bind_Ok_l. cbv beta iota. cbn [fst snd].
  destruct (group_pairs_shape _ _ _ _ _ _ Hg) as (Hl & Hsh & _).
  destruct (group_pairs_grouped _ _ _ _ _ _ Hg) as [G1 G2].
  assert (Forall (Forall (λ s : ispan, (0 ≤ s.1)%Z)) src) as P1.
  { eapply grouped_Forall; [exact G1|]. intros i b x (a & Ha & ->).
    exact (Forall_lookup_1 _ _ _ _ H1 Ha). }
  assert (Forall (Forall (λ s : ispan, (0 ≤ s.1)%Z)) tgt) as P2.
  { eapply grouped_Forall; [exact G2|]. intros i b x (a & Ha & ->).
    exact (Forall_lookup_1 _ _ _ _ H2 Ha). }
  pose proof (Forall2_length _ _ _ Hsh) as Hlt.
  assert (same_shape tgt src) as Hsh'.
  { apply Forall2_flip. eapply Forall2_impl; [exact Hsh|]. by intros. }
  rewrite !video_loop_try_ok by (done || lia).
  assert (zip_with (λ row st, zip_with (Loss1.i2i_sim_3 (Z.of_nat (v_len v2v_sims)) row)
                                st.1 st.2) (v_mats v2v_sims) (zip src tgt)
          = zip_with (λ row st, zip_with (Loss1.i2i_sim_2 (Z.of_nat (v_len v2v_sims)) row)
                                  st.1 st.2) (v_mats v2v_sims) (zip tgt src)) as ->; [|done].
  apply list_eq. intros i. rewrite !lookup_zip_with.
  destruct (v_mats v2v_sims !! i) as [row|]; [|done]. simpl.
  destruct (src !! i) as [si|] eqn:Hsi; destruct (tgt !! i) as [ti|] eqn:Hti;
    simpl; try done.
  f_equal. rewrite <- (zip_with_flip _ ti si).
  apply (zip_with_ext_Forall _ _ (λ s : ispan, (0 ≤ s.1)%Z) (λ s : ispan, (0 ≤ s.1)%Z)).
  - intros s t Hs Ht. unfold flip, Loss1.i2i_sim_3, Loss1.i2i_sim_2.
    by rewrite (clamp_src_tgt _ s Hs), (clamp_src_tgt _ t Ht).
  - exact (Forall_lookup_1 _ _ _ _ P1 Hsi).
  - exact (Forall_lookup_1 _ _ _ _ P2 Hti).
Qed.

Lemma S_GT_P_3_swap_witness :
  Loss1.S_GT_P_3 [Fin (1 # 2); Fin (3 # 4)] [(0, 2); (1, 3)] [(0, 2); (0, 3)]
    (Tensor3 4 [replicate 4 (replicate 4 (1 # 2)); replicate 4 (replicate 4 (1 # 4))])
    [0; 1]%nat
  = Loss1.S_GT_P_2 [Fin (1 # 2); Fin (3 # 4)] [(0, 2); (0, 3)] [(0, 2); (1, 3)]
      (Tensor3 4 [replicate 4 (replicate 4 (1 # 2)); replicate 4 (replicate 4 (1 # 4))])
      [0; 1]%nat.
Proof.
  apply (S_GT_P_3_swap [Fin (1 # 2); Fin (3 # 4)] [(0, 2); (1, 3)] [(0, 2); (0, 3)]
           (Tensor3 4 [replicate 4 (replicate 4 (1 # 2)); replicate 4 (replicate 4 (1 # 4))])
           [0; 1]%nat).
  - repeat constructor; by vm_compute.
  - repeat constructor; by vm_compute.
Defined.

(** * The loss of the second snapshot with one similarity term *)

Lemma map_spans_loop_order bsz spans1 spans2 idx durations src tgt p b a1 a2 :
  Loss2.map_spans bsz spans1 spans2 idx durations = Ok (src, tgt) →
  loop_order bsz idx !! p = Some b →
  spans1 !! b = Some a1 → spans2 !! b = Some a2 →
  ∃ i j dur, idx !! b = Some i ∧ durations !! i = Some dur ∧ p = loop_pos src i j ∧
             entry src i j = Some (Loss2.to_clip_span (dur `div` 2) a1) ∧
             entry tgt i j = Some (Loss2.to_clip_span (dur `div` 2) a2).
Proof.
  intros Hm Hp H1 H2.
  destruct (map_spans_grouped _ _ _ _ _ _ _ Hm) as (Hl & Hl' & G1 & G2).
  rewrite <- Hl in Hp.
  destruct (grouped_loop_order _ _ _ _ _ G1 Hp)
    as (i & j & x & Hi & Hrow & Hx & (a & dur & Ha & Hd & ->) & ->).
  assert (a = a1) as -> by congruence.
  exists i, j, dur. split_and!; [done..|].
  unfold entry in *.
  destruct (src !! i) as [si|] eqn:Hsi; [|done].
  destruct (lookup_lt_is_Some_2 tgt i) as [ti Hti].
  { rewrite Hl', <- Hl. by eapply lookup_lt_Some. }
  rewrite Hti. simpl.
  destruct (Forall2_lookup_l _ _ _ _ _ (G2 i ti Hti) Hrow)
    as (y & Hy & (c & dur' & Hc & Hd' & ->)).
  rewrite Hy. congruence.
Qed.


